(** * pangraph/tree.py: neighbor joining, progressive merge gate, loader, JSON

    A shallow embedding of [src/pangraph/tree.py].

    Numbers.  The program computes on numpy [float64] values.  They are
    embedded as exact rationals [Q]; the extra value [+inf] that
    [np.fill_diagonal(Q, np.inf)] writes is kept by the type [qext].
    Rounding, overflow and NaN are outside this embedding.  Which pair a
    join selects depends on the rounding, so the module [Machine] holds
    [q] and [minpair] once more, over the operations of the machine,
    with IEEE 754 binary64 as an instance.

    Objects.  Python lists are lists, indexed with stdpp's [!!], updated
    with [<[i:=x]>] and shortened with [delete]; an index that Python would
    reject is reported as [Err IndexError].  The one list object that is
    shared between calls, the default value of the [children] argument of
    [Node.__init__], is threaded explicitly as [default_children]. *)

From Stdlib Require Import QArith Qminmax Lqa Lia ZArith.
From Stdlib Require Import String Ascii.
From Stdlib Require Import Floats Uint63.
From stdpp Require Import base option list strings pretty.

Set Warnings "-register-all".
Set Warnings "-inexact-float".

Local Open Scope Q_scope.
Local Open Scope nat_scope.

(** ** Outcomes of a Python call *)

Inductive exn : Type :=
  | AssertionError
  | IndexError
  | KeyError
  | ValueError
  | ZeroDivisionError
  | TypeError
  | AttributeError.

Inductive result (A : Type) : Type :=
  | Ok (a : A)
  | Err (e : exn).
Arguments Ok {A} a.
Arguments Err {A} e.

#[global] Instance result_ret : MRet result := fun A a => Ok a.
#[global] Instance result_bind : MBind result := fun A B k r =>
  match r with
  | Ok a => k a
  | Err e => Err e
  end.

(** [l[i]] on a Python list. *)
Definition index {A} (l : list A) (i : nat) : result A :=
  match l !! i with
  | Some a => Ok a
  | None => Err IndexError
  end.

(** ** Node *)

Section NODE.
Context {G : Type}.

(** [Node]: [name], [dist] ([None] until set), [children], [fapath],
    [graph].  The [parent] back-reference is the position of the node in the
    [children] list that holds it. *)
Inductive Node : Type :=
  mkNode (name : string) (dist : option Q) (children : list Node)
         (fapath : string) (graph : option G).

Definition name (n : Node) : string :=
  match n with mkNode x _ _ _ _ => x end.
Definition dist (n : Node) : option Q :=
  match n with mkNode _ d _ _ _ => d end.
Definition children (n : Node) : list Node :=
  match n with mkNode _ _ c _ _ => c end.
Definition fapath (n : Node) : string :=
  match n with mkNode _ _ _ p _ => p end.
Definition graph (n : Node) : option G :=
  match n with mkNode _ _ _ _ g => g end.

End NODE.
Arguments Node G : clear implicits.

(** ** Numbers and matrices *)

(** [x < y] on floats, as a test. *)
Definition Qltb (x y : Q) : bool := negb (Qle_bool y x).

(** A float that is either a rational or [+inf]. *)
Inductive qext : Type :=
  | Fin (x : Q)
  | PInf.

Definition qext_ltb (a b : qext) : bool :=
  match a, b with
  | Fin x, Fin y => Qltb x y
  | Fin _, PInf => true
  | PInf, _ => false
  end.

(** A 2-d numpy array, row by row. *)
Abbreviation matrix := (list (list Q)).

Definition qnth (l : list Q) (k : nat) : Q := default 0%Q (l !! k).
Definition row (D : matrix) (i : nat) : list Q := default [] (D !! i).
Definition mget (D : matrix) (i j : nat) : Q := qnth (row D i) j.

(** [D.shape == (n, n)] *)
Definition square (n : nat) (D : matrix) : Prop :=
  length D = n /\ Forall (fun r => length r = n) D.

Definition symmetric (D : matrix) : Prop :=
  forall i j, (mget D i j == mget D j i)%Q.

Definition zero_diagonal (D : matrix) : Prop :=
  forall i, i < length D -> (mget D i i == 0)%Q.

(** [D[i, j]] as Python evaluates it. *)
Definition index2 (D : matrix) (i j : nat) : result Q :=
  r ← index D i; index r j.

Definition Qsum (l : list Q) : Q := foldr Qplus 0%Q l.

(** [np.sum(D, axis=1)]: the sum of each row. *)
Definition sum_axis1 (D : matrix) : list Q := Qsum <$> D.

(** [np.sum(D, axis=0)]: the sum of each column; the number of columns is
    that of the first row. *)
Definition ncols (D : matrix) : nat := length (row D 0).
Definition column (D : matrix) (j : nat) : list Q := (fun r => qnth r j) <$> D.
Definition sum_axis0 (D : matrix) : list Q :=
  (fun j => Qsum (column D j)) <$> seq 0 (ncols D).

(** [np.delete(D, j, axis=0)] and [np.delete(D, j, axis=1)] *)
Definition delete_row (j : nat) (D : matrix) : matrix := delete j D.
Definition delete_col (j : nat) (D : matrix) : matrix := delete j <$> D.

(** [D[i, :] = v], [D[:, i] = v], [D[i, j] = x] *)
Definition set_row (i : nat) (v : list Q) (D : matrix) : matrix := <[i:=v]> D.
Definition set_col (i : nat) (v : list Q) (D : matrix) : matrix :=
  imap (fun k r => <[i:=qnth v k]> r) D.
Definition set_entry (i j : nat) (x : Q) (D : matrix) : matrix :=
  <[i:=<[j:=x]> (row D i)]> D.

(** ** Neighbor joining: the helpers of [Tree.nj] *)

(** [q(D)]: [(n-2)*D - (np.sum(D,axis=0,keepdims=True) +
    np.sum(D,axis=1,keepdims=True))], then [np.fill_diagonal(Q, np.inf)].
    The two sums broadcast to [colsum[j] + rowsum[i]] at [(i, j)]. *)
Definition q (D : matrix) : list (list qext) :=
  let n := length D in
  let s0 := sum_axis0 D in
  let s1 := sum_axis1 D in
  imap (fun i r =>
    imap (fun j x =>
      if decide (i = j) then PInf
      else Fin (inject_Z (Z.of_nat n - 2) * x - (qnth s0 j + qnth s1 i))%Q) r) D.

(** [np.argmin] on the flattened array: the first position of the least
    value. *)
Fixpoint argmin_from (best : nat) (bv : qext) (k : nat) (l : list qext) : nat :=
  match l with
  | [] => best
  | x :: l' =>
      if qext_ltb x bv then argmin_from k x (S k) l'
      else argmin_from best bv (S k) l'
  end.

Definition argmin (l : list qext) : result nat :=
  match l with
  | [] => Err ValueError
  | x :: l' => Ok (argmin_from 0 x 1 l')
  end.

Definition qext_row (Qm : list (list qext)) (i : nat) : list qext :=
  default [] (Qm !! i).

(** [minpair(q)]: [np.unravel_index(np.argmin(q), q.shape)], the value
    there, and the two indices put in increasing order. *)
Definition minpair (Qm : list (list qext)) : result (nat * nat * qext) :=
  k ← argmin (concat Qm);
  let c := length (qext_row Qm 0) in
  let i := k / c in
  let j := k mod c in
  r ← index Qm i;
  qmin ← index r j;
  if decide (j < i) then Ok (j, i, qmin) else Ok (i, j, qmin).

(** The two branch lengths of [pairdists] before the negative-branch
    correction. *)
Definition rawdists (D : matrix) (i j : nat) : Q * Q :=
  let n := length D in
  let d1 := ((1 # 2) * mget D i j
             + (1 / inject_Z (2 * (Z.of_nat n - 2)))
               * (Qsum (row D i) - Qsum (row D j)))%Q in
  let d2 := (mget D i j - d1)%Q in
  (d1, d2).

(** "remove negative branches while keeping total fixed": the two [if]s of
    [pairdists], in their order. *)
Definition correct (d : Q * Q) : Q * Q :=
  let '(d1, d2) := d in
  let '(d1, d2) := if Qltb d1 0 then (0%Q, (d2 - d1)%Q) else (d1, d2) in
  let '(d1, d2) := if Qltb d2 0 then ((d1 - d2)%Q, 0%Q) else (d1, d2) in
  (d1, d2).

(** [pairdists(D, i, j)] *)
Definition pairdists (D : matrix) (i j : nat) : result (Q * Q * list Q) :=
  dij ← index2 D i j;
  if decide (2 * (Z.of_nat (length D) - 2) = 0)%Z then Err ZeroDivisionError
  else
    _ ← index D j;
    let '(d1, d2) := correct (rawdists D i j) in
    let dnew := zip_with (fun a b => ((1 # 2) * (a + b - dij))%Q)
                         (row D i) (row D j) in
    Ok (d1, d2, dnew).

(** [f"NODE_{idx:05d}"] *)
Fixpoint zeros (k : nat) : string :=
  match k with
  | 0 => ""
  | S k' => String "0" (zeros k')
  end.

Definition node_name (idx : nat) : string :=
  let s := pretty idx in
  "NODE_" +:+ zeros (5 - String.length s) +:+ s.

Section NJ.
Context {G : Type}.
Abbreviation Node := (Node G).

Definition is_leaf (n : Node) : bool :=
  bool_decide (length (children n) = 0).

Fixpoint postorder (n : Node) : list Node :=
  match n with
  | mkNode _ _ cs _ _ => concat (postorder <$> cs) ++ [n]
  end.

(** The leaves of the tree under [n], as [get_leafs] lists them. *)
Definition leaves_of (n : Node) : list Node :=
  filter (fun m => is_leaf m = true) (postorder n).

(** [Node.new_parent]: [self.dist = dist if dist > 0 else 0] *)
Definition new_parent (n : Node) (d : Q) : Node :=
  match n with
  | mkNode x _ cs p g => mkNode x (Some (if Qltb 0 d then d else 0%Q)) cs p g
  end.

Definition set_dist (n : Node) (d : Q) : Node :=
  match n with
  | mkNode x _ cs p g => mkNode x (Some d) cs p g
  end.

(** [Node(name, T.root, None, children=[])] *)
Definition leaf (x : string) : Node := mkNode x None [] "" None.

(** [join(D)]: one step of the loop; [ch] is [T.root.children], [idx] the
    counter of internal nodes.  When [i = j] the new node holds one child
    object twice, and the second [new_parent] call decides its [dist]. *)
Definition join (D : matrix) (ch : list Node) (idx : nat)
  : result (matrix * list Node * nat) :=
  '(i, j, qmin) ← minpair (q D);
  ci ← index ch i;
  cj ← index ch j;
  '(d1, d2, dnew) ← pairdists D i j;
  let ci' := if decide (i = j) then new_parent ci d2 else new_parent ci d1 in
  let cj' := new_parent cj d2 in
  let node := mkNode (node_name idx) None [ci'; cj'] "" None in
  let D1 := set_row i dnew D in
  let D2 := set_col i dnew D1 in
  let D3 := set_entry i i 0%Q D2 in
  let D4 := delete_col j (delete_row j D3) in
  Ok (D4, delete j (<[i:=node]> ch), S idx).

(** The [while mtx.shape[0] > 2] loop.  [fuel] bounds the number of
    iterations; [nj] passes the number of rows, which is enough
    ([nj_loop_runs]). *)
Fixpoint nj_loop (fuel : nat) (mtx : matrix) (ch : list Node) (idx : nat)
  : option (result (matrix * list Node * nat)) :=
  if decide (2 < length mtx) then
    match fuel with
    | 0 => None
    | S fuel' =>
        match join mtx ch idx with
        | Ok (mtx', ch', idx') => nj_loop fuel' mtx' ch' idx'
        | Err e => Some (Err e)
        end
    end
  else Some (Ok (mtx, ch, idx)).

(** [Tree]: the root, the leaf-to-sequence dict ([None] until attached; a
    leaf is named by its position in [get_leafs()]) and the cache
    [leaves]. *)
Record Tree : Type := mkTree {
  root : Node;
  seqs : option (list (nat * string));
  leaves : option (list Node)
}.

(** [Tree()]: the root is [Node("ROOT", None, 0)], built without a
    [children] argument, so that its [children] is the list object that
    [Node.__init__] has as default value; [default_children] is the content
    of that object when the constructor runs. *)
Definition Tree_init (default_children : list Node) : Tree :=
  mkTree (mkNode "ROOT" (Some 0%Q) default_children "" None) None None.

(** [Tree.nj(mtx, names)].  [T.root.children] is the shared default list,
    and every [append], item assignment and [pop] on it is a change of
    [default_children].  The call returns [T] as it reads at [return],
    together with the content that the shared list has then. *)
Definition nj (default_children : list Node) (mtx : matrix) (names : list string)
  : option (result (Tree * list Node)) :=
  if decide (NoDup names) then
    let ch0 := default_children ++ (leaf <$> names) in
    match nj_loop (length mtx) mtx ch0 0 with
    | None => None
    | Some (Err e) => Some (Err e)
    | Some (Ok (mtx', ch, idx)) =>
        Some (
          if decide (length mtx' = 2) then
            d ← index2 mtx' 0 1;
            c0 ← index ch 0;
            let ch1 := <[0:=set_dist c0 (d / 2)%Q]> ch in
            c1 ← index ch1 1;
            let ch2 := <[1:=set_dist c1 (d / 2)%Q]> ch1 in
            Ok (Tree_init ch2, ch2)
          else Err AssertionError)
    end
  else Some (Err AssertionError).

End NJ.

(** ** Progressive merge: [merge0] and its caller in [Tree.align] *)

Definition MAXSELFMAPS : nat := 25.

(** [str.upper()] on the letters of a sequence. *)
Definition upper_ascii (c : ascii) : ascii :=
  let k := nat_of_ascii c in
  if decide (97 <= k /\ k <= 122) then ascii_of_nat (k - 32) else c.

Fixpoint upper (s : string) : string :=
  match s with
  | EmptyString => EmptyString
  | String c s' => String (upper_ascii c) (upper s')
  end.

(** Python's [min(a, b)] and [max(a, b)] on two floats. *)
Definition pymin (a b : Q) : Q := if Qltb b a then b else a.
Definition pymax (a b : Q) : Q := if Qltb a b then b else a.

Section MERGE.

(** The sequence-graph class [Graph] of [pangraph/graph.py], which is not
    part of the sources at hand, is a parameter: its type and the methods
    that [align] calls.  [union] returns the new graph and the flag that
    [merge0] calls [contin]; [members g] are the keys of [G.seqs].
    Writing FASTA files and logging leave no trace in what [merge0]
    returns and are left out; a graph object counts as true in a
    condition. *)
Context {G : Type}.
Variable fuse : G -> G -> G.
Variable union : G -> string -> string -> string -> G * bool.
Variable compress_ratio : G -> Q.
Variable members : G -> list string.
Variable extract : G -> string -> string.

(** The directory [tmpdir], and for every leaf of the tree, in the order of
    [get_leafs()], its name and [str(self.seqs[leaf][:])]. *)
Variable tmpdir : string.
Variable leaf_seqs : list (string * string).

(** [s[i*100:(i+1)*100]] *)
Definition block (s : string) (i : nat) : string := substring (i * 100) 100 s.

(** Some [i] in [range(len(orig)//100)] has
    [orig[i*100:(i+1)*100] != rec[i*100:(i+1)*100]]. *)
Definition differing_block (orig back : string) : bool :=
  existsb (fun i => negb (String.eqb (block orig i) (block back i)))
          (seq 0 (String.length orig / 100)).

(** The loop of [check(seqs, G)] over the leaves, with the count [nerror]
    of the leaves that are members of the graph and whose sequence the
    graph does not give back.  For such a leaf the debugging code runs:
    at the first block of 100 characters that differs it builds
    [[i for i in range(len(rec)) if rec[i] != orig[i]]], which raises
    [IndexError] when [rec] is longer than [orig].  What follows there
    walks [G.seqs] and [G.blks] and is taken to return, as the other
    calls into [Graph] are; the file it writes and what it prints leave
    no trace. *)
Fixpoint nerror (ls : list (string * string)) (g : G) : result nat :=
  match ls with
  | [] => Ok 0
  | (nm, seq) :: ls' =>
      if decide (nm ∈ members g) then
        let orig := upper seq in
        let back := extract g nm in
        if decide (orig = back) then nerror ls' g
        else if differing_block orig back
                && (String.length orig <? String.length back)
        then Err IndexError
        else k ← nerror ls' g; Ok (S k)
      else nerror ls' g
  end.

(** [check(seqs, G)]: [raise ValueError] unless [nerror == 0]. *)
Definition check (g : G) : result unit :=
  k ← nerror leaf_seqs g;
  if decide (k = 0) then Ok () else Err ValueError.

(** [f"{tmpdir}/{n.name}_iter_{i}"] *)
Definition iter_path (nname : string) (i : nat) : string :=
  tmpdir +:+ "/" +:+ nname +:+ "_iter_" +:+ pretty i.

(** The [for i in range(MAXSELFMAPS)] loop of [merge0]; [k] iterations are
    left and [i] is the loop variable.  When the range is used up the
    function body ends without a [return], which in Python returns
    [None]. *)
Fixpoint selfmaps (nname : string) (k i : nat) (g : G) : result (option G) :=
  match k with
  | 0 => Ok None
  | S k' =>
      _ ← check g;
      let itr := iter_path nname i in
      let '(g', contin) := union g itr itr itr in
      if contin then selfmaps nname k' (S i) g' else Ok (Some g')
  end.

(** The candidate of [merge0] and its acceptance threshold. *)
Definition candidate (nname : string) (graph1 : G) (fapath1 : string)
    (graph2 : G) (fapath2 : string) : G :=
  (union (fuse graph1 graph2) fapath1 fapath2 (tmpdir +:+ "/" +:+ nname)).1.

Definition cutoff (graph1 graph2 : G) : Q :=
  pymax 0 (pymin (compress_ratio graph1) (compress_ratio graph2) - (5 # 100))%Q.

(** [merge0(node1, node2)] while [align] processes the node named [nname];
    [Ok None] is the Python value [None]. *)
Definition merge0 (nname : string) (graph1 : G) (fapath1 : string)
    (graph2 : G) (fapath2 : string) : result (option G) :=
  let graph := candidate nname graph1 fapath1 graph2 fapath2 in
  if Qltb (compress_ratio graph) (cutoff graph1 graph2) then Ok None
  else selfmaps nname MAXSELFMAPS 0 graph.

Definition set_fapath (n : Node G) (p : string) : Node G :=
  match n with
  | mkNode x d cs _ g => mkNode x d cs p g
  end.

Definition set_graph (n : Node G) (g : option G) : Node G :=
  match n with
  | mkNode x d cs p _ => mkNode x d cs p g
  end.

(** The body of the postorder loop of [align] for an inner node [n] whose
    two children [c0], [c1] both hold a graph: [n.fapath] is set,
    [n.graph = merge0(c0, c1)], and on [None] the loop goes on to the next
    node; otherwise the graph is checked.  The result is [n] as the loop
    leaves it. *)
Definition visit_both (n c0 c1 : Node G) (g0 g1 : G) : result (Node G) :=
  let n1 := set_fapath n (tmpdir +:+ "/" +:+ name n) in
  r ← merge0 (name n) g0 (fapath c0) g1 (fapath c1);
  match r with
  | None => Ok (set_graph n1 None)
  | Some g => _ ← check g; Ok (set_graph n1 (Some g))
  end.

(** The graph that a run of the loop of [merge0] holds after [t] passes
    when it starts at loop index [i] with [g], and the flag that its pass
    number [t] (from 0) returns. *)
Fixpoint pass_graph (nname : string) (i : nat) (g : G) (t : nat) : G :=
  match t with
  | 0 => g
  | S t' =>
      let itr := iter_path nname i in
      pass_graph nname (S i) (union g itr itr itr).1 t'
  end.

Definition pass_contin (nname : string) (i : nat) (g : G) (t : nat) : bool :=
  let itr := iter_path nname (i + t) in
  (union (pass_graph nname i g t) itr itr itr).2.

End MERGE.

(** A collaborator whose every pass reports that more work remains: a
    graph is the number of passes it went through. *)
Definition busy_union (g : nat) (_ _ _ : string) : nat * bool := (S g, true).

(** A collaborator that reports that no work remains once a graph went
    through two passes. *)
Definition calm_union (g : nat) (_ _ _ : string) : nat * bool :=
  (S g, bool_decide (g < 2)).

(** Two compression ratios on such graphs: one that falls with every
    pass, one that grows. *)
Definition falling_ratio (g : nat) : Q := 1 # Pos.of_succ_nat g.
Definition growing_ratio (g : nat) : Q := inject_Z (Z.of_nat g).

Definition no_members (g : nat) : list string := [].
Definition no_extract (g : nat) (nm : string) : string := "".

(** ** The loader [parse] *)

(** [np.delete(l, idxs)] along one axis: the entries whose position is not
    listed; [k] is the position of the head of [l]. *)
Fixpoint delete_idxs_from {A} (k : nat) (idxs : list nat) (l : list A) : list A :=
  match l with
  | [] => []
  | x :: l' =>
      if decide (k ∈ idxs) then delete_idxs_from (S k) idxs l'
      else x :: delete_idxs_from (S k) idxs l'
  end.

Definition np_delete {A} (idxs : list nat) (l : list A) : list A :=
  delete_idxs_from 0 idxs l.

(** [M.T] *)
Definition transpose (M : matrix) : matrix := column M <$> seq 0 (ncols M).

(** [nodiag(mtx)]: [mtx - np.diag(np.diag(mtx))] *)
Definition nodiag (M : matrix) : matrix :=
  imap (fun i r =>
    imap (fun j x => (x - (if decide (i = j) then mget M i i else 0))%Q) r) M.

Definition madd (A B : matrix) : matrix := zip_with (zip_with Qplus) A B.

(** [e[0].split('/')[-1][:-3]]: the part of the token after its last
    ['/'], without its last three characters. *)
Definition last_segment (s : list ascii) : list ascii :=
  foldl (fun acc c => if decide (c = "/"%char) then [] else acc ++ [c]) [] s.

Definition derived_name (token : string) : string :=
  let seg := last_segment (list_ascii_of_string token) in
  string_of_list_ascii (take (length seg - 3) seg).

(** The [for li, line in enumerate(fh)] loop of [parse].  A line is its
    first field and the numbers [float(x) for x in e[1:]].
    [M[li, :(li+1)] = vals] needs [li] to be a row of [M], and [vals] to
    hold [li+1] numbers, or one number, which numpy repeats. *)
Fixpoint parse_lines (nrows li : nat) (lines : list (string * list Q))
    (M : matrix) (seq_names : list string) (del_idxs : list nat)
  : result (matrix * list string * list nat) :=
  match lines with
  | [] => Ok (M, seq_names, del_idxs)
  | (token, vals) :: rest =>
      let n := derived_name token in
      if decide (n ∈ seq_names) then
        parse_lines nrows (S li) rest M seq_names (del_idxs ++ [li])
      else if decide (nrows <= li) then Err IndexError
      else
        let old := row M li in
        if decide (length vals = S li) then
          parse_lines nrows (S li) rest
            (<[li:=vals ++ drop (S li) old]> M) (seq_names ++ [n]) del_idxs
        else
          match vals with
          | [v] =>
              parse_lines nrows (S li) rest
                (<[li:=replicate (S li) v ++ drop (S li) old]> M)
                (seq_names ++ [n]) del_idxs
          | _ => Err ValueError
          end
  end.

(** The last three statements of [parse]: [M = 1 - M] and
    [M = nodiag(M + M.T)/2]. *)
Definition mmap (f : Q -> Q) (M : matrix) : matrix := fmap (M:=list) f <$> M.

Definition symmetrize (M : matrix) : matrix :=
  let M' := mmap (fun x => (1 - x)%Q) M in
  mmap (fun x => (x / 2)%Q) (nodiag (madd M' (transpose M'))).

(** The stored values that are left when the rows and columns of the
    repeated identifiers are deleted. *)
Definition drop_repeated (del_idxs : list nat) (M : matrix) : matrix :=
  np_delete del_idxs <$> np_delete del_idxs M.

(** [parse(mtx)] on a file whose first line reads [nrows] and whose other
    lines are [lines]. *)
Definition parse (nrows : nat) (lines : list (string * list Q))
  : result (matrix * list string) :=
  match parse_lines nrows 0 lines (replicate nrows (replicate nrows 0%Q)) [] [] with
  | Err e => Err e
  | Ok (M, seq_names, del_idxs) =>
      if decide (Forall (fun d => d < nrows) del_idxs) then
        Ok (symmetrize (drop_repeated del_idxs M), seq_names)
      else Err IndexError
  end.

(** The identifiers of a list without their repetitions, each at the place
    of its first occurrence. *)
Fixpoint first_occurrences (l : list string) : list string :=
  match l with
  | [] => []
  | x :: l' => x :: filter (fun y => y <> x) (first_occurrences l')
  end.

(** ** JSON: [to_json], [from_dict], [write_json], [from_json] *)

(** What [json.dumps] writes and [json.load] reads back.  A [JDict] lists
    the items of a Python dict in insertion order; the text between the
    two library calls is not modelled. *)
Inductive json : Type :=
  | JNull
  | JNum (x : Q)
  | JStr (s : string)
  | JList (l : list json)
  | JDict (items : list (string * json)).

(** A Python dict as the list of its items in insertion order:
    [d.get(k)] and [d[k] = v]. *)
Fixpoint dict_get {K V} `{EqDecision K} (d : list (K * V)) (k : K) : option V :=
  match d with
  | [] => None
  | (k', v) :: d' => if decide (k = k') then Some v else dict_get d' k
  end.

Fixpoint dict_set {K V} `{EqDecision K} (k : K) (v : V) (d : list (K * V))
  : list (K * V) :=
  match d with
  | [] => [(k, v)]
  | (k', v') :: d' =>
      if decide (k = k') then (k, v) :: d' else (k', v') :: dict_set k v d'
  end.

(** [d[k]] *)
Definition item {V} (d : list (string * V)) (k : string) : result V :=
  match dict_get d k with
  | Some v => Ok v
  | None => Err KeyError
  end.

Section JSON.

(** [Graph.to_dict] and [Graph.from_dict] belong to the class [Graph] that
    is not part of the sources at hand. *)
Context {G : Type}.
Variable Graph_to_dict : G -> json.
Variable Graph_from_dict : json -> G.

(** [Node.to_json] *)
Fixpoint to_json (n : Node G) : json :=
  match n with
  | mkNode x d cs p g =>
      JDict [("name", JStr x);
             ("dist", match d with Some y => JNum y | None => JNull end);
             ("children", JList (to_json <$> cs));
             ("fapath", JStr p);
             ("graph", match g with Some g' => Graph_to_dict g' | None => JNull end)]
  end.

(** [Node.from_dict].  The recursion goes through [d['children']]; a value
    of another JSON type than [to_json] writes for a key is reported as
    [TypeError]. *)
Fixpoint from_dict (d : json) : result (Node G) :=
  match d with
  | JDict items =>
      let fix children_of (kvs : list (string * json)) : result (list (Node G)) :=
        match kvs with
        | [] => Err KeyError
        | (k, v) :: kvs' =>
            if decide ("children" = k) then
              match v with
              | JList cs =>
                  (fix each (cs : list json) : result (list (Node G)) :=
                     match cs with
                     | [] => Ok []
                     | c :: cs' =>
                         n ← from_dict c; ns ← each cs'; Ok (n :: ns)
                     end) cs
              | _ => Err TypeError
              end
            else children_of kvs'
        end in
      x ← item items "name";
      y ← item items "dist";
      x' ← match x with JStr x' => Ok x' | _ => Err TypeError end;
      y' ← match y with
           | JNum y' => Ok (Some y')
           | JNull => Ok None
           | _ => Err TypeError
           end;
      cs ← children_of items;
      p ← item items "fapath";
      p' ← match p with JStr p' => Ok p' | _ => Err TypeError end;
      g ← item items "graph";
      Ok (mkNode x' y' cs p'
            match g with JNull => None | _ => Some (Graph_from_dict g) end)
  | _ => Err TypeError
  end.

(** [{k.name: str(v) for k, v in self.seqs.items()}]; a key of [seqs] is
    the position of a leaf in [L]. *)
Fixpoint seqs_by_name (L : list (Node G)) (sq : list (nat * string))
    (acc : list (string * string)) : result (list (string * string)) :=
  match sq with
  | [] => Ok acc
  | (k, v) :: sq' =>
      n ← index L k;
      seqs_by_name L sq' (dict_set (name n) v acc)
  end.

Definition name_seqs (T : Tree) : result (list (string * string)) :=
  match seqs T with
  | None => Err AttributeError
  | Some sq => seqs_by_name (leaves_of (root T)) sq []
  end.

(** [Tree.write_json]: the value handed to [json.dumps]. *)
Definition write_json (T : Tree) : result json :=
  ns ← name_seqs T;
  Ok (JDict [("tree", to_json (root T));
             ("seqs", JDict ((fun kv : string * string => (kv.1, JStr kv.2)) <$> ns))]).

(** [{n.name: n for n in T.get_leafs()}]; [i] is the position of the head
    of [L]. *)
Fixpoint leafs_dict (i : nat) (L : list (Node G)) (acc : list (string * nat))
  : list (string * nat) :=
  match L with
  | [] => acc
  | n :: L' => leafs_dict (S i) L' (dict_set (name n) i acc)
  end.

(** [{leafs[k]: Seq(v) for k, v in data['seqs'].items()}] *)
Fixpoint seqs_by_leaf (leafs : list (string * nat)) (items : list (string * json))
    (acc : list (nat * string)) : result (list (nat * string)) :=
  match items with
  | [] => Ok acc
  | (k, v) :: items' =>
      n ← item leafs k;
      v' ← match v with JStr v' => Ok v' | _ => Err TypeError end;
      seqs_by_leaf leafs items' (dict_set n v' acc)
  end.

(** [Tree.from_json] on the value that [json.load] returns. *)
Definition from_json (data : json) : result Tree :=
  match data with
  | JDict items =>
      t ← item items "tree";
      r ← from_dict t;
      let L := leaves_of r in
      let leafs := leafs_dict 0 L [] in
      s ← item items "seqs";
      match s with
      | JDict sitems =>
          sq ← seqs_by_leaf leafs sitems [];
          Ok (mkTree r (Some sq) (Some L))
      | _ => Err AttributeError
      end
  | _ => Err TypeError
  end.

(** The node with the graph of every node read back from its dict. *)
Definition reread (g : option G) : option G :=
  match g with
  | Some g' =>
      match Graph_to_dict g' with
      | JNull => None
      | d => Some (Graph_from_dict d)
      end
  | None => None
  end.

Fixpoint reread_node (n : Node G) : Node G :=
  match n with
  | mkNode x d cs p g => mkNode x d (reread_node <$> cs) p (reread g)
  end.

End JSON.

(** The position that the dict [leafs] holds for a name. *)
Definition position (leafs : list (string * nat)) (nm : string) : nat :=
  default 0 (dict_get leafs nm).

(** The items of the ['seqs'] dict as JSON, and the sequences keyed by the
    positions of the leaves again. *)
Definition seqs_items (W : list (string * string)) : list (string * json) :=
  (fun kv => (kv.1, JStr kv.2)) <$> W.

Definition by_position (leafs : list (string * nat)) (W : list (string * string))
  : list (nat * string) :=
  (fun kv => (position leafs kv.1, kv.2)) <$> W.

(** The tree without its graphs: names, branch lengths, children in their
    order, and paths. *)
Fixpoint shape {G : Type} (n : Node G) : Node unit :=
  match n with
  | mkNode x d cs p _ => mkNode x d (shape <$> cs) p None
  end.

(** ** Inputs used by the examples *)

(** A symmetric, zero-diagonal matrix in which [D[1,2] > D[0,1] + D[0,2]]. *)
Definition far12 : matrix := [[0; 1; 1]; [1; 0; 5]; [1; 5; 0]]%Q.

(** A symmetric, zero-diagonal matrix in which [D[0,1] > D[0,2] + D[1,2]]. *)
Definition far01 : matrix := [[0; 5; 1]; [5; 0; 1]; [1; 1; 0]]%Q.

Definition abc : list string := ["A"; "B"; "C"]%string.

(** A symmetric, zero-diagonal matrix of non-negative entries whose first
    join leaves a negative distance between the first two rows. *)
Definition four : matrix :=
  [[0; 5; 3; 5]; [5; 0; 1; 3]; [3; 1; 0; 1]; [5; 3; 1; 0]]%Q.

Definition abcd : list string := ["A"; "B"; "C"; "D"]%string.

(** ** The Q-criterion in the words of the specification *)

(** [Q[i,j] = (n-2)*D[i,j] - (rowSum(D,i) + colSum(D,j))], to be compared
    with what [q] computes. *)
Definition Qcrit (D : matrix) (i j : nat) : Q :=
  (inject_Z (Z.of_nat (length D) - 2) * mget D i j
   - (Qsum (row D i) + Qsum (column D j)))%Q.

(** ** Notions used in the statements *)

(** [M] is an n-by-n matrix whose entry at [(i, j)] is [f i j]. *)
Definition entries (n : nat) (M : matrix) (f : nat -> nat -> Q) : Prop :=
  square n M /\ forall i j, i < n -> j < n -> mget M i j = f i j.

(** What a scan has established when it holds [b] as the best position of
    the part [pre] read so far: nothing read is smaller, and everything
    before [b] is strictly greater. *)
Definition first_min (l : list qext) (b : nat) (bv : qext) : Prop :=
  l !! b = Some bv /\
  (forall m y, l !! m = Some y -> qext_ltb y bv = false) /\
  (forall m y, m < b -> l !! m = Some y -> qext_ltb bv y = true).

(** The matrix that [join] returns when it joins rows [i] and [j]. *)
Definition reduced (D : matrix) (i j : nat) : matrix :=
  let dnew := zip_with (fun a b => ((1 # 2) * (a + b - mget D i j))%Q)
                       (row D i) (row D j) in
  delete_col j (delete_row j
    (set_entry i i 0%Q (set_col i dnew (set_row i dnew D)))).

(** The row or column of the matrix before a deletion of [j] that is at
    position [a] after it. *)
Definition skip (j a : nat) : nat := if decide (a < j) then a else S a.

(** The names of the leaves under a list of nodes, in the order of a
    postorder walk. *)
Definition leaf_names {G : Type} (ch : list (Node G)) : list string :=
  ch ≫= (fun c => name <$> leaves_of c).

(** The node that [join] builds over the children [ci] and [cj]. *)
Definition joined {G : Type} (D : matrix) (i j : nat) (idx : nat) (ci cj : Node G) : Node G :=
  mkNode (node_name idx) None
    [new_parent ci (correct (rawdists D i j)).1;
     new_parent cj (correct (rawdists D i j)).2] "" None.

(** The states in which the guard of the [while] loop of [Tree.nj] is
    evaluated, in a run that enters the loop with [mtx0], [ch0], [idx0]. *)
Inductive loop_entry {G : Type} (mtx0 : matrix) (ch0 : list (Node G)) (idx0 : nat)
  : matrix -> list (Node G) -> nat -> Prop :=
  | entry_first : loop_entry mtx0 ch0 idx0 mtx0 ch0 idx0
  | entry_next mtx ch idx mtx' ch' idx' :
      loop_entry mtx0 ch0 idx0 mtx ch idx ->
      2 < length mtx ->
      join mtx ch idx = Ok (mtx', ch', idx') ->
      loop_entry mtx0 ch0 idx0 mtx' ch' idx'.

(** Two calls of [Tree.nj] in one interpreter that starts with the default
    list empty: the second call finds the list as the first one left it. *)
Definition nj_twice {G : Type} (mtx : matrix) (names : list string)
  : option (result (Tree * Tree * list (Node G))) :=
  match nj [] mtx names with
  | Some (Ok (T1, s1)) =>
      match nj s1 mtx names with
      | Some (Ok (T2, s2)) => Some (Ok (T1, T2, s2))
      | Some (Err e) => Some (Err e)
      | None => None
      end
  | Some (Err e) => Some (Err e)
  | None => None
  end.

(** Five taxa at tree-like distances. *)
Definition five : matrix :=
  [[0; 5; 9; 9; 8]; [5; 0; 10; 10; 9]; [9; 10; 0; 8; 7];
   [9; 10; 8; 0; 3]; [8; 9; 7; 3; 0]]%Q.

Definition abcde : list string := ["a"; "b"; "c"; "d"; "e"]%string.

(** A table of four lines in which the third line repeats the identifier
    of the first. *)
Definition table4 : list (string * list Q) :=
  [("fa/s1.fa", [1]); ("fa/s2.fa", [3 # 10; 1]);
   ("other/s1.fa", [1; 3 # 10; 1]); ("fa/s3.fa", [5 # 10; 6 # 10; 1; 1])]%Q%string.

(** The identifiers that [parse] derives from the lines of a table. *)
Definition derived (lines : list (string * list Q)) : list string :=
  (fun l => derived_name l.1) <$> lines.

(** A tree of three leaves with sequences attached to all of them; a graph
    is a number, written to JSON as such. *)
Definition num_to_dict (g : nat) : json := JDict [("n", JNum (inject_Z (Z.of_nat g)))].
Definition num_from_dict (d : json) : nat :=
  match d with
  | JDict [(_, JNum x)] => Z.to_nat (Qnum x)
  | _ => 0
  end.

Definition tree3 : Tree (G:=nat) :=
  mkTree
    (mkNode "ROOT" (Some 0%Q)
       [mkNode "NODE_00000" (Some (5 # 4)%Q)
          [mkNode "A" (Some 0%Q) [] "tmp/A" (Some 1);
           mkNode "B" (Some (4 # 1)%Q) [] "tmp/B" (Some 2)] "tmp/NODE_00000" (Some 3);
        mkNode "C" (Some (5 # 4)%Q) [] "tmp/C" None] "" None)
    (Some [(2, "GATTACA"); (0, "ACGT"); (1, "TTGA")])
    None.

(** * Further functions of [tree.py] *)

(** ** Branch lengths and node counts of a forest *)

(** The nodes under [c], without [c] itself, in postorder. *)
Definition below {G : Type} (c : Node G) : list (Node G) :=
  concat (postorder <$> children c).

(** [n] has a branch length, and it is not negative. *)
Definition has_length {G : Type} (n : Node G) : Prop :=
  exists d, dist n = Some d /\ (0 <= d)%Q.

(** A node has no child or two. *)
Definition binary_node {G : Type} (n : Node G) : Prop :=
  length (children n) = 0 \/ length (children n) = 2.

(** All nodes under a list of nodes, each tree in postorder. *)
Definition forest_nodes {G : Type} (ch : list (Node G)) : list (Node G) :=
  ch ≫= postorder.

(** ** [to_list] *)

(** [to_list(dmtx)]: row [n] of the result is [list(dmtx[n, :(n+1)])].
    The shape of an array is its number of rows and the length of its
    rows. *)
Definition to_list (dmtx : matrix) : result (list (list Q)) :=
  if decide (length dmtx = ncols dmtx) then
    Ok (imap (fun n r => take (S n) r) dmtx)
  else Err AssertionError.

(** ** Newick output: [Node.to_nwk], [Tree.write_nwk] *)

Section NWK.
Context {G : Type}.

(** [f"{x:.6f}"] on a float; the decimal expansion is not modelled. *)
Variable fmt6 : Q -> string.

(** [Node.to_nwk(wtr)].  The writer is the list of the strings handed to
    [wtr.write] so far; the function returns the writer as the call leaves
    it and whether the call raised.  [f"{self.dist:.6f}"] raises
    [TypeError] on [None]. *)
Fixpoint to_nwk (n : Node G) (wtr : list string) : list string * result unit :=
  match n with
  | mkNode x d cs _ _ =>
      let finish (w : list string) : list string * result unit :=
        match d with
        | Some y => (w ++ [x; ":"; fmt6 y], Ok ())
        | None => (w ++ [x; ":"], Err TypeError)
        end in
      match cs with
      | [] => finish wtr
      | _ =>
          let fix each (i : nat) (l : list (Node G)) (w : list string)
            : list string * result unit :=
            match l with
            | [] => (w, Ok ())
            | c :: l' =>
                match to_nwk c (if decide (0 < i) then w ++ [","] else w) with
                | (w', Ok _) => each (S i) l' w'
                | (w', Err e) => (w', Err e)
                end
            end in
          match each 0 cs (wtr ++ ["("]) with
          | (w, Ok _) => finish (w ++ [")"])
          | (w, Err e) => (w, Err e)
          end
      end
  end.

(** [Tree.write_nwk(wtr)] *)
Definition write_nwk (T : Tree) (wtr : list string) : list string * result unit :=
  match to_nwk (root T) wtr with
  | (w, Ok _) => (w ++ [";"], Ok ())
  | (w, Err e) => (w, Err e)
  end.

(** The loop over the children in [to_nwk], from child number [i]. *)
Fixpoint nwk_children (i : nat) (l : list (Node G)) (w : list string)
  : list string * result unit :=
  match l with
  | [] => (w, Ok ())
  | c :: l' =>
      match to_nwk c (if decide (0 < i) then w ++ [","] else w) with
      | (w', Ok _) => nwk_children (S i) l' w'
      | (w', Err e) => (w', Err e)
      end
  end.

End NWK.

(** What a call writes and raises: nothing but [TypeError], and that when
    a node has no branch length. *)
Definition nwk_outcome {G : Type} (l : list (Node G)) (r : list string * result unit) : Prop :=
  (Forall (fun m => dist m <> None) l /\ r.2 = Ok ()) \/
  (~ Forall (fun m => dist m <> None) l /\ r.2 = Err TypeError).

(** ** The leaves of a tree and their sequences *)

Section ATTACH.
Context {G : Type}.

(** [Tree.get_leafs()] and [Tree.num_leafs()]: the value returned, and the
    tree with its cache [leaves] as the call leaves it. *)
Definition get_leafs (T : Tree) : list (Node G) * Tree :=
  match leaves T with
  | Some L => (L, T)
  | None =>
      let L := leaves_of (root T) in
      (L, mkTree (root T) (seqs T) (Some L))
  end.

Definition num_leafs (T : Tree) : nat * Tree :=
  let '(L, T') := get_leafs T in (length L, T').

(** [{leafs[name]: seq for name, seq in seqs.items()}] *)
Fixpoint attach_items (leafs : list (string * nat)) (items : list (string * string))
    (acc : list (nat * string)) : result (list (nat * string)) :=
  match items with
  | [] => Ok acc
  | (nm, sq) :: items' =>
      n ← item leafs nm;
      attach_items leafs items' (dict_set n sq acc)
  end.

(** [Tree.attach(seqs)]: the tree as the call leaves it, and whether the
    call raised. *)
Definition attach (T : Tree) (sqs : list (string * string)) : Tree * result unit :=
  let '(L, T1) := get_leafs T in
  match attach_items (leafs_dict 0 L []) sqs [] with
  | Ok sq => (mkTree (root T1) (Some sq) (leaves T1), Ok ())
  | Err e => (T1, Err e)
  end.

(** The cache [leaves] of a tree is unset or holds the leaves under its
    root. *)
Definition cache_ok (T : @Tree G) : Prop :=
  leaves T = None \/ leaves T = Some (leaves_of (root T)).

End ATTACH.

(** ** Lines of a table *)

(** A line that holds one value where its line number asks for more, with
    the one value repeated. *)
Definition spread (k : nat) (line : string * list Q) : string * list Q :=
  match line.2 with
  | [v] => (line.1, replicate (S k) v)
  | _ => line
  end.


(** ** The array that [Tree.nj] is given *)

(** [D[i, :] = dnew; D[:, i] = dnew; D[i, i] = 0] in [join], with [dnew]
    as [pairdists] returns it for the pair [(i, j)]. *)
Definition overwritten (D : matrix) (i j : nat) : matrix :=
  let dnew := zip_with (fun a b => ((1 # 2) * (a + b - mget D i j))%Q)
                       (row D i) (row D j) in
  set_entry i i 0%Q (set_col i dnew (set_row i dnew D)).

(** The content of the array of the caller when [Tree.nj] returns or
    raises.  In the first call of [join] the parameter [D] is the array
    that the caller passed, and the three item assignments write into it;
    [np.delete] returns a new array, so that the later calls work on
    arrays of their own.  A call of [join] that raises does so before the
    assignments. *)
Definition argument_after {G : Type} (s : list (Node G)) (mtx : matrix)
    (names : list string) : matrix :=
  if decide (NoDup names) then
    if decide (2 < length mtx) then
      match minpair (q mtx), join mtx (s ++ (leaf <$> names)) 0 with
      | Ok (i, j, _), Ok _ => overwritten mtx i j
      | _, _ => mtx
      end
    else mtx
  else mtx.

(** ** Leaves that [check] stumbles over *)

(** The leaf [(nm, sq)] is a member of [g] whose sequence [g] gives back
    longer than it is, with a block of 100 characters that differs. *)
Definition overlong {G : Type} (members : G -> list string)
    (extract : G -> string -> string) (g : G) (nm sq : string) : Prop :=
  nm ∈ members g /\
  differing_block (upper sq) (extract g nm) = true /\
  String.length (upper sq) < String.length (extract g nm).

(** [n * c] in Python: the character [c] repeated. *)
Fixpoint copies (n : nat) (c : ascii) : string :=
  match n with
  | 0 => EmptyString
  | S n' => String c (copies n' c)
  end.

(** * The selection of the pair in machine arithmetic *)

(** [q] and [minpair] once more, over the arithmetic of the machine
    instead of exact rationals: which pair a join selects depends on how
    the sums, the products and the differences of [q] are rounded. *)
Module Machine.

(** The operations that [q] and [minpair] use on the entries of an array.
    [sum_axis0] and [sum_axis1] are [np.sum] along a column (read from top
    to bottom) and along a row; in which order numpy adds the entries is
    its own business, and no property below depends on it.  [of_int] is
    the float that a Python [int] becomes in [(n-2)*D], [inf] is
    [np.inf], and [ltb] is [<]. *)
Class Arith (F : Type) : Type := {
  add : F -> F -> F;
  sub : F -> F -> F;
  mul : F -> F -> F;
  sum_axis0 : list F -> F;
  sum_axis1 : list F -> F;
  of_int : Z -> F;
  inf : F;
  ltb : F -> F -> bool
}.

Section ARITH.
Context {F : Type} `{Arith F}.

(** [D[:, j]] *)
Definition column (D : list (list F)) (j : nat) : list F :=
  omap (fun r => r !! j) D.

(** [q(D)]: [(n-2)*D - (np.sum(D,axis=0,keepdims=True) +
    np.sum(D,axis=1,keepdims=True))], then [np.fill_diagonal(Q, np.inf)].
    The two sums broadcast to [colsum[j] + rowsum[i]] at [(i, j)]. *)
Definition q (D : list (list F)) : list (list F) :=
  let n := length D in
  imap (fun i r =>
    imap (fun j x =>
      if decide (i = j) then inf
      else sub (mul (of_int (Z.of_nat n - 2)) x)
               (add (sum_axis0 (column D j)) (sum_axis1 r))) r) D.

(** [np.argmin] on the flattened array: the first position of the least
    value. *)
Fixpoint argmin_from (best : nat) (bv : F) (k : nat) (l : list F) : nat :=
  match l with
  | [] => best
  | x :: l' =>
      if ltb x bv then argmin_from k x (S k) l'
      else argmin_from best bv (S k) l'
  end.

Definition argmin (l : list F) : result nat :=
  match l with
  | [] => Err ValueError
  | x :: l' => Ok (argmin_from 0 x 1 l')
  end.

(** [minpair(q)]: [np.unravel_index(np.argmin(q), q.shape)], the value
    there, and the two indices put in increasing order. *)
Definition minpair (Qm : list (list F)) : result (nat * nat * F) :=
  k ← argmin (concat Qm);
  let c := length (default [] (Qm !! 0)) in
  let i := k / c in
  let j := k mod c in
  r ← index Qm i;
  qmin ← index r j;
  if decide (j < i) then Ok (j, i, qmin) else Ok (i, j, qmin).




(** What a scan has established when it holds [b] as the best position of
    the part read so far. *)
Definition first_min (l : list F) (b : nat) (bv : F) : Prop :=
  l !! b = Some bv /\
  (forall m y, l !! m = Some y -> ltb y bv = false) /\
  (forall m y, m < b -> l !! m = Some y -> ltb bv y = true).

End ARITH.

(** IEEE 754 binary64, the [float64] of numpy, with sums taken from left
    to right. *)
Definition float_of_Z (z : Z) : float :=
  match z with
  | Z0 => 0%float
  | Zpos _ => PrimFloat.of_uint63 (Uint63.of_Z z)
  | Zneg p => PrimFloat.opp (PrimFloat.of_uint63 (Uint63.of_Z (Zpos p)))
  end.

#[global] Instance binary64 : Arith float := {|
  add := PrimFloat.add;
  sub := PrimFloat.sub;
  mul := PrimFloat.mul;
  sum_axis0 := fun l => fold_left PrimFloat.add l 0%float;
  sum_axis1 := fun l => fold_left PrimFloat.add l 0%float;
  of_int := float_of_Z;
  inf := PrimFloat.infinity;
  ltb := PrimFloat.ltb
|}.

End Machine.


(** * Properties *)

(** ** Comparisons *)

Lemma Qltb_lt (x y : Q) : Qltb x y = true <-> (x < y)%Q.
Proof.
  unfold Qltb. rewrite negb_true_iff, <- not_true_iff_false, Qle_bool_iff.
  split; [apply Qnot_le_lt | apply Qlt_not_le].
Qed.

Lemma Qltb_ge (x y : Q) : Qltb x y = false <-> (y <= x)%Q.
Proof.
  unfold Qltb. rewrite negb_false_iff. apply Qle_bool_iff.
Qed.

(** ** The order on [qext] *)

Lemma qext_ltb_irrefl (a : qext) : qext_ltb a a = false.
Proof. destruct a; simpl; [|reflexivity]. apply Qltb_ge. lra. Qed.

Lemma qext_ltb_le_trans (a b c : qext) :
  qext_ltb a b = true -> qext_ltb c b = false -> qext_ltb a c = true.
Proof.
  destruct a as [x|], b as [y|], c as [z|]; simpl; try congruence;
    rewrite ?Qltb_lt, ?Qltb_ge; intros; try lra.
Qed.

Lemma qext_ltb_asym (a b : qext) :
  qext_ltb a b = true -> qext_ltb b a = false.
Proof.
  destruct a as [x|], b as [y|]; simpl; try congruence;
    rewrite ?Qltb_lt, ?Qltb_ge; intros; try lra.
Qed.

(** ** Indexing a matrix and its flattening *)

Lemma lookup_concat_rect {A} (M : list (list A)) (c i j : nat) :
  Forall (fun r => length r = c) M -> j < c ->
  concat M !! (i * c + j) = M !! i ≫= (.!! j).
Proof.
  intros HM Hj. revert i.
  induction HM as [|r M Hr HM IH]; intros i; [reflexivity|].
  destruct i as [|i]; simpl.
  - rewrite lookup_app_l by lia. reflexivity.
  - rewrite lookup_app_r by lia.
    replace (c + i * c + j - length r) with (i * c + j) by lia. apply IH.
Qed.

Lemma length_concat_rect {A} (M : list (list A)) (c : nat) :
  Forall (fun r => length r = c) M -> length (concat M) = length M * c.
Proof.
  induction 1 as [|r M Hr HM IH]; simpl; [reflexivity|].
  rewrite length_app, IH, Hr. reflexivity.
Qed.

Lemma square_row (n : nat) (D : matrix) (i : nat) :
  square n D -> i < n -> D !! i = Some (row D i) /\ length (row D i) = n.
Proof.
  intros [HL HR] Hi. unfold row.
  destruct (lookup_lt_is_Some_2 D i) as [r Hr]; [lia|].
  rewrite Hr; simpl. split; [reflexivity|].
  rewrite Forall_lookup in HR. eapply HR, Hr.
Qed.

Lemma square_entry (n : nat) (D : matrix) (i j : nat) :
  square n D -> i < n -> j < n -> row D i !! j = Some (mget D i j).
Proof.
  intros HD Hi Hj. destruct (square_row n D i HD Hi) as [_ HL].
  unfold mget, qnth.
  destruct (lookup_lt_is_Some_2 (row D i) j) as [x Hx]; [lia|].
  rewrite Hx. reflexivity.
Qed.

Lemma square_ncols (n : nat) (D : matrix) : square n D -> 0 < n -> ncols D = n.
Proof. intros HD Hn. unfold ncols. apply (square_row n D 0 HD Hn). Qed.

Lemma sum_axis1_nth (D : matrix) (i : nat) :
  qnth (sum_axis1 D) i = Qsum (row D i).
Proof.
  unfold qnth, sum_axis1, row. rewrite list_lookup_fmap.
  destruct (D !! i); reflexivity.
Qed.

Lemma sum_axis0_nth (D : matrix) (j : nat) :
  j < ncols D -> qnth (sum_axis0 D) j = Qsum (column D j).
Proof.
  intros Hj. unfold qnth, sum_axis0.
  rewrite list_lookup_fmap, lookup_seq_lt by assumption. reflexivity.
Qed.

(** ** Matrices by their entries *)

Lemma entries_self (n : nat) (M : matrix) : square n M -> entries n M (mget M).
Proof. intros H. split; [assumption|reflexivity]. Qed.

Lemma mget_out_of_range (n : nat) (M : matrix) (i j : nat) :
  square n M -> n <= i \/ n <= j -> mget M i j = 0%Q.
Proof.
  intros [HL HR] H. unfold mget, row, qnth.
  destruct (M !! i) as [r|] eqn:Hi; simpl; [|reflexivity].
  destruct H as [H|H].
  - apply lookup_lt_Some in Hi. lia.
  - rewrite Forall_lookup in HR. specialize (HR _ _ Hi).
    rewrite lookup_ge_None_2; [reflexivity|lia].
Qed.

Lemma symmetric_bounded (n : nat) (M : matrix) :
  square n M ->
  (forall i j, i < n -> j < n -> (mget M i j == mget M j i)%Q) -> symmetric M.
Proof.
  intros HM H i j.
  destruct (decide (i < n)); [destruct (decide (j < n))|]; [auto| |].
  - rewrite (mget_out_of_range n M i j), (mget_out_of_range n M j i) by (assumption || lia).
    reflexivity.
  - rewrite (mget_out_of_range n M i j), (mget_out_of_range n M j i) by (assumption || lia).
    reflexivity.
Qed.

Lemma entries_mmap (n : nat) (M : matrix) (f : nat -> nat -> Q) (g : Q -> Q) :
  entries n M f -> entries n (mmap g M) (fun i j => g (f i j)).
Proof.
  intros [[HL HR] HE]. unfold mmap. split; [split|].
  - rewrite length_fmap. assumption.
  - rewrite Forall_fmap. eapply Forall_impl; [exact HR|].
    intros r Hr. simpl in *. rewrite length_fmap. assumption.
  - intros i j Hi Hj. rewrite <- (HE i j Hi Hj).
    destruct (square_row n M i (conj HL HR) Hi) as [Hr _].
    pose proof (square_entry n M i j (conj HL HR) Hi Hj) as He.
    unfold mget at 1, row at 1, qnth at 1.
    rewrite list_lookup_fmap, Hr. simpl. rewrite list_lookup_fmap, He. reflexivity.
Qed.

Lemma entries_transpose (n : nat) (M : matrix) (f : nat -> nat -> Q) :
  entries n M f -> entries n (transpose M) (fun i j => f j i).
Proof.
  intros [HM HE]. unfold transpose.
  destruct (decide (n = 0)) as [->|Hn].
  { destruct HM as [HL _]. destruct M; [|discriminate].
    split; [split; [reflexivity|constructor]|intros; lia]. }
  rewrite (square_ncols n M HM) by lia. split; [split|].
  - rewrite length_fmap, length_seq. reflexivity.
  - rewrite Forall_fmap, Forall_forall. intros k _. simpl.
    unfold column. rewrite length_fmap. apply HM.
  - intros i j Hi Hj. rewrite <- (HE j i Hj Hi).
    unfold mget at 1, row at 1, qnth at 1.
    rewrite list_lookup_fmap, lookup_seq_lt by assumption. simpl.
    unfold column. rewrite list_lookup_fmap.
    destruct (square_row n M j HM Hj) as [Hr _]. rewrite Hr. reflexivity.
Qed.

Lemma entries_madd (n : nat) (A B : matrix) (f g : nat -> nat -> Q) :
  entries n A f -> entries n B g ->
  entries n (madd A B) (fun i j => (f i j + g i j)%Q).
Proof.
  intros [HA EA] [HB EB]. unfold madd. split; [split|].
  - rewrite length_zip_with. destruct HA as [-> _], HB as [-> _]. lia.
  - rewrite Forall_lookup. intros i r Hr.
    apply lookup_zip_with_Some in Hr as (ra & rb & -> & Ha & Hb).
    rewrite length_zip_with.
    destruct HA as [_ HA], HB as [_ HB]. rewrite Forall_lookup in HA, HB.
    rewrite (HA _ _ Ha), (HB _ _ Hb). lia.
  - intros i j Hi Hj. rewrite <- (EA i j Hi Hj), <- (EB i j Hi Hj).
    destruct (square_row n A i HA Hi) as [Hra _].
    destruct (square_row n B i HB Hi) as [Hrb _].
    pose proof (square_entry n A i j HA Hi Hj) as Hea.
    pose proof (square_entry n B i j HB Hi Hj) as Heb.
    unfold mget at 1, row at 1, qnth at 1.
    rewrite lookup_zip_with, Hra, Hrb. simpl.
    rewrite lookup_zip_with, Hea, Heb. reflexivity.
Qed.

Lemma entries_nodiag (n : nat) (M : matrix) (f : nat -> nat -> Q) :
  entries n M f ->
  entries n (nodiag M)
    (fun i j => (f i j - (if decide (i = j) then f i i else 0))%Q).
Proof.
  intros [HM HE]. unfold nodiag. split; [split|].
  - rewrite length_imap. apply HM.
  - rewrite Forall_lookup. intros i r. rewrite list_lookup_imap.
    destruct (M !! i) as [r0|] eqn:Hi; [|discriminate]. simpl. intros [= <-].
    rewrite length_imap. destruct HM as [_ HR]. rewrite Forall_lookup in HR.
    eapply HR, Hi.
  - intros i j Hi Hj. rewrite <- (HE i j Hi Hj), <- (HE i i Hi Hi).
    destruct (square_row n M i HM Hi) as [Hr _].
    pose proof (square_entry n M i j HM Hi Hj) as He.
    unfold mget at 1, row at 1, qnth at 1.
    rewrite list_lookup_imap, Hr. simpl. rewrite list_lookup_imap, He. reflexivity.
Qed.

(** [symmetrize] entry by entry. *)
Lemma entries_symmetrize (n : nat) (M : matrix) :
  square n M ->
  entries n (symmetrize M)
    (fun i j => (((1 - mget M i j) + (1 - mget M j i)
                  - (if decide (i = j)
                     then (1 - mget M i i) + (1 - mget M i i) else 0)) / 2)%Q).
Proof.
  intros HM. unfold symmetrize.
  pose proof (entries_mmap n M _ (fun x => (1 - x)%Q) (entries_self n M HM)) as H1.
  pose proof (entries_madd n _ _ _ _ H1 (entries_transpose n _ _ H1)) as H2.
  pose proof (entries_nodiag n _ _ H2) as H3.
  exact (entries_mmap n _ _ (fun x => (x / 2)%Q) H3).
Qed.

Lemma symmetrize_symmetric (n : nat) (M : matrix) :
  square n M ->
  square n (symmetrize M) /\ symmetric (symmetrize M) /\
  zero_diagonal (symmetrize M) /\
  forall i j, i < n -> j < n -> i <> j ->
    (mget (symmetrize M) i j == ((1 - mget M i j) + (1 - mget M j i)) / 2)%Q.
Proof.
  intros HM. destruct (entries_symmetrize n M HM) as [HS HE].
  split; [assumption|]. split; [|split].
  - apply (symmetric_bounded n); [assumption|]. intros i j Hi Hj.
    destruct (decide (i = j)) as [->|Hne]; [reflexivity|].
    rewrite (HE i j Hi Hj), (HE j i Hj Hi).
    destruct (decide (i = j)); [contradiction|].
    destruct (decide (j = i)); [congruence|]. field.
  - intros i Hi. rewrite (proj1 HS) in Hi. rewrite (HE i i Hi Hi).
    destruct (decide (i = i)); [|contradiction]. field.
  - intros i j Hi Hj Hne. rewrite (HE i j Hi Hj).
    destruct (decide (i = j)); [contradiction|]. field.
Qed.

(** ** [np.argmin] *)

Lemma argmin_from_first_min (l pre : list qext) (b : nat) (bv : qext) :
  first_min pre b bv ->
  exists rv, first_min (pre ++ l) (argmin_from b bv (length pre) l) rv.
Proof.
  revert pre b bv.
  induction l as [|x l IH]; intros pre b bv (Hb & Hle & Hlt); simpl.
  - exists bv. rewrite app_nil_r. repeat split; assumption.
  - assert (E : pre ++ x :: l = (pre ++ [x]) ++ l) by (rewrite <- app_assoc; reflexivity).
    assert (L : S (length pre) = length (pre ++ [x])) by (rewrite length_app; simpl; lia).
    rewrite E, L.
    destruct (qext_ltb x bv) eqn:Hx.
    + apply IH. repeat split.
      * rewrite lookup_app_r by lia. rewrite Nat.sub_diag. reflexivity.
      * intros m y Hm.
        destruct (decide (m < length pre)) as [Hlt'|Hge].
        -- rewrite lookup_app_l in Hm by assumption.
           apply qext_ltb_asym. eapply qext_ltb_le_trans; eauto.
        -- rewrite lookup_app_r in Hm by lia.
           destruct (m - length pre) as [|k]; simpl in Hm; [|destruct k; discriminate].
           injection Hm as <-. apply qext_ltb_irrefl.
      * intros m y Hm Hy. rewrite lookup_app_l in Hy by assumption.
        eapply qext_ltb_le_trans; eauto.
    + apply IH. repeat split.
      * rewrite lookup_app_l; [assumption|]. apply lookup_lt_Some in Hb. assumption.
      * intros m y Hm.
        destruct (decide (m < length pre)) as [Hlt'|Hge].
        -- rewrite lookup_app_l in Hm by assumption. eauto.
        -- rewrite lookup_app_r in Hm by lia.
           destruct (m - length pre) as [|k]; simpl in Hm; [|destruct k; discriminate].
           injection Hm as <-. assumption.
      * intros m y Hm Hy. apply lookup_lt_Some in Hb.
        rewrite lookup_app_l in Hy by lia. eauto.
Qed.

Lemma argmin_first_min (l : list qext) :
  l <> [] -> exists k rv, argmin l = Ok k /\ first_min l k rv.
Proof.
  destruct l as [|x l]; [congruence|]. intros _.
  destruct (argmin_from_first_min l [x] 0 x) as [rv H].
  - repeat split.
    + intros [|m] y Hm; simpl in Hm; [|discriminate].
      injection Hm as <-. apply qext_ltb_irrefl.
    + intros m y Hm. lia.
  - exists (argmin_from 0 x 1 l), rv. split; [reflexivity|exact H].
Qed.

(** ** What [q] computes *)

Lemma q_length (D : matrix) : length (q D) = length D.
Proof. unfold q. apply length_imap. Qed.

Lemma q_rows (n : nat) (D : matrix) :
  square n D -> Forall (fun r => length r = n) (q D).
Proof.
  intros [HL HR]. rewrite Forall_lookup. intros i r. unfold q.
  rewrite list_lookup_imap. destruct (D !! i) as [r0|] eqn:Hi; [|discriminate].
  simpl. intros [= <-]. rewrite length_imap.
  rewrite Forall_lookup in HR. eapply HR, Hi.
Qed.

Lemma q_lookup (n : nat) (D : matrix) (i j : nat) :
  square n D -> i < n -> j < n ->
  q D !! i ≫= (.!! j) =
  Some (if decide (i = j) then PInf
        else Fin (inject_Z (Z.of_nat n - 2) * mget D i j
                  - (Qsum (column D j) + Qsum (row D i)))%Q).
Proof.
  intros HD Hi Hj.
  destruct (square_row n D i HD Hi) as [Hr _].
  pose proof (square_entry n D i j HD Hi Hj) as He.
  unfold q. rewrite list_lookup_imap, Hr. simpl.
  rewrite list_lookup_imap, He. simpl.
  rewrite sum_axis1_nth, sum_axis0_nth by (rewrite (square_ncols n) by (assumption || lia); lia).
  destruct HD as [-> _]. reflexivity.
Qed.

Lemma q_as_specified (n : nat) (D : matrix) (i j : nat) :
  square n D -> i < n -> j < n -> i <> j ->
  exists x, q D !! i ≫= (.!! j) = Some (Fin x) /\ (x == Qcrit D i j)%Q.
Proof.
  intros HD Hi Hj Hne. rewrite (q_lookup n) by assumption.
  destruct (decide (i = j)); [contradiction|].
  eexists. split; [reflexivity|]. unfold Qcrit. destruct HD as [-> _]. ring.
Qed.

(** ** Symmetric matrices *)

Lemma Qsum_ext (l1 l2 : list Q) :
  length l1 = length l2 ->
  (forall k, qnth l1 k == qnth l2 k)%Q -> (Qsum l1 == Qsum l2)%Q.
Proof.
  revert l2. induction l1 as [|x l1 IH]; intros [|y l2] HL H; simpl in *;
    try discriminate; [reflexivity|].
  rewrite (IH l2); [|lia|intros k; apply (H (S k))].
  pose proof (H 0) as H0. unfold qnth in H0; simpl in H0. rewrite H0. reflexivity.
Qed.

Lemma column_row_sum (n : nat) (D : matrix) (j : nat) :
  square n D -> symmetric D -> j < n ->
  (Qsum (column D j) == Qsum (row D j))%Q.
Proof.
  intros HD HS Hj. apply Qsum_ext.
  - unfold column. rewrite length_fmap.
    destruct (square_row n D j HD Hj) as [_ ->]. apply HD.
  - intros k. unfold column, qnth at 1. rewrite list_lookup_fmap.
    fold (mget D j k). rewrite <- (HS k j). unfold mget, row.
    destruct (D !! k) as [r|]; simpl; [reflexivity|].
    unfold qnth; simpl. reflexivity.
Qed.

Lemma Qcrit_sym (n : nat) (D : matrix) (i j : nat) :
  square n D -> symmetric D -> i < n -> j < n ->
  (Qcrit D i j == Qcrit D j i)%Q.
Proof.
  intros HD HS Hi Hj. unfold Qcrit.
  rewrite (column_row_sum n D j HD HS Hj), (column_row_sum n D i HD HS Hi).
  rewrite (HS i j). ring.
Qed.

(** ** [minpair] on a Q-criterion matrix *)

(** [minpair (q D)] reads the first least entry of the row-major scan, at
    some off-diagonal [(i0, j0)], and returns the two indices in
    increasing order. *)
Lemma minpair_scan (n : nat) (D : matrix) :
  square n D -> 2 <= n ->
  exists i0 j0 x,
    i0 < n /\ j0 < n /\ i0 <> j0 /\
    q D !! i0 ≫= (.!! j0) = Some (Fin x) /\
    minpair (q D) = Ok (if decide (j0 < i0) then (j0, i0, Fin x)
                        else (i0, j0, Fin x)) /\
    (forall i' j' y, i' < n -> j' < n ->
       q D !! i' ≫= (.!! j') = Some y -> qext_ltb y (Fin x) = false) /\
    (forall i' j' y, i' < n -> j' < n -> i' * n + j' < i0 * n + j0 ->
       q D !! i' ≫= (.!! j') = Some y -> qext_ltb (Fin x) y = true).
Proof.
  intros HD Hn.
  pose proof (q_rows n D HD) as HR.
  pose proof (q_length D) as HL. rewrite (proj1 HD) in HL.
  pose proof (length_concat_rect (q D) n HR) as HC. rewrite HL in HC.
  destruct (argmin_first_min (concat (q D))) as (k & rv & Hk & Hb & Hle & Hlt).
  { intros E. rewrite E in HC. simpl in HC. nia. }
  assert (Hkn : k < n * n) by (rewrite <- HC; eapply lookup_lt_Some, Hb).
  assert (Hi0 : k / n < n) by (apply Nat.Div0.div_lt_upper_bound; lia).
  assert (Hj0 : k mod n < n) by (apply Nat.mod_upper_bound; lia).
  assert (Ek : k = k / n * n + k mod n) by (rewrite (Nat.div_mod_eq k n) at 1; lia).
  assert (Hcell : forall i' j', j' < n ->
            concat (q D) !! (i' * n + j') = q D !! i' ≫= (.!! j'))
    by (intros; apply lookup_concat_rect; assumption).
  assert (Hrv : q D !! (k / n) ≫= (.!! (k mod n)) = Some rv)
    by (rewrite <- Hcell, <- Ek; assumption).
  assert (Hfin : exists x, rv = Fin x).
  { destruct rv as [x|]; [eauto|].
    pose proof (q_lookup n D 0 1 HD ltac:(lia) ltac:(lia)) as H01.
    destruct (decide (0 = 1)); [lia|].
    rewrite <- (Hcell 0 1) in H01 by lia. apply Hle in H01. discriminate. }
  destruct Hfin as [x ->].
  assert (Hne : k / n <> k mod n).
  { intros E. rewrite (q_lookup n) in Hrv by assumption.
    destruct (decide (k / n = k mod n)); [discriminate|contradiction]. }
  exists (k / n), (k mod n), x.
  split; [assumption|]. split; [assumption|]. split; [assumption|].
  split; [assumption|]. split.
  - unfold minpair. rewrite Hk. cbn.
    assert (Hc : length (qext_row (q D) 0) = n).
    { unfold qext_row. destruct (lookup_lt_is_Some_2 (q D) 0) as [r0 Hr0]; [lia|].
      rewrite Hr0; simpl. rewrite Forall_lookup in HR. eapply HR, Hr0. }
    rewrite Hc. unfold index.
    destruct (q D !! (k / n)) as [r|]; [|discriminate]. cbn. cbn in Hrv.
    rewrite Hrv. cbn. destruct (decide (k mod n < k / n)); reflexivity.
  - split.
    + intros i' j' y Hi' Hj' Hy. rewrite <- Hcell in Hy by assumption. eauto.
    + intros i' j' y Hi' Hj' Hpos Hy. rewrite <- Hcell in Hy by assumption.
      apply (Hlt (i' * n + j')); [lia|assumption].
Qed.

Lemma minpair_ordered (n : nat) (D : matrix) :
  square n D -> 2 <= n ->
  exists i j x, minpair (q D) = Ok (i, j, Fin x) /\ i < j /\ j < n.
Proof.
  intros HD Hn.
  destruct (minpair_scan n D HD Hn) as (i0 & j0 & x & Hi & Hj & Hne & _ & Hm & _).
  destruct (decide (j0 < i0)).
  - exists j0, i0, x. split; [assumption|lia].
  - exists i0, j0, x. split; [assumption|lia].
Qed.

(** ** Branch lengths of a join *)

Arguments rawdists : simpl never.
Arguments correct : simpl never.

Lemma rawdists_total (D : matrix) (i j : nat) :
  ((rawdists D i j).1 + (rawdists D i j).2 == mget D i j)%Q.
Proof. unfold rawdists; simpl. ring. Qed.

Lemma correct_nonneg (d : Q * Q) :
  (0 <= (correct d).1)%Q /\ (0 <= (correct d).2)%Q.
Proof.
  destruct d as [d1 d2]. unfold correct.
  destruct (Qltb d1 0) eqn:H1.
  - apply Qltb_lt in H1.
    destruct (Qltb (d2 - d1) 0) eqn:H2; simpl.
    + apply Qltb_lt in H2. split; lra.
    + apply Qltb_ge in H2. split; lra.
  - apply Qltb_ge in H1.
    destruct (Qltb d2 0) eqn:H2; simpl.
    + apply Qltb_lt in H2. split; lra.
    + apply Qltb_ge in H2. split; lra.
Qed.

Lemma correct_id (d : Q * Q) :
  (0 <= d.1)%Q -> (0 <= d.2)%Q -> correct d = d.
Proof.
  destruct d as [d1 d2]; simpl; intros H1 H2. unfold correct.
  apply Qltb_ge in H1, H2. rewrite H1, H2. reflexivity.
Qed.

Lemma pairdists_Ok (D : matrix) (i j : nat) d1 d2 dnew :
  pairdists D i j = Ok (d1, d2, dnew) ->
  (d1, d2) = correct (rawdists D i j) /\
  dnew = zip_with (fun a b => ((1 # 2) * (a + b - mget D i j))%Q)
                  (row D i) (row D j).
Proof.
  unfold pairdists, index2, index, mget, qnth, row.
  destruct (D !! i) as [ri|] eqn:Hi; cbn; [|discriminate].
  destruct (ri !! j) as [x|] eqn:Hj; cbn; [|discriminate].
  destruct (decide _); [discriminate|].
  destruct (D !! j) as [rj|] eqn:Hj'; cbn; [|discriminate].
  destruct (correct _) as [e1 e2]. intros [= <- <- <-]. auto.
Qed.

Section BRANCH.
Context {G : Type}.

Lemma dist_new_parent (c : Node G) (d : Q) :
  (0 <= d)%Q -> exists d', dist (new_parent c d) = Some d' /\ (d' == d)%Q.
Proof.
  intros Hd. destruct c; simpl.
  destruct (Qltb 0 d) eqn:H; eexists; split; try reflexivity.
  apply Qltb_ge in H. lra.
Qed.

(** What does hold of the branch lengths of a join step, in exact
    arithmetic: they add up to [D[i,j]] before the negative-branch
    correction; after it both are [>= 0], they are what [new_parent] stores
    on the two children, and when neither was negative the correction
    changes nothing. *)
Lemma pairdists_branch_lengths (D : matrix) (i j : nat) (c1 c2 : Node G)
    d1 d2 dnew :
  pairdists D i j = Ok (d1, d2, dnew) ->
  ((rawdists D i j).1 + (rawdists D i j).2 == mget D i j)%Q /\
  (0 <= d1)%Q /\ (0 <= d2)%Q /\
  (exists e1 e2, dist (new_parent c1 d1) = Some e1 /\
                 dist (new_parent c2 d2) = Some e2 /\
                 (e1 == d1)%Q /\ (e2 == d2)%Q) /\
  ((0 <= (rawdists D i j).1)%Q -> (0 <= (rawdists D i j).2)%Q ->
   (d1, d2) = rawdists D i j /\ (d1 + d2 == mget D i j)%Q).
Proof.
  intros H. apply pairdists_Ok in H as [Hc _].
  pose proof (correct_nonneg (rawdists D i j)) as [N1 N2].
  rewrite <- Hc in N1, N2; simpl in N1, N2.
  split; [apply rawdists_total|].
  split; [exact N1|]. split; [exact N2|]. split.
  - destruct (dist_new_parent c1 d1 N1) as (e1 & E1 & Q1).
    destruct (dist_new_parent c2 d2 N2) as (e2 & E2 & Q2).
    exists e1, e2. auto.
  - intros P1 P2. rewrite (correct_id _ P1 P2) in Hc. split; [exact Hc|].
    pose proof (rawdists_total D i j) as T. rewrite <- Hc in T. exact T.
Qed.

End BRANCH.

(** The theorem at the one join of a concrete run: a 3-by-3 matrix that
    satisfies the triangle inequality ([4 # 4] is the unreduced fraction
    that the embedding computes for [1.0]). *)
Lemma pairdists_branch_lengths_witness :
  pairdists [[0; 3; 4]; [3; 0; 5]; [4; 5; 0]]%Q 0 1
    = Ok ((4 # 4)%Q, (8 # 4)%Q, [0 # 2; 0 # 2; 6 # 2]%Q) /\
  (0 <= 4 # 4)%Q /\ (0 <= 8 # 4)%Q.
Proof.
  pose proof (pairdists_branch_lengths (G:=unit)
                [[0; 3; 4]; [3; 0; 5]; [4; 5; 0]]%Q 0 1
                (leaf "A") (leaf "B") (4 # 4)%Q (8 # 4)%Q
                [0 # 2; 0 # 2; 6 # 2]%Q) as H.
  split; [vm_compute; reflexivity|].
  destruct (H ltac:(vm_compute; reflexivity)) as (_ & H1 & H2 & _).
  split; assumption.
Defined.

(** ** One join *)

Lemma bind_Ok {A B} (a : A) (k : A -> result B) : Ok a ≫= k = k a.
Proof. reflexivity. Qed.

Lemma index_Ok {A} (l : list A) (i : nat) (a : A) :
  l !! i = Some a -> index l i = Ok a.
Proof. unfold index. intros ->. reflexivity. Qed.

Lemma pairdists_square (n : nat) (D : matrix) (i j : nat) :
  square n D -> 3 <= n -> i < n -> j < n ->
  pairdists D i j =
  Ok ((correct (rawdists D i j)).1, (correct (rawdists D i j)).2,
      zip_with (fun a b => ((1 # 2) * (a + b - mget D i j))%Q)
               (row D i) (row D j)).
Proof.
  intros HD Hn Hi Hj.
  destruct (square_row n D i HD Hi) as [Hri _].
  destruct (square_row n D j HD Hj) as [Hrj _].
  pose proof (square_entry n D i j HD Hi Hj) as He.
  unfold pairdists, index2.
  rewrite (index_Ok _ _ _ Hri), bind_Ok, (index_Ok _ _ _ He), bind_Ok.
  destruct (decide _) as [E|_]; [destruct HD as [HL _]; lia|].
  rewrite (index_Ok _ _ _ Hrj), bind_Ok.
  destruct (correct (rawdists D i j)); reflexivity.
Qed.

Lemma square_set_row (n : nat) (D : matrix) (i : nat) (v : list Q) :
  square n D -> length v = n -> square n (set_row i v D).
Proof.
  intros [HL HR] Hv. unfold set_row. split.
  - rewrite length_insert. assumption.
  - apply Forall_insert; assumption.
Qed.

Lemma square_set_col (n : nat) (D : matrix) (i : nat) (v : list Q) :
  square n D -> square n (set_col i v D).
Proof.
  intros [HL HR]. unfold set_col. split.
  - rewrite length_imap. assumption.
  - rewrite Forall_lookup. intros k r. rewrite list_lookup_imap.
    destruct (D !! k) as [r0|] eqn:Hk; [|discriminate]. simpl. intros [= <-].
    rewrite length_insert. rewrite Forall_lookup in HR. eapply HR, Hk.
Qed.

Lemma square_set_entry (n : nat) (D : matrix) (i j : nat) (x : Q) :
  square n D -> i < n -> square n (set_entry i j x D).
Proof.
  intros HD Hi. unfold set_entry. destruct (square_row n D i HD Hi) as [_ Hr].
  destruct HD as [HL HR]. split.
  - rewrite length_insert. assumption.
  - apply Forall_insert; [assumption|]. rewrite length_insert. assumption.
Qed.

Lemma square_delete (n : nat) (D : matrix) (j : nat) :
  square n D -> j < n -> square (n - 1) (delete_col j (delete_row j D)).
Proof.
  intros [HL HR] Hj. unfold delete_col, delete_row. split.
  - rewrite length_fmap, length_delete; [lia|]. apply lookup_lt_is_Some. lia.
  - rewrite Forall_fmap. apply Forall_delete.
    eapply Forall_impl; [exact HR|]. intros r Hr. simpl in *.
    rewrite length_delete; [lia|]. apply lookup_lt_is_Some. lia.
Qed.

Lemma square_reduced (n : nat) (D : matrix) (i j : nat) :
  square n D -> i < n -> j < n -> square (n - 1) (reduced D i j).
Proof.
  intros HD Hi Hj. unfold reduced.
  apply square_delete; [|assumption].
  apply square_set_entry; [|assumption].
  apply square_set_col, square_set_row; [assumption|].
  destruct (square_row n D i HD Hi) as [_ Li].
  destruct (square_row n D j HD Hj) as [_ Lj].
  rewrite length_zip_with, Li, Lj. lia.
Qed.

Section JOIN.
Context {G : Type}.
Abbreviation Node := (Node G).

Lemma join_square (n : nat) (D : matrix) (ch : list Node) (idx : nat) :
  square n D -> 3 <= n -> n <= length ch ->
  exists i j x ci cj,
    minpair (q D) = Ok (i, j, Fin x) /\ i < j /\ j < n /\
    ch !! i = Some ci /\ ch !! j = Some cj /\
    join D ch idx =
    Ok (reduced D i j, delete j (<[i:=joined D i j idx ci cj]> ch), S idx).
Proof.
  intros HD Hn Hch.
  destruct (minpair_ordered n D HD ltac:(lia)) as (i & j & x & Hm & Hij & Hj).
  destruct (lookup_lt_is_Some_2 ch i) as [ci Hci]; [lia|].
  destruct (lookup_lt_is_Some_2 ch j) as [cj Hcj]; [lia|].
  exists i, j, x, ci, cj. repeat (split; [assumption|]).
  unfold join. rewrite Hm, bind_Ok.
  rewrite (index_Ok _ _ _ Hci), bind_Ok, (index_Ok _ _ _ Hcj), bind_Ok.
  rewrite (pairdists_square n) by (assumption || lia). rewrite bind_Ok.
  destruct (decide (i = j)); [lia|]. reflexivity.
Qed.

End JOIN.

(** ** The reduced matrix stays symmetric *)

Lemma mget_lookup (n : nat) (M : matrix) (i j : nat) (r : list Q) (x : Q) :
  M !! i = Some r -> r !! j = Some x -> mget M i j = x.
Proof. intros Hr Hx. unfold mget, row, qnth. rewrite Hr. simpl. rewrite Hx. reflexivity. Qed.

Lemma entries_set_row (n : nat) (M : matrix) (f : nat -> nat -> Q) (i : nat) (v : list Q) :
  entries n M f -> length v = n -> i < n ->
  entries n (set_row i v M) (fun a b => if decide (a = i) then qnth v b else f a b).
Proof.
  intros [HM HE] Hv Hi. split; [apply square_set_row; assumption|].
  intros a b Ha Hb. unfold set_row. destruct (decide (a = i)) as [->|Hne].
  - unfold mget, row. rewrite list_lookup_insert_eq by (rewrite (proj1 HM); lia).
    reflexivity.
  - rewrite <- (HE a b Ha Hb). unfold mget, row.
    rewrite list_lookup_insert_ne by congruence. reflexivity.
Qed.

Lemma entries_set_col (n : nat) (M : matrix) (f : nat -> nat -> Q) (i : nat) (v : list Q) :
  entries n M f -> i < n ->
  entries n (set_col i v M) (fun a b => if decide (b = i) then qnth v a else f a b).
Proof.
  intros [HM HE] Hi. split; [apply square_set_col; assumption|].
  intros a b Ha Hb. unfold set_col.
  destruct (square_row n M a HM Ha) as [Hr HL].
  pose proof (square_entry n M a b HM Ha Hb) as He.
  destruct (decide (b = i)) as [->|Hne].
  - apply (mget_lookup n _ _ _ (<[i:=qnth v a]> (row M a))).
    + rewrite list_lookup_imap, Hr. reflexivity.
    + apply list_lookup_insert_eq. lia.
  - rewrite <- (HE a b Ha Hb).
    apply (mget_lookup n _ _ _ (<[i:=qnth v a]> (row M a))).
    + rewrite list_lookup_imap, Hr. reflexivity.
    + rewrite list_lookup_insert_ne by congruence. exact He.
Qed.

Lemma entries_set_entry (n : nat) (M : matrix) (f : nat -> nat -> Q) (i j : nat) (x : Q) :
  entries n M f -> i < n -> j < n ->
  entries n (set_entry i j x M)
    (fun a b => if decide (a = i /\ b = j) then x else f a b).
Proof.
  intros [HM HE] Hi Hj. split; [apply square_set_entry; assumption|].
  intros a b Ha Hb. unfold set_entry.
  destruct (square_row n M i HM Hi) as [Hr HL].
  destruct (decide (a = i)) as [->|Hne].
  - destruct (decide (b = j)) as [->|Hne'].
    + rewrite decide_True by auto.
      apply (mget_lookup n _ _ _ (<[j:=x]> (row M i))).
      * apply list_lookup_insert_eq. rewrite (proj1 HM). lia.
      * apply list_lookup_insert_eq. lia.
    + rewrite decide_False by tauto. rewrite <- (HE i b Ha Hb).
      apply (mget_lookup n _ _ _ (<[j:=x]> (row M i))).
      * apply list_lookup_insert_eq. rewrite (proj1 HM). lia.
      * rewrite list_lookup_insert_ne by congruence.
        apply (square_entry n); assumption.
  - rewrite decide_False by tauto. rewrite <- (HE a b Ha Hb).
    unfold mget, row. rewrite list_lookup_insert_ne by congruence. reflexivity.
Qed.

Lemma entries_delete (n : nat) (M : matrix) (f : nat -> nat -> Q) (j : nat) :
  entries n M f -> j < n ->
  entries (n - 1) (delete_col j (delete_row j M))
    (fun a b => f (skip j a) (skip j b)).
Proof.
  intros [HM HE] Hj. split; [apply square_delete; assumption|].
  intros a b Ha Hb. unfold delete_col, delete_row.
  assert (Sa : skip j a < n) by (unfold skip; destruct (decide (a < j)); lia).
  assert (Sb : skip j b < n) by (unfold skip; destruct (decide (b < j)); lia).
  destruct (square_row n M (skip j a) HM Sa) as [Hr HL].
  pose proof (square_entry n M (skip j a) (skip j b) HM Sa Sb) as He.
  rewrite <- (HE _ _ Sa Sb).
  apply (mget_lookup n _ _ _ (delete j (row M (skip j a)))).
  - rewrite list_lookup_fmap, list_lookup_delete. fold (skip j a). rewrite Hr. reflexivity.
  - rewrite list_lookup_delete. fold (skip j b). exact He.
Qed.

Lemma entries_ext (n : nat) (M : matrix) (f g : nat -> nat -> Q) :
  entries n M f -> (forall a b, a < n -> b < n -> f a b = g a b) -> entries n M g.
Proof.
  intros [HM HE] Hfg. split; [assumption|].
  intros a b Ha Hb. rewrite HE, Hfg by assumption. reflexivity.
Qed.

(** The entries of the matrix that a join returns. *)
Lemma entries_reduced (n : nat) (D : matrix) (i j : nat) :
  square n D -> i < n -> j < n ->
  let dnew k := ((1 # 2) * (mget D i k + mget D j k - mget D i j))%Q in
  let E a b :=
    if decide (a = i /\ b = i) then 0%Q
    else if decide (b = i) then dnew a
    else if decide (a = i) then dnew b
    else mget D a b in
  entries (n - 1) (reduced D i j) (fun a b => E (skip j a) (skip j b)).
Proof.
  intros HD Hi Hj dnew E. unfold reduced.
  set (v := zip_with _ _ _).
  destruct (square_row n D i HD Hi) as [_ Li].
  destruct (square_row n D j HD Hj) as [_ Lj].
  assert (Lv : length v = n) by (unfold v; rewrite length_zip_with, Li, Lj; lia).
  assert (Hv : forall k, k < n -> qnth v k = dnew k).
  { intros k Hk. unfold qnth, v. rewrite lookup_zip_with.
    rewrite (square_entry n D i k HD Hi Hk), (square_entry n D j k HD Hj Hk).
    reflexivity. }
  apply (entries_delete n); [|assumption].
  eapply entries_ext.
  - apply entries_set_entry; [|assumption..].
    apply entries_set_col; [|assumption].
    apply entries_set_row; [|assumption..].
    apply entries_self. assumption.
  - intros a b Ha Hb. simpl. unfold E.
    destruct (decide (a = i /\ b = i)); [reflexivity|].
    destruct (decide (b = i)); [apply Hv; assumption|].
    destruct (decide (a = i)); [apply Hv; assumption|reflexivity].
Qed.

Lemma reduced_symmetric (n : nat) (D : matrix) (i j : nat) :
  square n D -> symmetric D -> i < n -> j < n -> symmetric (reduced D i j).
Proof.
  intros HD HS Hi Hj.
  destruct (entries_reduced n D i j HD Hi Hj) as [HR HE].
  apply (symmetric_bounded (n - 1)); [assumption|].
  intros a b Ha Hb. rewrite (HE a b Ha Hb), (HE b a Hb Ha).
  destruct (decide (skip j a = i /\ skip j b = i)) as [[Ea Eb]|N1].
  - rewrite decide_True by auto. reflexivity.
  - rewrite (decide_False (P:=skip j b = i /\ skip j a = i)) by tauto.
    destruct (decide (skip j b = i)) as [Eb|Nb];
      destruct (decide (skip j a = i)) as [Ea|Na]; try tauto; try reflexivity.
    apply HS.
Qed.

Lemma reduced_zero_diagonal (n : nat) (D : matrix) (i j : nat) :
  square n D -> zero_diagonal D -> i < n -> j < n -> zero_diagonal (reduced D i j).
Proof.
  intros HD HZ Hi Hj.
  destruct (entries_reduced n D i j HD Hi Hj) as [HR HE].
  intros a Ha. rewrite (proj1 HR) in Ha. rewrite (HE a a Ha Ha).
  destruct (decide (skip j a = i /\ skip j a = i)) as [_|N1]; [reflexivity|].
  destruct (decide (skip j a = i)); [tauto|].
  apply HZ. rewrite (proj1 HD). unfold skip. destruct (decide (a < j)); lia.
Qed.

(** ** The pair that an iteration joins *)

Section SELECT.
Context {G : Type}.

(** On an n-by-n symmetric matrix, n >= 3, [q] holds [+inf] on the
    diagonal and the Q-criterion elsewhere; [minpair] returns a pair
    [i < j] whose entry is least among the off-diagonal ones and strictly
    less than every off-diagonal entry that the row-major scan meets
    before it; and [join] joins the root children at [i] and [j]. *)
Lemma select_first_minimum (n : nat) (D : matrix) :
  square n D -> symmetric D -> 3 <= n ->
  (forall i, i < n -> q D !! i ≫= (.!! i) = Some PInf) /\
  (forall i j, i < n -> j < n -> i <> j ->
     exists x, q D !! i ≫= (.!! j) = Some (Fin x) /\ (x == Qcrit D i j)%Q) /\
  exists i j x,
    minpair (q D) = Ok (i, j, Fin x) /\ i < j /\ j < n /\
    (x == Qcrit D i j)%Q /\
    (forall i' j', i' < n -> j' < n -> i' <> j' -> (x <= Qcrit D i' j')%Q) /\
    (forall i' j', i' < n -> j' < n -> i' <> j' ->
       i' < i \/ (i' = i /\ j' < j) -> (x < Qcrit D i' j')%Q) /\
    (forall (ch : list (Node G)) (idx : nat), n <= length ch ->
       exists ci cj, ch !! i = Some ci /\ ch !! j = Some cj /\
         join D ch idx =
         Ok (reduced D i j, delete j (<[i:=joined D i j idx ci cj]> ch), S idx)).
Proof.
  intros HD HS Hn. split.
  { intros i Hi. rewrite (q_lookup n) by assumption.
    destruct (decide (i = i)); [reflexivity|contradiction]. }
  split; [intros; apply (q_as_specified n); assumption|].
  destruct (minpair_scan n D HD ltac:(lia))
    as (i0 & j0 & x & Hi & Hj & Hne & Hx & Hm & Hle & Hlt).
  assert (Hxc : (x == Qcrit D i0 j0)%Q).
  { destruct (q_as_specified n D i0 j0 HD Hi Hj Hne) as (x' & Hx' & E).
    rewrite Hx in Hx'. injection Hx' as ->. exact E. }
  assert (Hord : i0 < j0).
  { destruct (decide (j0 < i0)) as [Hji|]; [exfalso|lia].
    destruct (q_as_specified n D j0 i0 HD Hj Hi ltac:(lia)) as (y & Hy & E).
    apply (Hlt j0 i0 (Fin y) Hj Hi) in Hy; [|nia].
    simpl in Hy. apply Qltb_lt in Hy.
    rewrite E, (Qcrit_sym n D j0 i0 HD HS Hj Hi), <- Hxc in Hy. lra. }
  destruct (decide (j0 < i0)); [lia|].
  exists i0, j0, x. repeat (split; [assumption|]). split; [|split].
  - intros i' j' Hi' Hj' Hne'.
    destruct (q_as_specified n D i' j' HD Hi' Hj' Hne') as (y & Hy & E).
    apply Hle in Hy; try assumption. simpl in Hy. apply Qltb_ge in Hy.
    rewrite <- E. exact Hy.
  - intros i' j' Hi' Hj' Hne' Hpos.
    destruct (q_as_specified n D i' j' HD Hi' Hj' Hne') as (y & Hy & E).
    apply Hlt in Hy; try assumption; [|nia].
    simpl in Hy. apply Qltb_lt in Hy. rewrite <- E. exact Hy.
  - intros ch idx Hch.
    destruct (join_square n D ch idx HD Hn Hch)
      as (i & j & x' & ci & cj & Hm' & _ & _ & Hci & Hcj & E).
    rewrite Hm in Hm'. injection Hm' as <- <- <-.
    exists ci, cj. auto.
Qed.

End SELECT.

(** ** The joining loop *)

Section LOOP.
Context {G : Type}.
Abbreviation Node := (Node G).

(** One iteration removes one row and one column of the matrix and one
    entry of the list of root children. *)
Lemma join_shrinks (D : matrix) (ch : list Node) (idx : nat) D' ch' idx' :
  square (length D) D -> 2 < length D -> length D <= length ch ->
  join D ch idx = Ok (D', ch', idx') ->
  square (length D - 1) D' /\ length ch' = length ch - 1 /\ idx' = S idx.
Proof.
  intros HD Hn Hch HJ.
  destruct (join_square (length D) D ch idx HD ltac:(lia) Hch)
    as (i & j & x & ci & cj & _ & Hij & Hj & Hci & Hcj & E).
  rewrite E in HJ. injection HJ as <- <- <-.
  split; [apply square_reduced; (assumption || lia)|].
  split; [|reflexivity].
  rewrite length_delete, length_insert; [reflexivity|].
  apply lookup_lt_is_Some. rewrite length_insert. lia.
Qed.

(** At every loop entry the matrix is square, and the list of root
    children is longer than the matrix has rows by the same amount [e] as
    when the loop was entered. *)
Lemma loop_entry_invariant (n e : nat) (mtx0 : matrix) (ch0 : list Node) (idx0 : nat)
    mtx ch idx :
  square n mtx0 -> length ch0 = n + e ->
  loop_entry mtx0 ch0 idx0 mtx ch idx ->
  square (length mtx) mtx /\ length ch = length mtx + e /\
  length mtx + idx = n + idx0.
Proof.
  intros HD Hch HE. induction HE as [|m c k m' c' k' HE IH Hgt HJ].
  - destruct HD as [HL HR]. rewrite HL. repeat split; assumption.
  - destruct IH as (HS & HC & HI).
    destruct (join_shrinks m c k m' c' k' HS Hgt ltac:(lia) HJ) as (HS' & HC' & ->).
    pose proof (proj1 HS') as HL'. rewrite HL'.
    split; [assumption|]. split; lia.
Qed.

(** The loop ends: as many iterations as the matrix has rows are enough,
    no call fails, and two rows are left. *)
Lemma nj_loop_runs (fuel : nat) (mtx : matrix) (ch : list Node) (idx : nat) :
  square (length mtx) mtx -> length mtx <= length ch ->
  length mtx - 2 <= fuel ->
  exists mtx' ch' idx',
    nj_loop fuel mtx ch idx = Some (Ok (mtx', ch', idx')) /\
    loop_entry mtx ch idx mtx' ch' idx' /\
    length mtx' = Nat.min (length mtx) 2.
Proof.
  revert mtx ch idx.
  induction fuel as [|fuel IH]; intros mtx ch idx HS HC HF.
  - exists mtx, ch, idx. simpl. destruct (decide (2 < length mtx)); [lia|].
    split; [reflexivity|]. split; [constructor|lia].
  - simpl. destruct (decide (2 < length mtx)) as [Hgt|Hle].
    + destruct (join_square (length mtx) mtx ch idx HS ltac:(lia) HC)
        as (i & j & x & ci & cj & _ & Hij & Hj & Hci & Hcj & E).
      destruct (join_shrinks mtx ch idx _ _ _ HS Hgt HC E) as (HS' & HC' & _).
      rewrite E. pose proof (proj1 HS') as HL'.
      destruct (IH (reduced mtx i j) (delete j (<[i:=joined mtx i j idx ci cj]> ch)) (S idx))
        as (m' & c' & k' & Hrun & Hent & Hlen).
      * rewrite HL'. assumption.
      * lia.
      * lia.
      * exists m', c', k'. split; [assumption|]. split; [|lia].
        clear - Hent Hgt E. induction Hent.
        -- eapply entry_next; [constructor|assumption|exact E].
        -- eapply entry_next; eassumption.
    + exists mtx, ch, idx. split; [reflexivity|]. split; [constructor|lia].
Qed.

End LOOP.

(** ** [Tree.nj] as a whole *)

Section NJ_RESULT.
Context {G : Type}.

(** A call of [Tree.nj] on an n-by-n matrix and n distinct names returns.
    The list it leaves as [T.root.children] holds, after the two nodes
    that received half of the last distance, whatever the shared default
    list held when the call began. *)
Lemma nj_returns (s : list (Node G)) (mtx : matrix) (names : list string) (n : nat) :
  NoDup names -> square n mtx -> length names = n -> 2 <= n ->
  exists mtx' idx c0 c1 rest,
    loop_entry mtx (s ++ (leaf <$> names)) 0 mtx' (c0 :: c1 :: rest) idx /\
    length mtx' = 2 /\ length rest = length s /\
    let half := (mget mtx' 0 1 / 2)%Q in
    let ch := set_dist c0 half :: set_dist c1 half :: rest in
    nj s mtx names = Some (Ok (Tree_init ch, ch)).
Proof.
  intros Hnd HD Hnames Hn.
  pose proof (proj1 HD) as HL.
  destruct (nj_loop_runs (length mtx) mtx (s ++ (leaf <$> names)) 0)
    as (m' & c' & k' & Hrun & Hent & Hlen).
  { rewrite HL. assumption. }
  { rewrite length_app, length_fmap. lia. }
  { lia. }
  assert (Hlen2 : length m' = 2) by lia.
  destruct (loop_entry_invariant n (length s) mtx (s ++ (leaf <$> names)) 0 m' c' k' HD)
    as (HS' & HC' & _); [rewrite length_app, length_fmap; lia|assumption|].
  rewrite Hlen2 in HS', HC'.
  destruct c' as [|c0 [|c1 rest]]; simpl in HC'; try lia.
  exists m', k', c0, c1, rest.
  split; [assumption|]. split; [assumption|]. split; [lia|].
  intros half ch. unfold nj.
  destruct (decide (NoDup names)); [|contradiction].
  rewrite Hrun. destruct (decide (length m' = 2)); [|contradiction].
  unfold index2.
  destruct (square_row 2 m' 0 HS' ltac:(lia)) as [Hr0 _].
  rewrite (index_Ok _ _ _ Hr0), bind_Ok.
  rewrite (index_Ok _ _ _ (square_entry 2 m' 0 1 HS' ltac:(lia) ltac:(lia))), bind_Ok.
  reflexivity.
Qed.

(** In a call that finds the shared default list empty, the root ends
    with exactly two children, and both carry half of the last distance. *)
Lemma nj_fresh_root (mtx : matrix) (names : list string) (n : nat) :
  NoDup names -> square n mtx -> length names = n -> 2 <= n ->
  exists mtx' idx c0 c1,
    loop_entry mtx (leaf <$> names) 0 mtx' [c0; c1] idx /\
    length mtx' = 2 /\
    let half := (mget mtx' 0 1 / 2)%Q in
    let ch := [set_dist c0 half; set_dist c1 half] in
    nj (G:=G) [] mtx names = Some (Ok (Tree_init ch, ch)).
Proof.
  intros Hnd HD Hnames Hn.
  destruct (nj_returns [] mtx names n Hnd HD Hnames Hn)
    as (m' & k' & c0 & c1 & rest & Hent & Hlen & Hrest & Hnj).
  destruct rest; [|discriminate].
  exists m', k', c0, c1. auto.
Qed.

End NJ_RESULT.

(** ** Symmetry and leaves along the loop *)

Section LEAVES.
Context {G : Type}.

Lemma leaves_of_node x d (cs : list (Node G)) p g :
  leaves_of (mkNode x d cs p g) =
  (cs ≫= leaves_of) ++ (if decide (cs = []) then [mkNode x d cs p g] else []).
Proof.
  unfold leaves_of at 1. cbn [postorder]. rewrite filter_app. f_equal.
  - induction cs as [|c cs IH]; [reflexivity|].
    cbn [fmap list_fmap concat]. rewrite filter_app, IH. reflexivity.
  - rewrite (filter_singleton _ _ []). unfold is_leaf. cbn [children].
    destruct cs; reflexivity.
Qed.

Lemma leaf_names_node x d (cs : list (Node G)) p g :
  name <$> leaves_of (mkNode x d cs p g) =
  leaf_names cs ++ (if decide (cs = []) then [x] else []).
Proof.
  rewrite leaves_of_node, fmap_app. f_equal.
  - unfold leaf_names. induction cs as [|c cs IH]; [reflexivity|].
    rewrite !bind_cons, fmap_app, IH. reflexivity.
  - destruct (decide (cs = [])); reflexivity.
Qed.

Lemma leaf_names_new_parent (c : Node G) (d : Q) :
  name <$> leaves_of (new_parent c d) = name <$> leaves_of c.
Proof. destruct c. cbn [new_parent]. rewrite !leaf_names_node. reflexivity. Qed.

Lemma leaf_names_set_dist (c : Node G) (d : Q) :
  name <$> leaves_of (set_dist c d) = name <$> leaves_of c.
Proof. destruct c. cbn [set_dist]. rewrite !leaf_names_node. reflexivity. Qed.

Lemma leaf_names_cons (c : Node G) (ch : list (Node G)) :
  leaf_names (c :: ch) = (name <$> leaves_of c) ++ leaf_names ch.
Proof. reflexivity. Qed.

Lemma leaf_names_joined (D : matrix) (i j idx : nat) (ci cj : Node G) :
  name <$> leaves_of (joined D i j idx ci cj) =
  (name <$> leaves_of ci) ++ (name <$> leaves_of cj).
Proof.
  unfold joined. rewrite leaf_names_node, !leaf_names_cons.
  rewrite !leaf_names_new_parent. cbn. rewrite !app_nil_r. reflexivity.
Qed.

Lemma delete_insert_lt {A} (l : list A) (i j : nat) (x : A) :
  i < j -> delete j (<[i:=x]> l) = <[i:=x]> (delete j l).
Proof.
  revert i j. induction l as [|a l IH]; intros i j Hij; [destruct j; reflexivity|].
  destruct j as [|j]; [lia|]. destruct i as [|i]; [reflexivity|].
  cbn. f_equal. apply IH. lia.
Qed.

Lemma insert_Permutation {A} (l : list A) (i : nat) (x y : A) :
  l !! i = Some y -> <[i:=x]> l ≡ₚ x :: delete i l.
Proof.
  revert i. induction l as [|a l IH]; intros [|i] Hi; try discriminate.
  - reflexivity.
  - cbn. rewrite (IH i Hi). apply Permutation_swap.
Qed.

(** A join keeps the leaves. *)
Lemma leaf_names_join (D : matrix) (ch : list (Node G)) (i j idx : nat) ci cj :
  i < j -> ch !! i = Some ci -> ch !! j = Some cj ->
  leaf_names (delete j (<[i:=joined D i j idx ci cj]> ch)) ≡ₚ leaf_names ch.
Proof.
  intros Hij Hci Hcj.
  rewrite delete_insert_lt by assumption.
  assert (Hci' : delete j ch !! i = Some ci)
    by (rewrite list_lookup_delete_lt by assumption; assumption).
  unfold leaf_names.
  rewrite (insert_Permutation _ _ _ _ Hci').
  rewrite (delete_Permutation ch j cj Hcj) at 2.
  rewrite (delete_Permutation (delete j ch) i ci Hci') at 2.
  rewrite !bind_cons, leaf_names_joined.
  rewrite !app_assoc. apply Permutation_app_tail, Permutation_app_comm.
Qed.

(** The leaves of the root children at a loop entry are those of the
    first entry. *)
Lemma loop_entry_leaves (n e : nat) (mtx0 : matrix) (ch0 : list (Node G)) (idx0 : nat)
    mtx ch idx :
  square n mtx0 -> length ch0 = n + e ->
  loop_entry mtx0 ch0 idx0 mtx ch idx ->
  leaf_names ch ≡ₚ leaf_names ch0.
Proof.
  intros HD Hch HE. induction HE as [|m c k m' c' k' HE IH Hgt HJ]; [reflexivity|].
  destruct (loop_entry_invariant n e mtx0 ch0 idx0 m c k HD Hch HE) as (Hsq & Hlen & _).
  destruct (join_square (length m) m c k Hsq ltac:(lia) ltac:(lia))
    as (i & j & x & ci & cj & _ & Hij & Hj & Hci & Hcj & E).
  rewrite E in HJ. injection HJ as <- <- <-.
  rewrite (leaf_names_join m c i j k ci cj Hij Hci Hcj). exact IH.
Qed.

(** Every loop entry of a run on a symmetric matrix finds a symmetric
    matrix, with a zero diagonal when the first one has it. *)
Lemma loop_entry_symmetric (n e : nat) (mtx0 : matrix) (ch0 : list (Node G)) (idx0 : nat)
    mtx ch idx :
  square n mtx0 -> symmetric mtx0 -> length ch0 = n + e ->
  loop_entry mtx0 ch0 idx0 mtx ch idx ->
  symmetric mtx /\ (zero_diagonal mtx0 -> zero_diagonal mtx).
Proof.
  intros HD HS Hch HE. induction HE as [|m c k m' c' k' HE IH Hgt HJ]; [auto|].
  destruct IH as (IS & IZ).
  destruct (loop_entry_invariant n e mtx0 ch0 idx0 m c k HD Hch HE) as (Hsq & Hlen & _).
  destruct (join_square (length m) m c k Hsq ltac:(lia) ltac:(lia))
    as (i & j & x & ci & cj & _ & Hij & Hj & Hci & Hcj & E).
  rewrite E in HJ. injection HJ as <- <- <-. split.
  - apply (reduced_symmetric (length m)); (assumption || lia).
  - intros HZ. apply (reduced_zero_diagonal (length m)); auto; lia.
Qed.

(** In exact arithmetic: at every loop entry of a run of [Tree.nj] on a
    symmetric matrix at which the loop goes on, [q] holds [+inf] on the
    diagonal and
    [(n-2)*D[i,j] - (rowSum(D,i) + colSum(D,j))] elsewhere, [n] being the
    number of rows left; [minpair] returns a pair [i < j] whose entry is
    least among the off-diagonal ones and strictly less than every
    off-diagonal entry that the row-major scan meets before it; and
    [join] joins the root children at [i] and [j]. *)
Lemma minpair_first_minimum (n e : nat) (mtx0 : matrix) (ch0 : list (Node G))
    (idx0 : nat) (D : matrix) (ch : list (Node G)) (idx : nat) :
  square n mtx0 -> symmetric mtx0 -> length ch0 = n + e ->
  loop_entry mtx0 ch0 idx0 D ch idx -> 2 < length D ->
  let m := length D in
  (forall i, i < m -> q D !! i ≫= (.!! i) = Some PInf) /\
  (forall i j, i < m -> j < m -> i <> j ->
     exists x, q D !! i ≫= (.!! j) = Some (Fin x) /\ (x == Qcrit D i j)%Q) /\
  exists i j x ci cj,
    minpair (q D) = Ok (i, j, Fin x) /\ i < j /\ j < m /\
    (x == Qcrit D i j)%Q /\
    (forall i' j', i' < m -> j' < m -> i' <> j' -> (x <= Qcrit D i' j')%Q) /\
    (forall i' j', i' < m -> j' < m -> i' <> j' ->
       i' < i \/ (i' = i /\ j' < j) -> (x < Qcrit D i' j')%Q) /\
    ch !! i = Some ci /\ ch !! j = Some cj /\
    join D ch idx =
    Ok (reduced D i j, delete j (<[i:=joined D i j idx ci cj]> ch), S idx).
Proof.
  intros HD HS Hch HE Hgt m.
  destruct (loop_entry_invariant n e mtx0 ch0 idx0 D ch idx HD Hch HE) as (Hsq & Hlen & _).
  destruct (loop_entry_symmetric n e mtx0 ch0 idx0 D ch idx HD HS Hch HE) as [HSD _].
  destruct (select_first_minimum (G:=G) m D Hsq HSD ltac:(unfold m; lia))
    as (Hdiag & Hoff & i & j & x & Hm & Hij & Hj & Hx & Hmin & Hfirst & Hjoin).
  split; [exact Hdiag|]. split; [exact Hoff|].
  destruct (Hjoin ch idx ltac:(unfold m; lia)) as (ci & cj & Hci & Hcj & EJ).
  exists i, j, x, ci, cj. auto 10.
Qed.

Lemma leaf_names_leaf (names : list string) :
  leaf_names (leaf (G:=G) <$> names) = names.
Proof.
  induction names as [|x names IH]; [reflexivity|].
  cbn [fmap list_fmap]. rewrite leaf_names_cons, IH. reflexivity.
Qed.

(** A call that finds the shared default list empty returns a tree whose
    root has two children and whose leaves carry the given names, one leaf
    for each. *)
Lemma nj_fresh_leaves (mtx : matrix) (names : list string) (n : nat) :
  NoDup names -> square n mtx -> length names = n -> 2 <= n ->
  exists (T : Tree) (s : list (Node G)),
    nj [] mtx names = Some (Ok (T, s)) /\
    length (children (root T)) = 2 /\
    name <$> leaves_of (root T) ≡ₚ names.
Proof.
  intros Hnd HD Hnames Hn.
  destruct (nj_fresh_root (G:=G) mtx names n Hnd HD Hnames Hn)
    as (m' & k' & c0 & c1 & Hent & Hlen & Hnj).
  eexists _, _. split; [exact Hnj|]. split; [reflexivity|].
  cbn [Tree_init root]. rewrite leaf_names_node. cbn [decide].
  rewrite decide_False by discriminate. rewrite app_nil_r.
  rewrite !leaf_names_cons, !leaf_names_set_dist, <- !leaf_names_cons.
  rewrite (loop_entry_leaves n 0 mtx (leaf <$> names) 0 m' [c0; c1] k' HD);
    [rewrite leaf_names_leaf; reflexivity| |assumption].
  rewrite length_fmap. lia.
Qed.

End LEAVES.

(** ** Runs on concrete matrices *)

Lemma square3 (a b c d e f g h i : Q) : square 3 [[a; b; c]; [d; e; f]; [g; h; i]].
Proof. split; [reflexivity|]. repeat constructor. Qed.

Lemma far01_symmetric : symmetric far01.
Proof.
  intros [|[|[|i]]] [|[|[|j]]]; vm_compute; reflexivity.
Qed.

Lemma far12_symmetric : symmetric far12.
Proof.
  intros [|[|[|i]]] [|[|[|j]]]; vm_compute; reflexivity.
Qed.

Lemma abc_NoDup : NoDup abc.
Proof. apply (bool_decide_unpack _). vm_compute. exact I. Qed.

(** C1.  The correction does not keep the total.  The first loop entry of
    a run on the symmetric zero-diagonal matrix [far12] selects the pair
    [(0, 1)], with [D[0,1] = 1 >= 0]; the branch lengths before the
    correction are [-3/2] and [5/2], which add up to [1]; [d2 -= d1] then
    adds [3/2] to [d2] where "keeping total fixed" asks to take it away,
    and [pairdists] returns [0] and [4]: neither is negative, but their sum
    is [4] and not [D[0,1]].  All numbers here are halves of integers, so
    that [float64] computes the same. *)
Lemma pairdists_total_changed :
  square 3 far12 /\ symmetric far12 /\ zero_diagonal far12 /\
  loop_entry (G:=unit) far12 (leaf <$> abc) 0 far12 (leaf <$> abc) 0 /\
  minpair (q far12) = Ok (0, 1, Fin (-7 # 1)) /\
  (mget far12 0 1 == 1)%Q /\
  ((rawdists far12 0 1).1 == - (3 # 2))%Q /\
  ((rawdists far12 0 1).2 == 5 # 2)%Q /\
  exists d1 d2 dnew,
    pairdists far12 0 1 = Ok (d1, d2, dnew) /\
    (d1 == 0)%Q /\ (d2 == 4)%Q /\
    ~ (d1 + d2 == mget far12 0 1)%Q.
Proof.
  split; [apply square3|]. split; [apply far12_symmetric|].
  split. { intros [|[|[|i]]] Hi; first [reflexivity | simpl in Hi; lia]. }
  split; [constructor|].
  split. { vm_compute. reflexivity. }
  split. { vm_compute. reflexivity. }
  split. { vm_compute. reflexivity. }
  split. { vm_compute. reflexivity. }
  eexists _, _, _. split. { vm_compute. reflexivity. }
  split. { vm_compute. reflexivity. }
  split. { vm_compute. reflexivity. }
  vm_compute. discriminate.
Qed.

(** A run reaches a loop entry at which the selected pair has a negative
    distance, which no two lengths [>= 0] add up to. *)
Lemma negative_pair_reached :
  exists (D : matrix) (ch : list (Node unit)) (idx : nat) (x : Q),
    loop_entry four (leaf <$> abcd) 0 D ch idx /\
    2 < length D /\
    minpair (q D) = Ok (0, 1, Fin x) /\
    (mget D 0 1 < 0)%Q.
Proof.
  eexists _, _, _, _. split.
  { eapply entry_next; [apply entry_first|simpl; lia|vm_compute; reflexivity]. }
  split; [simpl; lia|]. split; vm_compute; reflexivity.
Qed.

(** C4, evaluated.  On the symmetric zero-diagonal matrix [far01] and three
    distinct names, a call that finds the default list empty returns a
    tree in which both children of the root have the branch length
    [-3/4]: the last distance is [-3/2], and the root split stores its
    half without the clamp that [new_parent] applies. *)
Theorem nj_root_split_negative :
  square 3 far01 /\ symmetric far01 /\ zero_diagonal far01 /\ NoDup abc /\
  exists c0 c1 s,
    nj (G:=unit) [] far01 abc = Some (Ok (Tree_init [c0; c1], s)) /\
    dist c0 = Some (-3 # 4)%Q /\ dist c1 = Some (-3 # 4)%Q /\
    (-3 # 4 < 0)%Q.
Proof.
  split; [apply square3|]. split; [apply far01_symmetric|].
  split. { intros [|[|[|i]]] Hi; vm_compute; reflexivity. }
  split; [apply abc_NoDup|].
  eexists _, _, _. split; [vm_compute; reflexivity|].
  split; [reflexivity|]. split; [reflexivity|]. reflexivity.
Qed.

(** C5, evaluated.  At the first loop entry of the second of two calls on
    the 3-by-3 matrix [far12], the root has five children: the two that
    the first call left in the shared default list and the three new
    leaves. *)
Theorem nj_second_call_entry :
  exists (T1 : Tree) (s1 : list (Node unit)),
    nj [] far12 abc = Some (Ok (T1, s1)) /\
    children (root (Tree_init s1)) = s1 /\
    loop_entry far12 (s1 ++ (leaf <$> abc)) 0 far12 (s1 ++ (leaf <$> abc)) 0 /\
    length (s1 ++ (leaf <$> abc)) = 5 /\ length far12 = 3.
Proof.
  eexists _, _. split; [vm_compute; reflexivity|].
  split; [reflexivity|]. split; [constructor|]. split; reflexivity.
Qed.

(** C7, evaluated.  The second of two calls on [far12] returns a root with
    four children; the first two received half of the last distance, the
    other two have no branch length. *)
Theorem nj_second_call_root :
  exists (T1 T2 : Tree) (s2 : list (Node unit)) c0 c1 c2 c3,
    nj_twice far12 abc = Some (Ok (T1, T2, s2)) /\
    children (root T2) = [c0; c1; c2; c3] /\
    dist c0 = Some (5 # 4)%Q /\ dist c1 = Some (5 # 4)%Q /\
    dist c2 = None /\ dist c3 = None.
Proof.
  eexists _, _, _, _, _, _, _. split; [vm_compute; reflexivity|].
  split; [reflexivity|]. repeat split; reflexivity.
Qed.

(** C10, evaluated.  After one call of [Tree.nj] the children list of a
    newly built [Tree()] is not empty, and a second call on the same
    matrix and names returns a different tree: its root has four
    children, that of the first call two. *)
Theorem nj_second_call_differs :
  exists (T1 T2 : Tree) (s1 s2 : list (Node unit)),
    nj [] far12 abc = Some (Ok (T1, s1)) /\
    children (root (Tree_init s1)) <> [] /\
    nj s1 far12 abc = Some (Ok (T2, s2)) /\
    length (children (root T1)) = 2 /\
    length (children (root T2)) = 4 /\
    T1 <> T2.
Proof.
  eexists _, _, _, _. split; [vm_compute; reflexivity|].
  split; [discriminate|]. split; [vm_compute; reflexivity|].
  split; [reflexivity|]. split; [reflexivity|].
  intros E. apply (f_equal (fun T => length (children (root T)))) in E.
  vm_compute in E. discriminate.
Qed.

Lemma five_symmetric : symmetric five.
Proof.
  intros [|[|[|[|[|i]]]]] [|[|[|[|[|j]]]]]; vm_compute; reflexivity.
Qed.

Lemma five_square : square 5 five.
Proof. split; [reflexivity|]. repeat constructor. Qed.

(** The first join of a run on [five]: the pair [(0, 1)], at the value
    [-50]. *)
Lemma minpair_first_minimum_witness :
  exists i j x, minpair (q five) = Ok (i, j, Fin x) /\ i < j /\ j < 5 /\
    minpair (q five) = Ok (0, 1, Fin (-50 # 1)).
Proof.
  assert (Hlen : length (leaf (G:=unit) <$> abcde) = 5 + 0) by reflexivity.
  assert (Hgt : 2 < length five) by (simpl; lia).
  destruct (minpair_first_minimum 5 0 five (leaf <$> abcde) 0
              five (leaf <$> abcde) 0 five_square five_symmetric
              Hlen (entry_first _ _ _) Hgt)
    as (_ & _ & i & j & x & ci & cj & Hm & Hij & Hj & _).
  exists i, j, x. split; [exact Hm|]. split; [exact Hij|]. split; [exact Hj|].
  vm_compute. reflexivity.
Defined.

(** ** The quality gate and the refinement loop of [merge0] *)

Lemma pymin_Qmin (a b : Q) : (pymin a b == Qmin a b)%Q.
Proof.
  unfold pymin. destruct (Qltb b a) eqn:H.
  - apply Qltb_lt in H. rewrite Q.min_r; [reflexivity|lra].
  - apply Qltb_ge in H. rewrite Q.min_l; [reflexivity|lra].
Qed.

Lemma pymax_Qmax (a b : Q) : (pymax a b == Qmax a b)%Q.
Proof.
  unfold pymax. destruct (Qltb a b) eqn:H.
  - apply Qltb_lt in H. rewrite Q.max_r; [reflexivity|lra].
  - apply Qltb_ge in H. rewrite Q.max_l; [reflexivity|lra].
Qed.

Section GATE.
Context {G : Type}.
Variable fuse : G -> G -> G.
Variable union : G -> string -> string -> string -> G * bool.
Variable compress_ratio : G -> Q.
Variable members : G -> list string.
Variable extract : G -> string -> string.
Variable tmpdir : string.
Variable leaf_seqs : list (string * string).

Abbreviation merge0' := (merge0 fuse union compress_ratio members extract tmpdir leaf_seqs).
Abbreviation selfmaps' := (selfmaps union members extract tmpdir leaf_seqs).
Abbreviation check' := (check members extract leaf_seqs).
Abbreviation pass_graph' := (pass_graph union tmpdir).
Abbreviation pass_contin' := (pass_contin union tmpdir).

(** The threshold is the one of the specification. *)
Lemma cutoff_as_specified (g1 g2 : G) :
  (cutoff compress_ratio g1 g2 ==
   Qmax 0 (Qmin (compress_ratio g1) (compress_ratio g2) - (5 # 100)))%Q.
Proof.
  unfold cutoff. rewrite pymax_Qmax.
  apply Q.max_compat; [reflexivity|]. rewrite pymin_Qmin. reflexivity.
Qed.

Abbreviation itr' := (iter_path tmpdir).

Lemma selfmaps_S (nname : string) (k i : nat) (g : G) :
  selfmaps' nname (S k) i g =
  (_ ← check' g;
   if (union g (itr' nname i) (itr' nname i) (itr' nname i)).2
   then selfmaps' nname k (S i)
          (union g (itr' nname i) (itr' nname i) (itr' nname i)).1
   else Ok (Some (union g (itr' nname i) (itr' nname i) (itr' nname i)).1)).
Proof.
  cbn [selfmaps]. destruct (check' g); [|reflexivity]. rewrite !bind_Ok.
  destruct (union g _ _ _) as [g' c]. reflexivity.
Qed.

Lemma pass_graph_S (nname : string) (i : nat) (g : G) (t : nat) :
  pass_graph' nname i g (S t) =
  pass_graph' nname (S i)
    (union g (itr' nname i) (itr' nname i) (itr' nname i)).1 t.
Proof. reflexivity. Qed.

Lemma pass_contin_0 (nname : string) (i : nat) (g : G) :
  pass_contin' nname i g 0 =
  (union g (itr' nname i) (itr' nname i) (itr' nname i)).2.
Proof. unfold pass_contin. cbn [pass_graph]. rewrite Nat.add_0_r. reflexivity. Qed.

Lemma pass_contin_S (nname : string) (i : nat) (g : G) (t : nat) :
  pass_contin' nname i g (S t) =
  pass_contin' nname (S i)
    (union g (itr' nname i) (itr' nname i) (itr' nname i)).1 t.
Proof.
  unfold pass_contin. cbn [pass_graph].
  replace (i + S t) with (S i + t) by lia. reflexivity.
Qed.

(** The loop returns the graph of the first pass that reports no more
    work, when that pass is among the [k] it may run and every check up to
    it succeeds. *)
Lemma selfmaps_stops (nname : string) (k i : nat) (g : G) (t : nat) :
  t < k ->
  (forall u, u <= t -> check' (pass_graph' nname i g u) = Ok ()) ->
  (forall u, u < t -> pass_contin' nname i g u = true) ->
  pass_contin' nname i g t = false ->
  selfmaps' nname k i g = Ok (Some (pass_graph' nname i g (S t))).
Proof.
  revert i g t. induction k as [|k IH]; intros i g t Ht Hchk Hbusy Hstop; [lia|].
  rewrite selfmaps_S.
  pose proof (Hchk 0 ltac:(lia)) as C0. cbn [pass_graph] in C0.
  rewrite C0, bind_Ok.
  destruct t as [|t].
  - rewrite pass_contin_0 in Hstop. rewrite Hstop. reflexivity.
  - pose proof (Hbusy 0 ltac:(lia)) as H0. rewrite pass_contin_0 in H0.
    rewrite H0. rewrite pass_contin_S in Hstop.
    rewrite pass_graph_S.
    apply IH; [lia| | |exact Hstop].
    + intros u Hu. rewrite <- pass_graph_S. apply Hchk. lia.
    + intros u Hu. rewrite <- pass_contin_S. apply Hbusy. lia.
Qed.

(** When each of the [k] passes reports that more work remains, the loop
    runs out and the function returns [None]. *)
Lemma selfmaps_runs_out (nname : string) (k i : nat) (g : G) :
  (forall u, u < k -> check' (pass_graph' nname i g u) = Ok ()) ->
  (forall u, u < k -> pass_contin' nname i g u = true) ->
  selfmaps' nname k i g = Ok None.
Proof.
  revert i g. induction k as [|k IH]; intros i g Hchk Hbusy; [reflexivity|].
  rewrite selfmaps_S.
  pose proof (Hchk 0 ltac:(lia)) as C0. cbn [pass_graph] in C0.
  rewrite C0, bind_Ok.
  pose proof (Hbusy 0 ltac:(lia)) as H0. rewrite pass_contin_0 in H0.
  rewrite H0. apply IH.
  - intros u Hu. rewrite <- pass_graph_S. apply Hchk. lia.
  - intros u Hu. rewrite <- pass_contin_S. apply Hbusy. lia.
Qed.

(** A candidate that passes the gate is refined: [merge0] returns the
    graph of the first pass that reports no more work, when there is one
    among the [MAXSELFMAPS] passes and the checks succeed. *)
Lemma merge0_refines (nname : string) (g0 g1 : G) (p0 p1 : string) (t : nat) :
  let cand := candidate fuse union tmpdir nname g0 p0 g1 p1 in
  Qltb (compress_ratio cand) (cutoff compress_ratio g0 g1) = false ->
  t < MAXSELFMAPS ->
  (forall u, u <= t -> check' (pass_graph' nname 0 cand u) = Ok ()) ->
  (forall u, u < t -> pass_contin' nname 0 cand u = true) ->
  pass_contin' nname 0 cand t = false ->
  merge0' nname g0 p0 g1 p1 = Ok (Some (pass_graph' nname 0 cand (S t))).
Proof.
  intros cand Hgate Ht Hchk Hbusy Hstop. unfold merge0. fold cand.
  rewrite Hgate. apply selfmaps_stops; assumption.
Qed.

(** A candidate that passes the gate and whose [MAXSELFMAPS] passes all
    report more work is lost: [merge0] returns [None]. *)
Lemma merge0_exhausted (nname : string) (g0 g1 : G) (p0 p1 : string) :
  let cand := candidate fuse union tmpdir nname g0 p0 g1 p1 in
  Qltb (compress_ratio cand) (cutoff compress_ratio g0 g1) = false ->
  (forall u, u < MAXSELFMAPS -> check' (pass_graph' nname 0 cand u) = Ok ()) ->
  (forall u, u < MAXSELFMAPS -> pass_contin' nname 0 cand u = true) ->
  merge0' nname g0 p0 g1 p1 = Ok None.
Proof.
  intros cand Hgate Hchk Hbusy. unfold merge0. fold cand.
  rewrite Hgate. apply selfmaps_runs_out; assumption.
Qed.

(** C3.  With compression ratios that are not negative: a candidate whose
    ratio is below [max(0, min(ratio(A), ratio(B)) - 0.05)] makes [merge0]
    return [None], and the node that [align] is processing is left
    without a graph and without an exception; a candidate whose ratio is
    at least [min(ratio(A), ratio(B))] passes the gate, so that [merge0]
    returns what the refinement loop returns. *)
Theorem merge0_gate (n c0 c1 : Node G) (g0 g1 : G) :
  (forall g, 0 <= compress_ratio g)%Q ->
  let cand := candidate fuse union tmpdir (name n) g0 (fapath c0) g1 (fapath c1) in
  let lo := Qmin (compress_ratio g0) (compress_ratio g1) in
  ((compress_ratio cand < Qmax 0 (lo - (5 # 100)))%Q ->
     merge0' (name n) g0 (fapath c0) g1 (fapath c1) = Ok None /\
     exists n', visit_both fuse union compress_ratio members extract tmpdir
                  leaf_seqs n c0 c1 g0 g1 = Ok n' /\
                graph n' = None /\ name n' = name n /\ children n' = children n) /\
  ((lo <= compress_ratio cand)%Q ->
     merge0' (name n) g0 (fapath c0) g1 (fapath c1)
       = selfmaps' (name n) MAXSELFMAPS 0 cand).
Proof.
  intros Hpos cand lo. subst lo. split.
  - intros Hlow.
    assert (E : merge0' (name n) g0 (fapath c0) g1 (fapath c1) = Ok None).
    { unfold merge0. fold cand.
      rewrite <- cutoff_as_specified in Hlow. apply Qltb_lt in Hlow.
      rewrite Hlow. reflexivity. }
    split; [exact E|]. unfold visit_both. rewrite E, bind_Ok.
    eexists. split; [reflexivity|]. destruct n; simpl. auto.
  - intros Hhigh. unfold merge0. fold cand.
    destruct (Qltb (compress_ratio cand) (cutoff compress_ratio g0 g1)) eqn:H;
      [|reflexivity].
    apply Qltb_lt in H. rewrite cutoff_as_specified in H.
    pose proof (Hpos cand) as Hc.
    destruct (Q.max_spec 0 (Qmin (compress_ratio g0) (compress_ratio g1) - (5 # 100)))
      as [[_ E]|[_ E]]; rewrite E in H; lra.
Qed.

End GATE.

(** The gate at two collaborators: with [falling_ratio] the candidate of
    two fresh graphs is rejected, with [growing_ratio] it is accepted. *)
Lemma merge0_gate_witness :
  merge0 Nat.add busy_union falling_ratio no_members no_extract "tmp" []
    "NODE_00000" 0 "tmp/A" 0 "tmp/B" = Ok None /\
  merge0 Nat.add calm_union growing_ratio no_members no_extract "tmp" []
    "NODE_00000" 0 "tmp/A" 0 "tmp/B" = Ok (Some 3).
Proof.
  split.
  - refine (proj1 (proj1 (merge0_gate Nat.add busy_union falling_ratio no_members
              no_extract "tmp" []
              (mkNode "NODE_00000" None [] "" None)
              (mkNode "A" None [] "tmp/A" (Some 0))
              (mkNode "B" None [] "tmp/B" (Some 0)) 0 0 _) _)).
    + intros g. unfold falling_ratio. unfold Qle. simpl. lia.
    + vm_compute. reflexivity.
  - refine (eq_trans (proj2 (merge0_gate Nat.add calm_union growing_ratio no_members
              no_extract "tmp" []
              (mkNode "NODE_00000" None [] "" None)
              (mkNode "A" None [] "tmp/A" (Some 0))
              (mkNode "B" None [] "tmp/B" (Some 0)) 0 0 _) _) _).
    + intros g. unfold growing_ratio, Qle. simpl. lia.
    + vm_compute. discriminate.
    + vm_compute. reflexivity.
Defined.

(** C2, evaluated.  The candidate passes the gate (its ratio [1] is not
    below the threshold [0]) and each of the 25 passes reports that more
    work remains: [merge0] returns [None], not the graph of the last
    pass. *)
Theorem merge0_runs_out :
  let cand := candidate Nat.add busy_union "tmp" "NODE_00000" 0 "tmp/A" 0 "tmp/B" in
  Qltb (growing_ratio cand) (cutoff growing_ratio 0 0) = false /\
  (forall u, u < MAXSELFMAPS -> pass_contin busy_union "tmp" "NODE_00000" 0 cand u = true) /\
  pass_graph busy_union "tmp" "NODE_00000" 0 cand MAXSELFMAPS = 26 /\
  merge0 Nat.add busy_union growing_ratio no_members no_extract "tmp" []
    "NODE_00000" 0 "tmp/A" 0 "tmp/B" = Ok None.
Proof.
  split; [vm_compute; reflexivity|]. split; [intros u _; reflexivity|].
  split; vm_compute; reflexivity.
Qed.

(** ** The loader *)

Lemma filter_ext_elem {A} (P Q : A -> Prop)
    `{!forall x, Decision (P x), !forall x, Decision (Q x)} (l : list A) :
  (forall x, x ∈ l -> (P x <-> Q x)) -> filter P l = filter Q l.
Proof.
  induction l as [|a l IH]; intros Hext; [reflexivity|].
  assert (Ha : P a <-> Q a) by (apply Hext; left).
  assert (Hl : filter P l = filter Q l).
  { apply IH. intros x Hx. apply Hext. right. assumption. }
  destruct (decide (P a)) as [HP|HP].
  - rewrite !filter_cons_True by tauto. rewrite Hl. reflexivity.
  - rewrite !filter_cons_False by tauto. exact Hl.
Qed.

Lemma length_delete_idxs_from {A} (k : nat) (idxs : list nat) (l : list A) :
  length (delete_idxs_from k idxs l) =
  length (filter (fun d => d ∉ idxs) (seq k (length l))).
Proof.
  revert k. induction l as [|x l IH]; intros k; [reflexivity|].
  simpl. destruct (decide (k ∈ idxs)) as [Hk|Hk].
  - rewrite filter_cons_False by tauto. apply IH.
  - rewrite filter_cons_True by assumption. simpl. rewrite IH. reflexivity.
Qed.

Lemma square_drop_repeated (n : nat) (idxs : list nat) (M : matrix) :
  square n M ->
  square (length (filter (fun d => d ∉ idxs) (seq 0 n))) (drop_repeated idxs M).
Proof.
  intros [HL HR]. unfold drop_repeated, np_delete. split.
  - rewrite length_fmap, length_delete_idxs_from, HL. reflexivity.
  - rewrite Forall_fmap.
    assert (H : Forall (fun r : list Q => length r = n) (delete_idxs_from 0 idxs M)).
    { clear HL. generalize 0. induction HR as [|r M Hr HR IH]; intros k; simpl; [constructor|].
      destruct (decide (k ∈ idxs)); [apply IH|]. constructor; [assumption|apply IH]. }
    eapply Forall_impl; [exact H|]. intros r Hr. simpl in *.
    rewrite length_delete_idxs_from, Hr. reflexivity.
Qed.

Lemma first_occurrences_elem (l : list string) (x : string) :
  x ∈ first_occurrences l <-> x ∈ l.
Proof.
  induction l as [|a l IH]; simpl; [reflexivity|].
  rewrite !elem_of_cons, list_elem_of_filter, IH.
  destruct (decide (x = a)); tauto.
Qed.

Lemma first_occurrences_NoDup (l : list string) : NoDup (first_occurrences l).
Proof.
  induction l as [|a l IH]; simpl; [constructor|].
  apply NoDup_cons. split.
  - rewrite list_elem_of_filter. tauto.
  - apply NoDup_filter, IH.
Qed.

(** The loop of [parse] on lines that hold one number per column up to
    the diagonal: it fails nowhere, the names it keeps are the first
    occurrences, and it lists as many repeated lines as it drops names. *)
Lemma parse_lines_ok (nrows : nat) (lines : list (string * list Q)) (li : nat)
    (M : matrix) (names : list string) (dels : list nat) :
  square nrows M -> li + length lines = nrows ->
  (forall k tok vals, lines !! k = Some (tok, vals) -> length vals = S (li + k)) ->
  Forall (fun d => d < li) dels ->
  length names = length (filter (fun d => d ∉ dels) (seq 0 li)) ->
  exists M' dels',
    parse_lines nrows li lines M names dels =
      Ok (M', names ++ filter (fun y => y ∉ names) (first_occurrences (derived lines)),
          dels') /\
    square nrows M' /\ Forall (fun d => d < nrows) dels' /\
    length (names ++ filter (fun y => y ∉ names) (first_occurrences (derived lines)))
      = length (filter (fun d => d ∉ dels') (seq 0 nrows)).
Proof.
  revert li M names dels.
  induction lines as [|[tok vals] rest IH]; intros li M names dels HM Hli Hvals Hdels Hcount.
  - simpl in *. exists M, dels. rewrite Nat.add_0_r in Hli. subst li.
    rewrite app_nil_r. auto.
  - simpl in Hli. cbn [parse_lines derived fmap list_fmap first_occurrences fst].
    fold (derived rest).
    assert (Hrest : forall k tok' vals', rest !! k = Some (tok', vals') ->
                      length vals' = S (S li + k)).
    { intros k tok' vals' Hk. rewrite (Hvals (S k) tok' vals' Hk). lia. }
    assert (Hseq : forall (P : nat -> Prop) `{!forall x, Decision (P x)},
              filter P (seq 0 (S li)) = filter P (seq 0 li) ++ filter P [li]).
    { intros P ?. rewrite seq_S, filter_app. reflexivity. }
    destruct (decide (derived_name tok ∈ names)) as [Hin|Hnin].
    + destruct (IH (S li) M names (dels ++ [li])) as (M' & dels' & E & HM' & HD' & HC');
        try assumption; [lia| | |].
      * apply Forall_app. split; [eapply Forall_impl; [exact Hdels|]; simpl; lia|].
        constructor; [lia|constructor].
      * rewrite Hcount, Hseq.
        rewrite (filter_singleton_False _ li []), app_nil_r
          by (rewrite elem_of_app, list_elem_of_singleton; tauto).
        f_equal. apply filter_ext_elem. intros x Hx.
        apply elem_of_seq in Hx. rewrite elem_of_app, list_elem_of_singleton.
        split; [intros H [H'|H']; [tauto|lia]|tauto].
      * exists M', dels'.
        rewrite filter_cons_False by tauto.
        rewrite list_filter_filter_l; [auto|].
        intros x Hx ->. contradiction.
    + destruct (decide (nrows <= li)); [lia|].
      rewrite (Hvals 0 tok vals eq_refl), Nat.add_0_r.
      destruct (decide (S li = S li)); [|contradiction].
      destruct (IH (S li) (<[li:=vals ++ drop (S li) (row M li)]> M)
                  (names ++ [derived_name tok]) dels)
        as (M' & dels' & E & HM' & HD' & HC').
      * destruct (square_row nrows M li HM ltac:(lia)) as [_ Hr].
        destruct HM as [HL HR]. split; [rewrite length_insert; assumption|].
        apply Forall_insert; [assumption|].
        rewrite length_app, length_drop, Hr, (Hvals 0 tok vals eq_refl). lia.
      * lia.
      * assumption.
      * eapply Forall_impl; [exact Hdels|]. simpl. lia.
      * rewrite length_app, Hcount, Hseq.
        rewrite (filter_singleton_True _ li []), length_app; [reflexivity|].
        intros Hd. rewrite Forall_forall in Hdels. apply Hdels in Hd. lia.
      * exists M', dels'.
        rewrite filter_cons_True by assumption.
        assert (EF : filter (fun y => y ∉ names ++ [derived_name tok])
                       (first_occurrences (derived rest))
                   = filter (fun y => y ∉ names)
                       (filter (fun y => y <> derived_name tok)
                          (first_occurrences (derived rest)))).
        { rewrite list_filter_filter. apply list_filter_iff. intros x.
          rewrite elem_of_app, list_elem_of_singleton. tauto. }
        rewrite EF, <- app_assoc in E, HC'. simpl in E, HC'. auto.
Qed.

Lemma square_zeros (n : nat) : square n (replicate n (replicate n 0%Q)).
Proof.
  split; [apply length_replicate|]. apply Forall_replicate, length_replicate.
Qed.

Lemma filter_not_in_nil (l : list string) : filter (fun y => y ∉ []) l = l.
Proof.
  induction l as [|a l IH]; [reflexivity|].
  rewrite filter_cons_True by apply not_elem_of_nil. rewrite IH. reflexivity.
Qed.

(** C8.  On a table whose header counts its lines and whose line number
    [k] holds [k+1] values, [parse] returns; the names are the derived
    identifiers without repetitions, each at the place of its first
    occurrence; the matrix is square of that many rows, symmetric and
    zero on the diagonal, and off the diagonal it is the mean of
    [1 - value] at [(i, j)] and at [(j, i)] of the stored values that are
    left when the rows and columns of the repeated lines are deleted. *)
Theorem parse_distinct_symmetric (lines : list (string * list Q)) :
  (forall k tok vals, lines !! k = Some (tok, vals) -> length vals = S k) ->
  exists M names loaded dels,
    parse_lines (length lines) 0 lines
      (replicate (length lines) (replicate (length lines) 0%Q)) [] []
      = Ok (loaded, names, dels) /\
    parse (length lines) lines = Ok (M, names) /\
    names = first_occurrences (derived lines) /\
    NoDup names /\ (forall x, x ∈ names <-> x ∈ derived lines) /\
    square (length names) M /\ symmetric M /\ zero_diagonal M /\
    M = symmetrize (drop_repeated dels loaded) /\
    forall i j, i < length names -> j < length names -> i <> j ->
      (mget M i j ==
       ((1 - mget (drop_repeated dels loaded) i j)
        + (1 - mget (drop_repeated dels loaded) j i)) / 2)%Q.
Proof.
  intros Hvals.
  destruct (parse_lines_ok (length lines) lines 0
              (replicate (length lines) (replicate (length lines) 0%Q)) [] [])
    as (loaded & dels & E & HM & HD & HC).
  { apply square_zeros. }
  { reflexivity. }
  { intros k tok vals Hk. rewrite (Hvals k tok vals Hk). reflexivity. }
  { constructor. }
  { reflexivity. }
  simpl in E, HC. rewrite filter_not_in_nil in E, HC.
  pose proof (square_drop_repeated (length lines) dels loaded HM) as HS.
  rewrite <- HC in HS.
  destruct (symmetrize_symmetric _ _ HS) as (S1 & S2 & S3 & S4).
  exists (symmetrize (drop_repeated dels loaded)),
         (first_occurrences (derived lines)), loaded, dels.
  split; [exact E|]. split.
  { unfold parse. rewrite E.
    destruct (decide (Forall (fun d => d < length lines) dels)); [reflexivity|contradiction]. }
  split; [reflexivity|]. split; [apply first_occurrences_NoDup|].
  split; [apply first_occurrences_elem|].
  split; [exact S1|]. split; [exact S2|]. split; [exact S3|].
  split; [reflexivity|exact S4].
Qed.

(** The theorem on a table of four lines whose third line repeats the
    identifier of the first: three names and a 3-by-3 matrix. *)
Lemma parse_distinct_symmetric_witness :
  exists M, parse 4 table4 = Ok (M, ["s1"; "s2"; "s3"]%string) /\
            square 3 M /\ symmetric M /\
            parse 4 table4 =
            Ok ([[0 # 2; 17 # 20; 15 # 20]; [17 # 20; 0 # 2; 14 # 20];
                 [15 # 20; 14 # 20; 0 # 2]]%Q, ["s1"; "s2"; "s3"]%string).
Proof.
  destruct (parse_distinct_symmetric table4)
    as (M & names & loaded & dels & _ & HP & HN & _ & _ & HS & HY & _).
  { intros [|[|[|[|k]]]] tok vals H; try discriminate; injection H as <- <-; reflexivity. }
  assert (EN : names = ["s1"; "s2"; "s3"]%string) by (rewrite HN; vm_compute; reflexivity).
  rewrite EN in HP, HS. exists M.
  split; [exact HP|]. split; [exact HS|]. split; [exact HY|].
  vm_compute. reflexivity.
Defined.

(** ** Python dicts *)

Section DICT.
Context {K V : Type} `{EqDecision K}.

Lemma dict_get_set (d : list (K * V)) (k k' : K) (v : V) :
  dict_get (dict_set k v d) k' = if decide (k' = k) then Some v else dict_get d k'.
Proof.
  induction d as [|[k0 v0] d IH]; simpl.
  - destruct (decide (k' = k)); reflexivity.
  - destruct (decide (k = k0)) as [->|Hne]; simpl.
    + destruct (decide (k' = k0)); reflexivity.
    + destruct (decide (k' = k0)) as [->|Hne'].
      * destruct (decide (k0 = k)); [congruence|reflexivity].
      * exact IH.
Qed.

Lemma dict_set_fresh (d : list (K * V)) (k : K) (v : V) :
  k ∉ d.*1 -> dict_set k v d = d ++ [(k, v)].
Proof.
  induction d as [|[k0 v0] d IH]; simpl; intros Hk; [reflexivity|].
  rewrite not_elem_of_cons in Hk. destruct Hk as [Hne Hk].
  destruct (decide (k = k0)); [contradiction|]. rewrite IH by assumption. reflexivity.
Qed.

Lemma dict_set_keys (d : list (K * V)) (k : K) (v : V) :
  (dict_set k v d).*1 = if decide (k ∈ d.*1) then d.*1 else d.*1 ++ [k].
Proof.
  induction d as [|[k0 v0] d IH]; [reflexivity|].
  cbn [dict_set]. rewrite (fmap_cons fst (k0, v0) d). cbn [fst].
  destruct (decide (k = k0)) as [->|Hne].
  - rewrite fmap_cons. cbn [fst]. rewrite decide_True by left. reflexivity.
  - rewrite fmap_cons, IH. cbn [fst]. destruct (decide (k ∈ d.*1)) as [Hin|Hnin].
    + rewrite decide_True by (right; assumption). reflexivity.
    + rewrite decide_False; [reflexivity|].
      intros H'. apply elem_of_cons in H'. tauto.
Qed.

Lemma dict_set_NoDup (d : list (K * V)) (k : K) (v : V) :
  NoDup d.*1 -> NoDup (dict_set k v d).*1.
Proof.
  intros Hd. rewrite dict_set_keys. destruct (decide (k ∈ d.*1)); [assumption|].
  apply NoDup_app. split; [assumption|]. split.
  - intros x Hx Hx'. apply list_elem_of_singleton in Hx'. subst. contradiction.
  - apply NoDup_singleton.
Qed.

End DICT.

(** ** Trees and their JSON form *)

Section ROUNDTRIP.
Context {G : Type}.
Variable Graph_to_dict : G -> json.
Variable Graph_from_dict : json -> G.

Abbreviation to_json' := (to_json Graph_to_dict).
Abbreviation from_dict' := (from_dict Graph_from_dict).
Abbreviation reread_node' := (reread_node Graph_to_dict Graph_from_dict).

Lemma Node_induction (P : Node G -> Prop) :
  (forall x d cs p g, Forall P cs -> P (mkNode x d cs p g)) ->
  forall n, P n.
Proof.
  intros Hstep. fix IH 1. intros [x d cs p g]. apply Hstep.
  induction cs as [|c cs IHcs]; constructor; [apply IH|exact IHcs].
Qed.

Lemma from_dict_to_json (n : Node G) :
  from_dict' (to_json' n) = Ok (reread_node' n).
Proof.
  induction n as [x d cs p g IH] using Node_induction.
  cbn [to_json from_dict].
  assert (Hcs :
    (fix each (cs : list json) : result (list (Node G)) :=
       match cs with
       | [] => Ok []
       | c :: cs' => n ← from_dict' c; ns ← each cs'; Ok (n :: ns)
       end) (to_json' <$> cs) = Ok (reread_node' <$> cs)).
  { induction IH as [|c cs Hc _ IHcs]; [reflexivity|].
    cbn [fmap list_fmap]. rewrite Hc, bind_Ok, IHcs, bind_Ok. reflexivity. }
  cbn. cbn in Hcs. rewrite Hcs. cbn.
  destruct d, g; cbn; try reflexivity; destruct (Graph_to_dict g); reflexivity.
Qed.

Lemma name_reread (n : Node G) : name (reread_node' n) = name n.
Proof. destruct n; reflexivity. Qed.

Lemma is_leaf_reread (n : Node G) : is_leaf (reread_node' n) = is_leaf n.
Proof.
  destruct n as [x d cs p g]. unfold is_leaf. simpl. rewrite length_fmap. reflexivity.
Qed.

Lemma postorder_reread (n : Node G) :
  postorder (reread_node' n) = reread_node' <$> postorder n.
Proof.
  induction n as [x d cs p g IH] using Node_induction.
  cbn [reread_node postorder]. rewrite fmap_app. f_equal.
  induction IH as [|c cs Hc _ IHcs]; [reflexivity|].
  cbn [fmap list_fmap concat]. rewrite fmap_app. f_equal; assumption.
Qed.

Lemma leaves_of_reread (n : Node G) :
  leaves_of (reread_node' n) = reread_node' <$> leaves_of n.
Proof.
  unfold leaves_of. rewrite postorder_reread.
  induction (postorder n) as [|m l IH]; [reflexivity|].
  cbn [fmap list_fmap]. rewrite !filter_cons, is_leaf_reread.
  destruct (decide (is_leaf m = true)); cbn [fmap list_fmap]; rewrite IH; reflexivity.
Qed.

Lemma leaf_names_reread (n : Node G) :
  name <$> leaves_of (reread_node' n) = name <$> leaves_of n.
Proof.
  rewrite leaves_of_reread, <- list_fmap_compose.
  apply list_fmap_ext. intros _ m _. apply name_reread.
Qed.

Lemma shape_reread (n : Node G) : shape (reread_node' n) = shape n.
Proof.
  induction n as [x d cs p g IH] using Node_induction.
  cbn [reread_node shape]. f_equal.
  induction IH as [|c cs Hc _ IHcs]; [reflexivity|].
  cbn [fmap list_fmap]. f_equal; assumption.
Qed.

Lemma reread_node_id (n : Node G) :
  (forall g, Graph_to_dict g <> JNull /\ Graph_from_dict (Graph_to_dict g) = g) ->
  reread_node' n = n.
Proof.
  intros HG. induction n as [x d cs p g IH] using Node_induction.
  cbn [reread_node]. f_equal.
  - induction IH as [|c cs Hc _ IHcs]; [reflexivity|].
    cbn [fmap list_fmap]. f_equal; assumption.
  - destruct g as [g|]; [|reflexivity]. simpl.
    destruct (HG g) as [Hn Hr]. rewrite <- Hr at 2.
    destruct (Graph_to_dict g); congruence.
Qed.

(** [leafs] sends every leaf name to a position that holds a leaf of that
    name. *)
Lemma leafs_dict_spec (pre L : list (Node G)) (acc : list (string * nat)) :
  (forall nm p, dict_get acc nm = Some p -> (name <$> pre ++ L) !! p = Some nm) ->
  (forall nm, nm ∈ name <$> pre -> is_Some (dict_get acc nm)) ->
  let leafs := leafs_dict (length pre) L acc in
  (forall nm p, dict_get leafs nm = Some p -> (name <$> pre ++ L) !! p = Some nm) /\
  (forall nm, nm ∈ name <$> pre ++ L -> is_Some (dict_get leafs nm)).
Proof.
  revert pre acc. induction L as [|n L IH]; intros pre acc Hpos Hdom; cbn [leafs_dict].
  - rewrite app_nil_r in *. auto.
  - assert (E : pre ++ n :: L = (pre ++ [n]) ++ L) by (rewrite <- app_assoc; reflexivity).
    assert (EL : S (length pre) = length (pre ++ [n])) by (rewrite length_app; simpl; lia).
    rewrite E, EL. apply IH.
    + intros nm p. rewrite dict_get_set. destruct (decide (nm = name n)) as [->|Hne].
      * intros [= <-]. rewrite <- E, list_lookup_fmap, lookup_app_r by lia.
        rewrite Nat.sub_diag. reflexivity.
      * intros Hg. rewrite <- E. apply Hpos. assumption.
    + intros nm. rewrite fmap_app, elem_of_app. cbn [fmap list_fmap].
      rewrite list_elem_of_singleton, dict_get_set.
      destruct (decide (nm = name n)); [eauto|]. intros [Hin|Heq]; [auto|contradiction].
Qed.

Lemma seqs_by_name_ok (L : list (Node G)) sq (acc : list (string * string)) :
  Forall (fun kv : nat * string => kv.1 < length L) sq ->
  NoDup acc.*1 -> (forall k, k ∈ acc.*1 -> k ∈ name <$> L) ->
  exists W, seqs_by_name L sq acc = Ok W /\ NoDup W.*1 /\
            (forall k, k ∈ W.*1 -> k ∈ name <$> L).
Proof.
  intros Hsq. revert acc. induction Hsq as [|[k v] sq Hk Hsq IH]; intros acc Hnd Hin.
  - exists acc. auto.
  - cbn [seqs_by_name]. simpl in Hk.
    destruct (lookup_lt_is_Some_2 L k Hk) as [n Hn].
    rewrite (index_Ok _ _ _ Hn), bind_Ok. apply IH.
    + apply dict_set_NoDup. assumption.
    + intros k'. rewrite dict_set_keys. destruct (decide (name n ∈ acc.*1)); [auto|].
      rewrite elem_of_app, list_elem_of_singleton. intros [H'| ->]; [auto|].
      apply list_elem_of_fmap. exists n. split; [reflexivity|].
      eapply list_elem_of_lookup_2, Hn.
Qed.

Lemma seqs_by_leaf_ok (leafs : list (string * nat)) (W : list (string * string))
    (acc : list (nat * string)) :
  (forall k, k ∈ W.*1 -> is_Some (dict_get leafs k)) ->
  NoDup (acc.*1 ++ (position leafs <$> W.*1)) ->
  seqs_by_leaf leafs (seqs_items W) acc = Ok (acc ++ by_position leafs W).
Proof.
  revert acc. induction W as [|[k v] W IH]; intros acc Hdom Hnd.
  - simpl. rewrite app_nil_r. reflexivity.
  - cbn [seqs_items by_position fmap list_fmap seqs_by_leaf fst snd].
    fold (seqs_items W). fold (by_position leafs W).
    destruct (Hdom k ltac:(left)) as [p Hp].
    unfold item. rewrite Hp, !bind_Ok.
    assert (Epos : position leafs k = p) by (unfold position; rewrite Hp; reflexivity).
    rewrite Epos. rewrite fmap_cons in Hnd. cbn [fst] in Hnd.
    rewrite fmap_cons, Epos in Hnd.
    rewrite dict_set_fresh.
    + rewrite IH.
      * rewrite <- app_assoc. reflexivity.
      * intros k' Hk'. apply Hdom. right. assumption.
      * rewrite fmap_app, <- app_assoc. exact Hnd.
    + apply NoDup_app in Hnd as (_ & Hd & _). intros Hin. apply (Hd p Hin). left.
Qed.

Lemma seqs_by_name_back (L : list (Node G)) (leafs : list (string * nat))
    (W acc : list (string * string)) :
  (forall k, k ∈ W.*1 ->
     exists n, L !! position leafs k = Some n /\ name n = k) ->
  NoDup (acc.*1 ++ W.*1) ->
  seqs_by_name L (by_position leafs W) acc = Ok (acc ++ W).
Proof.
  revert acc. induction W as [|[k v] W IH]; intros acc Hat Hnd.
  - simpl. rewrite app_nil_r. reflexivity.
  - cbn [by_position fmap list_fmap seqs_by_name fst snd]. fold (by_position leafs W).
    destruct (Hat k ltac:(left)) as (n & Hn & Hname).
    rewrite (index_Ok _ _ _ Hn), bind_Ok, Hname.
    rewrite fmap_cons in Hnd. cbn [fst] in Hnd.
    rewrite dict_set_fresh.
    + rewrite IH.
      * rewrite <- app_assoc. reflexivity.
      * intros k' Hk'. apply Hat. right. assumption.
      * rewrite fmap_app, <- app_assoc. exact Hnd.
    + apply NoDup_app in Hnd as (_ & Hd & _). intros Hin. apply (Hd k Hin). left.
Qed.

(** C9.  A tree with attached sequences, every one of them at a leaf of
    the tree, is written and read back: the tree that [from_json] returns
    has the nodes of the first one, with the same names, branch lengths,
    children in the same order and paths, every graph being the one that
    [Graph.from_dict] reads from what [Graph.to_dict] wrote; the dict of
    sequences by leaf name is the same; and when the graphs round-trip,
    the root is the same. *)
Theorem json_round_trip (T : Tree) (sq : list (nat * string)) :
  seqs T = Some sq ->
  Forall (fun kv : nat * string => kv.1 < length (leaves_of (root T))) sq ->
  exists (data : json) (T' : Tree) (W : list (string * string)),
    write_json Graph_to_dict T = Ok data /\
    from_json Graph_from_dict data = Ok T' /\
    root T' = reread_node' (root T) /\
    shape (root T') = shape (root T) /\
    name_seqs T = Ok W /\ name_seqs T' = Ok W /\
    ((forall g, Graph_to_dict g <> JNull /\ Graph_from_dict (Graph_to_dict g) = g) ->
     root T' = root T).
Proof.
  intros Hseqs Hkeys.
  set (L := leaves_of (root T)) in *.
  set (L' := leaves_of (reread_node' (root T))).
  assert (HN : name <$> L' = name <$> L) by apply leaf_names_reread.
  destruct (seqs_by_name_ok L sq [] Hkeys) as (W & HW & HWnd & HWin);
    [constructor|intros k Hk; inversion Hk|].
  set (leafs := leafs_dict 0 L' []).
  destruct (leafs_dict_spec [] L' []) as [Hpos Hdom];
    [intros nm p; discriminate|intros nm Hnm; inversion Hnm|].
  simpl in Hpos, Hdom. fold leafs in Hpos, Hdom.
  assert (Hat : forall k, k ∈ W.*1 ->
            exists n, L' !! position leafs k = Some n /\ name n = k).
  { intros k Hk. apply HWin in Hk. rewrite <- HN in Hk.
    destruct (Hdom k Hk) as [p Hp]. apply Hpos in Hp as Hp'.
    unfold position. rewrite Hp. simpl.
    rewrite list_lookup_fmap in Hp'.
    destruct (L' !! p) as [n|]; [|discriminate]. injection Hp' as Hp'. eauto. }
  assert (Hinj : NoDup (position leafs <$> W.*1)).
  { apply NoDup_fmap_2_strong; [|assumption]. intros k1 k2 H1 H2 E.
    destruct (Hat k1 H1) as (n1 & Hn1 & <-), (Hat k2 H2) as (n2 & Hn2 & <-).
    rewrite E in Hn1. congruence. }
  exists (JDict [("tree", to_json' (root T)); ("seqs", JDict (seqs_items W))]),
         (mkTree (reread_node' (root T)) (Some (by_position leafs W)) (Some L')), W.
  assert (HnT : name_seqs T = Ok W) by (unfold name_seqs; rewrite Hseqs; exact HW).
  split. { unfold write_json. rewrite HnT, bind_Ok. reflexivity. }
  split.
  { unfold from_json.
    replace (item [("tree", to_json' (root T)); ("seqs", JDict (seqs_items W))] "tree")
      with (Ok (A:=json) (to_json' (root T))) by reflexivity.
    rewrite bind_Ok, from_dict_to_json, bind_Ok.
    replace (item [("tree", to_json' (root T)); ("seqs", JDict (seqs_items W))] "seqs")
      with (Ok (A:=json) (JDict (seqs_items W))) by reflexivity.
    rewrite bind_Ok. fold L'. fold leafs.
    rewrite seqs_by_leaf_ok; [reflexivity| |exact Hinj].
    intros k Hk. apply Hdom. rewrite HN. apply HWin. assumption. }
  split; [reflexivity|]. split; [apply shape_reread|]. split; [exact HnT|]. split.
  { unfold name_seqs. cbn [seqs root]. fold L'.
    rewrite (seqs_by_name_back L' leafs W [] Hat); [reflexivity|exact HWnd]. }
  intros HG. apply reread_node_id. exact HG.
Qed.

End ROUNDTRIP.

(** The theorem on [tree3], whose three leaves all carry a sequence. *)
Lemma json_round_trip_witness :
  exists data T',
    write_json num_to_dict tree3 = Ok data /\
    from_json num_from_dict data = Ok T' /\
    shape (root T') = shape (root tree3) /\
    name_seqs T' = Ok [("C", "GATTACA"); ("A", "ACGT"); ("B", "TTGA")]%string.
Proof.
  destruct (json_round_trip num_to_dict num_from_dict tree3
              [(2, "GATTACA"); (0, "ACGT"); (1, "TTGA")]%string eq_refl)
    as (data & T' & W & Hw & Hr & _ & Hs & HW & HW' & _).
  { repeat constructor. }
  exists data, T'. split; [exact Hw|]. split; [exact Hr|]. split; [exact Hs|].
  rewrite HW'. rewrite <- HW. vm_compute. reflexivity.
Defined.

(** * Further properties *)

(** ** What a join and the loop return, read backwards *)

Section INVERT.
Context {G : Type}.

Lemma index_inv {A} (l : list A) (i : nat) (a : A) :
  index l i = Ok a -> l !! i = Some a.
Proof. unfold index. destruct (l !! i); [intros [= ->]; reflexivity|discriminate]. Qed.

Lemma join_inv (D : matrix) (ch : list (Node G)) (idx : nat) D' ch' idx' :
  join D ch idx = Ok (D', ch', idx') ->
  exists i j ci cj d1 d2,
    ch !! i = Some ci /\ ch !! j = Some cj /\ idx' = S idx /\
    ch' = delete j (<[i:=mkNode (node_name idx) None
                          [new_parent ci d1; new_parent cj d2] "" None]> ch).
Proof.
  unfold join. destruct (minpair (q D)) as [[[i j] qm]|]; [|discriminate].
  rewrite bind_Ok. destruct (index ch i) as [ci|] eqn:Hi; [|discriminate].
  rewrite bind_Ok. destruct (index ch j) as [cj|] eqn:Hj; [|discriminate].
  rewrite bind_Ok. destruct (pairdists D i j) as [[[d1 d2] dnew]|]; [|discriminate].
  rewrite bind_Ok. intros [= <- <- <-].
  apply index_inv in Hi, Hj.
  exists i, j, ci, cj, (if decide (i = j) then d2 else d1), d2.
  repeat (split; [assumption || reflexivity|]).
  destruct (decide (i = j)); reflexivity.
Qed.

Lemma nj_loop_inv (fuel : nat) (mtx : matrix) (ch : list (Node G)) (idx : nat)
    mtx' ch' idx' :
  nj_loop fuel mtx ch idx = Some (Ok (mtx', ch', idx')) ->
  loop_entry mtx ch idx mtx' ch' idx' /\ ~ 2 < length mtx'.
Proof.
  revert mtx ch idx. induction fuel as [|fuel IH]; intros mtx ch idx; simpl.
  - destruct (decide (2 < length mtx)); [discriminate|].
    intros [= <- <- <-]. split; [constructor|assumption].
  - destruct (decide (2 < length mtx)) as [Hgt|Hle].
    + destruct (join mtx ch idx) as [[[m1 c1] k1]|] eqn:EJ; [|discriminate].
      intros Hrun. destruct (IH _ _ _ Hrun) as [Hent Hstop]. split; [|assumption].
      clear - Hent Hgt EJ. induction Hent.
      * eapply entry_next; [constructor|assumption|exact EJ].
      * eapply entry_next; eassumption.
    + intros [= <- <- <-]. split; [constructor|assumption].
Qed.

Lemma nj_inv (s : list (Node G)) (mtx : matrix) (names : list string) T s' :
  nj s mtx names = Some (Ok (T, s')) ->
  exists mtx' idx c0 c1 rest,
    loop_entry mtx (s ++ (leaf <$> names)) 0 mtx' (c0 :: c1 :: rest) idx /\
    length mtx' = 2 /\ NoDup names /\
    s' = set_dist c0 (mget mtx' 0 1 / 2)%Q :: set_dist c1 (mget mtx' 0 1 / 2)%Q :: rest /\
    T = Tree_init s'.
Proof.
  unfold nj. destruct (decide (NoDup names)) as [Hnd|]; [|discriminate].
  destruct (nj_loop _ _ _ _) as [[[[m' c'] k']|]|] eqn:Hrun; try discriminate.
  apply nj_loop_inv in Hrun as [Hent _].
  destruct (decide (length m' = 2)) as [Hlen|]; [|discriminate].
  unfold index2, index.
  destruct (m' !! 0) as [r0|] eqn:Hr0; [|discriminate]. rewrite bind_Ok.
  destruct (r0 !! 1) as [d|] eqn:Hd; [|discriminate]. rewrite bind_Ok.
  destruct c' as [|c0 [|c1 rest]]; try discriminate.
  cbn. intros [= <- <-].
  exists m', k', c0, c1, rest.
  assert (Ed : mget m' 0 1 = d) by (unfold mget, row, qnth; rewrite Hr0; simpl; rewrite Hd; reflexivity).
  rewrite Ed. auto 10.
Qed.

End INVERT.

(** ** Branch lengths below the root children *)

Section LENGTHS.
Context {G : Type}.

Lemma postorder_below (c : Node G) : postorder c = below c ++ [c].
Proof. destruct c. reflexivity. Qed.

Lemma below_new_parent (c : Node G) (d : Q) : below (new_parent c d) = below c.
Proof. destruct c. reflexivity. Qed.

Lemma below_set_dist (c : Node G) (d : Q) : below (set_dist c d) = below c.
Proof. destruct c. reflexivity. Qed.

Lemma children_new_parent (c : Node G) (d : Q) : children (new_parent c d) = children c.
Proof. destruct c. reflexivity. Qed.

Lemma children_set_dist (c : Node G) (d : Q) : children (set_dist c d) = children c.
Proof. destruct c. reflexivity. Qed.

Lemma has_length_new_parent (c : Node G) (d : Q) : has_length (new_parent c d).
Proof.
  destruct c. unfold has_length. cbn.
  destruct (Qltb 0 d) eqn:H; eexists; split; try reflexivity.
  - apply Qltb_lt in H. lra.
  - lra.
Qed.

Lemma below_node x d (c1 c2 : Node G) p g :
  below (mkNode x d [c1; c2] p g) = postorder c1 ++ postorder c2.
Proof. unfold below. cbn. rewrite app_nil_r. reflexivity. Qed.

Lemma join_lengths_below (D : matrix) (ch : list (Node G)) (idx : nat) D' ch' idx' :
  join D ch idx = Ok (D', ch', idx') ->
  Forall (fun c => Forall has_length (below c)) ch ->
  Forall (fun c => Forall has_length (below c)) ch'.
Proof.
  intros HJ Hch.
  destruct (join_inv D ch idx D' ch' idx' HJ)
    as (i & j & ci & cj & d1 & d2 & Hci & Hcj & _ & ->).
  apply Forall_delete, Forall_insert; [assumption|].
  rewrite below_node, !postorder_below, !below_new_parent.
  rewrite Forall_lookup in Hch.
  repeat (apply Forall_app; split);
    try (eapply Hch; eassumption);
    apply Forall_singleton, has_length_new_parent.
Qed.

Lemma nj_keeps_lengths (s : list (Node G)) (mtx : matrix)
    (names : list string) (T : Tree) (s' : list (Node G)) :
  nj s mtx names = Some (Ok (T, s')) ->
  Forall (fun c => Forall has_length (below c)) s ->
  Forall (fun c => Forall has_length (below c)) (children (root T)).
Proof.
  intros Hnj Hs.
  destruct (nj_inv s mtx names T s' Hnj)
    as (m' & k' & c0 & c1 & rest & Hent & _ & _ & -> & ->).
  cbn [Tree_init root children].
  assert (H : Forall (fun c => Forall has_length (below c)) (c0 :: c1 :: rest)).
  { clear Hnj. induction Hent as [|m c k m2 c2 k2 HE IH Hgt HJ].
    - apply Forall_app. split; [assumption|].
      apply Forall_fmap, Forall_forall. intros x _. constructor.
    - eapply join_lengths_below; eassumption. }
  inversion H as [|? ? H0 H']; subst. inversion H' as [|? ? H1 Hrest]; subst.
  repeat constructor; rewrite ?below_set_dist; assumption.
Qed.

(** X1.  Whatever the matrix and the names, a call of [Tree.nj] that
    returns leaves every node below the children of the root with a branch
    length that is set and not negative, when that held of the nodes in
    the shared default list before the call. *)
Theorem nj_lengths_below_root (s : list (Node G)) (mtx : matrix)
    (names : list string) (T : Tree) (s' : list (Node G)) :
  nj s mtx names = Some (Ok (T, s')) ->
  Forall (fun c => Forall has_length (below c)) s ->
  Forall (fun c => Forall has_length (below c)) (children (root T)).
Proof. apply nj_keeps_lengths. Qed.

End LENGTHS.

(** The theorem on a first call with [five]. *)
Lemma nj_lengths_below_root_witness :
  exists (T : Tree) (s' : list (Node unit)),
    nj [] five abcde = Some (Ok (T, s')) /\
    Forall (fun c => Forall has_length (below c)) (children (root T)).
Proof.
  destruct (nj (G:=unit) [] five abcde) as [[[T s']|]|] eqn:E;
    [|vm_compute in E; discriminate..].
  exists T, s'. split; [reflexivity|].
  apply (nj_lengths_below_root [] five abcde T s' E). constructor.
Defined.

(** ** The tree of a first call *)

Section SHAPE.
Context {G : Type}.

(** The nodes of the root children after a join, up to their order. *)
Lemma bind_join {B} (f : Node G -> list B) (ch : list (Node G)) (i j : nat)
    (node ci cj : Node G) :
  i < j -> ch !! i = Some ci -> ch !! j = Some cj ->
  delete j (<[i:=node]> ch) ≫= f ≡ₚ f node ++ (delete i (delete j ch) ≫= f) /\
  ch ≫= f ≡ₚ f ci ++ f cj ++ (delete i (delete j ch) ≫= f).
Proof.
  intros Hij Hci Hcj.
  assert (Hci' : delete j ch !! i = Some ci)
    by (rewrite list_lookup_delete_lt by assumption; assumption).
  split.
  - rewrite delete_insert_lt by assumption.
    rewrite (insert_Permutation _ _ _ _ Hci'), bind_cons. reflexivity.
  - rewrite (delete_Permutation ch j cj Hcj) at 1.
    rewrite (delete_Permutation (delete j ch) i ci Hci') at 1.
    rewrite !bind_cons, !app_assoc.
    apply Permutation_app_tail, Permutation_app_comm.
Qed.

Lemma binary_new_parent (c : Node G) (d : Q) :
  binary_node c -> binary_node (new_parent c d).
Proof. unfold binary_node. rewrite children_new_parent. auto. Qed.

Lemma postorder_joined (D : matrix) (i j idx : nat) (ci cj : Node G) :
  postorder (joined D i j idx ci cj) =
  (below ci ++ [new_parent ci (correct (rawdists D i j)).1]) ++
  (below cj ++ [new_parent cj (correct (rawdists D i j)).2]) ++
  [joined D i j idx ci cj].
Proof.
  rewrite postorder_below. unfold joined at 1. rewrite below_node.
  rewrite !postorder_below, !below_new_parent, <- app_assoc. reflexivity.
Qed.

(** Along the loop of a run on an n-by-n matrix, the root children hold
    as many nodes as they did at the first entry plus one for each join,
    and all of them have no child or two when those of the first entry
    do. *)
Lemma loop_entry_nodes (n e : nat) (mtx0 : matrix) (ch0 : list (Node G)) (idx0 : nat)
    mtx ch idx :
  square n mtx0 -> length ch0 = n + e ->
  loop_entry mtx0 ch0 idx0 mtx ch idx ->
  length (forest_nodes ch) + idx0 = length (forest_nodes ch0) + idx /\
  (Forall binary_node (forest_nodes ch0) -> Forall binary_node (forest_nodes ch)).
Proof.
  intros HD Hch HE. induction HE as [|m c k m' c' k' HE IH Hgt HJ]; [auto|].
  destruct IH as [IL IB].
  destruct (loop_entry_invariant n e mtx0 ch0 idx0 m c k HD Hch HE) as (Hsq & Hlen & _).
  destruct (join_square (length m) m c k Hsq ltac:(lia) ltac:(lia))
    as (i & j & x & ci & cj & _ & Hij & Hj & Hci & Hcj & E).
  rewrite E in HJ. injection HJ as <- <- <-.
  destruct (bind_join postorder c i j (joined m i j k ci cj) ci cj Hij Hci Hcj)
    as [P1 P2].
  unfold forest_nodes in *. split.
  - rewrite (Permutation_length P1). rewrite (Permutation_length P2) in IL.
    rewrite postorder_joined. rewrite !postorder_below in IL.
    rewrite !length_app in *. simpl in *. lia.
  - intros H0. specialize (IB H0). rewrite P1. rewrite P2 in IB.
    rewrite postorder_joined. rewrite !postorder_below in IB.
    rewrite !Forall_app in *. rewrite !Forall_singleton in *.
    destruct IB as ((Bi & Hi) & (Bj & Hj') & Brest).
    repeat split; try assumption; try (apply binary_new_parent; assumption).
    right. reflexivity.
Qed.

Lemma forest_nodes_leaf (names : list string) :
  forest_nodes (leaf (G:=G) <$> names) = leaf <$> names.
Proof.
  unfold forest_nodes. induction names as [|x names IH]; [reflexivity|].
  cbn [fmap list_fmap]. rewrite bind_cons, IH. reflexivity.
Qed.

Lemma nj_fresh_nodes (mtx : matrix) (names : list string) (n : nat) :
  NoDup names -> square n mtx -> length names = n -> 2 <= n ->
  exists (T : Tree) (s : list (Node G)),
    nj [] mtx names = Some (Ok (T, s)) /\
    length (postorder (root T)) = 2 * n - 1 /\
    Forall binary_node (postorder (root T)) /\
    Forall (fun m => dist m <> None) (postorder (root T)).
Proof.
  intros Hnd HD Hnames Hn.
  destruct (nj_fresh_root (G:=G) mtx names n Hnd HD Hnames Hn)
    as (m' & k' & c0 & c1 & Hent & Hlen & Hnj).
  assert (Hch : length (leaf (G:=G) <$> names) = n + 0)
    by (rewrite length_fmap; lia).
  destruct (loop_entry_invariant n 0 mtx _ 0 m' [c0; c1] k' HD Hch Hent) as (_ & _ & Hk).
  destruct (loop_entry_nodes n 0 mtx _ 0 m' [c0; c1] k' HD Hch Hent) as [HL HB].
  rewrite forest_nodes_leaf, length_fmap in HL.
  assert (HB' : Forall binary_node (forest_nodes [c0; c1])).
  { apply HB. rewrite forest_nodes_leaf. apply Forall_fmap, Forall_forall.
    intros x _. left. reflexivity. }
  assert (Hdeep : Forall (fun c => Forall has_length (below c))
                    (children (root (Tree_init
                       [set_dist c0 (mget m' 0 1 / 2)%Q; set_dist c1 (mget m' 0 1 / 2)%Q])))).
  { eapply nj_keeps_lengths; [exact Hnj|constructor]. }
  eexists _, _. split; [exact Hnj|].
  cbn [Tree_init root children] in *.
  unfold forest_nodes in HL, HB'. cbn in HL, HB'. rewrite app_nil_r in HL, HB'.
  rewrite postorder_below. unfold below. cbn [children fmap list_fmap concat].
  rewrite app_nil_r, !postorder_below, !below_set_dist.
  rewrite !postorder_below in HL, HB'.
  inversion Hdeep as [|? ? D0 Hd']; subst. inversion Hd' as [|? ? D1 _]; subst.
  rewrite below_set_dist in D0, D1.
  rewrite !length_app in *. simpl in *.
  rewrite !Forall_app in *. rewrite !Forall_singleton in *.
  destruct HB' as ((B0 & H0) & B1 & H1).
  split; [lia|]. split.
  - repeat split; try assumption.
    + unfold binary_node in *. rewrite children_set_dist. assumption.
    + unfold binary_node in *. rewrite children_set_dist. assumption.
    + right. reflexivity.
  - assert (Hsome : forall l : list (Node G),
              Forall has_length l -> Forall (fun m => dist m <> None) l).
    { intros l Hl. eapply Forall_impl; [exact Hl|].
      intros m (d & E & _). rewrite E. discriminate. }
    repeat split; try (apply Hsome; assumption);
      try (destruct c0; discriminate); try (destruct c1; discriminate); discriminate.
Qed.

(** X2.  A call of [Tree.nj] on an n-by-n matrix and n distinct names,
    n >= 2, that finds the shared default list empty returns a tree of
    [2n - 1] nodes in which every node has no child or two and every node
    has a branch length. *)
Theorem nj_fresh_binary (mtx : matrix) (names : list string) (n : nat) :
  NoDup names -> square n mtx -> length names = n -> 2 <= n ->
  exists (T : Tree) (s : list (Node G)),
    nj [] mtx names = Some (Ok (T, s)) /\
    length (postorder (root T)) = 2 * n - 1 /\
    Forall binary_node (postorder (root T)) /\
    Forall (fun m => dist m <> None) (postorder (root T)).
Proof. apply nj_fresh_nodes. Qed.

End SHAPE.

(** The theorem on [five]: a tree of nine nodes. *)
Lemma nj_fresh_binary_witness :
  exists (T : Tree) (s : list (Node unit)),
    nj [] five abcde = Some (Ok (T, s)) /\ length (postorder (root T)) = 9.
Proof.
  destruct (nj_fresh_binary (G:=unit) five abcde 5)
    as (T & s & Hnj & Hlen & _).
  - apply (bool_decide_unpack _). vm_compute. exact I.
  - split; [reflexivity|repeat constructor].
  - reflexivity.
  - lia.
  - exists T, s. split; [exact Hnj|exact Hlen].
Defined.

(** ** Names and rows that do not match *)

Section MISMATCH.
Context {G : Type}.

(** With two rows or fewer the loop is not entered. *)
Lemma nj_loop_stop (fuel : nat) (mtx : matrix) (ch : list (Node G)) (idx : nat) :
  length mtx <= 2 -> nj_loop fuel mtx ch idx = Some (Ok (mtx, ch, idx)).
Proof.
  intros H. destruct fuel; simpl; destruct (decide (2 < length mtx)); (lia || reflexivity).
Qed.

(** With fewer root children than rows, a join fails on a child index or
    leaves one row and one root child fewer. *)
Lemma join_short (n : nat) (D : matrix) (ch : list (Node G)) (idx : nat) :
  square n D -> 3 <= n -> length ch < n ->
  join D ch idx = Err IndexError \/
  exists D' ch',
    join D ch idx = Ok (D', ch', S idx) /\
    square (n - 1) D' /\ length ch' = length ch - 1.
Proof.
  intros HS Hn HC.
  destruct (minpair_ordered n D HS ltac:(lia)) as (i & j & x & Hm & Hij & Hj).
  unfold join. rewrite Hm, bind_Ok.
  destruct (index ch i) as [ci|e] eqn:Hci.
  2:{ left. unfold index in Hci. destruct (ch !! i); [discriminate|].
      injection Hci as <-. reflexivity. }
  rewrite bind_Ok.
  destruct (index ch j) as [cj|e] eqn:Hcj.
  2:{ left. unfold index in Hcj. destruct (ch !! j); [discriminate|].
      injection Hcj as <-. reflexivity. }
  rewrite bind_Ok, (pairdists_square n) by (assumption || lia).
  rewrite bind_Ok. right. eexists _, _. split; [reflexivity|].
  split; [apply (square_reduced n D i j); assumption || lia|].
  apply index_inv in Hcj.
  rewrite length_delete, length_insert; [lia|].
  apply lookup_lt_is_Some. rewrite length_insert.
  eapply lookup_lt_Some, Hcj.
Qed.

(** With fewer root children than rows, the loop fails on a child index
    or ends with fewer than two root children. *)
Lemma nj_loop_short (fuel : nat) (mtx : matrix) (ch : list (Node G)) (idx : nat) :
  square (length mtx) mtx -> length ch < length mtx -> 2 <= length mtx ->
  length mtx - 2 <= fuel ->
  nj_loop fuel mtx ch idx = Some (Err IndexError) \/
  exists mtx' ch' idx',
    nj_loop fuel mtx ch idx = Some (Ok (mtx', ch', idx')) /\
    square 2 mtx' /\ length ch' < 2.
Proof.
  revert mtx ch idx.
  induction fuel as [|fuel IH]; intros mtx ch idx HS HC H2 HF; simpl.
  - destruct (decide (2 < length mtx)); [lia|]. right.
    exists mtx, ch, idx. replace 2 with (length mtx) at 1 by lia.
    split; [reflexivity|]. split; [assumption|lia].
  - destruct (decide (2 < length mtx)) as [Hgt|Hle].
    + destruct (join_short (length mtx) mtx ch idx HS ltac:(lia) HC)
        as [E|(D' & ch' & E & HS' & HC')]; rewrite E; [left; reflexivity|].
      pose proof (proj1 HS') as HL.
      apply IH; rewrite ?HL; [exact HS'|lia|lia|lia].
    + right. exists mtx, ch, idx. replace 2 with (length mtx) at 1 by lia.
      split; [reflexivity|]. split; [assumption|lia].
Qed.

Lemma nj_short_of_children (s : list (Node G)) (mtx : matrix) (names : list string)
    (n : nat) :
  NoDup names -> square n mtx -> 2 <= n -> length s + length names < n ->
  nj s mtx names = Some (Err IndexError).
Proof.
  intros Hnd HD Hn Hshort. pose proof (proj1 HD) as HL. unfold nj.
  destruct (decide (NoDup names)); [|contradiction].
  destruct (nj_loop_short (length mtx) mtx (s ++ (leaf <$> names)) 0)
    as [E|(m' & ch' & k' & E & HS' & Hch')].
  - rewrite HL. assumption.
  - rewrite length_app, length_fmap. lia.
  - lia.
  - lia.
  - rewrite E. reflexivity.
  - rewrite E. destruct (decide (length m' = 2)) as [_|Hne]; [|destruct HS'; contradiction].
    unfold index2.
    destruct (square_row 2 m' 0 HS' ltac:(lia)) as [Hr0 _].
    rewrite (index_Ok _ _ _ Hr0), bind_Ok.
    rewrite (index_Ok _ _ _ (square_entry 2 m' 0 1 HS' ltac:(lia) ltac:(lia))), bind_Ok.
    destruct ch' as [|c0 [|c1 rest]]; simpl in Hch'; [reflexivity|reflexivity|lia].
Qed.

(** X3.  On an n-by-n matrix, n >= 2, with distinct names, a call of
    [Tree.nj] that has fewer than n root children to work on (those of the
    shared default list and the new leaves) raises [IndexError]: the
    number of names is not compared with the size of the matrix
    beforehand. *)
Theorem nj_too_few_names (s : list (Node G)) (mtx : matrix) (names : list string)
    (n : nat) :
  NoDup names -> square n mtx -> 2 <= n -> length s + length names < n ->
  nj s mtx names = Some (Err IndexError).
Proof. apply nj_short_of_children. Qed.

(** X4.  On an n-by-n matrix, n >= 2, with distinct names, a call of
    [Tree.nj] that has at least n root children to work on returns, and
    the root of its tree has two children more than it had root children
    in excess of n: surplus names, and what the shared default list held,
    stay under the root. *)
Theorem nj_surplus_children (s : list (Node G)) (mtx : matrix) (names : list string)
    (n e : nat) :
  NoDup names -> square n mtx -> 2 <= n -> length s + length names = n + e ->
  exists (T : Tree) (s' : list (Node G)),
    nj s mtx names = Some (Ok (T, s')) /\
    children (root T) = s' /\ length s' = 2 + e.
Proof.
  intros Hnd HD Hn Hlen. pose proof (proj1 HD) as HL.
  assert (Hch : length (s ++ (leaf (G:=G) <$> names)) = n + e)
    by (rewrite length_app, length_fmap; assumption).
  destruct (nj_loop_runs (length mtx) mtx (s ++ (leaf <$> names)) 0)
    as (m' & c' & k' & Hrun & Hent & Hlen').
  { rewrite HL. assumption. }
  { lia. }
  { lia. }
  assert (Hlen2 : length m' = 2) by lia.
  destruct (loop_entry_invariant n e mtx _ 0 m' c' k' HD Hch Hent) as (HS' & HC' & _).
  rewrite Hlen2 in HS', HC'.
  destruct c' as [|c0 [|c1 rest]]; simpl in HC'; try lia.
  unfold nj. destruct (decide (NoDup names)); [|contradiction].
  rewrite Hrun. destruct (decide (length m' = 2)); [|contradiction].
  unfold index2.
  destruct (square_row 2 m' 0 HS' ltac:(lia)) as [Hr0 _].
  rewrite (index_Ok _ _ _ Hr0), bind_Ok.
  rewrite (index_Ok _ _ _ (square_entry 2 m' 0 1 HS' ltac:(lia) ltac:(lia))), bind_Ok.
  cbn. eexists _, _. split; [reflexivity|]. split; [reflexivity|]. simpl. lia.
Qed.

(** X5.  A matrix of fewer than two rows makes [Tree.nj] raise
    [AssertionError], whatever the names: the loop is not entered and
    [assert mtx.shape[0] == 2] fails. *)
Theorem nj_needs_two_rows (s : list (Node G)) (mtx : matrix) (names : list string) :
  length mtx < 2 -> nj s mtx names = Some (Err AssertionError).
Proof.
  intros Hlen. unfold nj. destruct (decide (NoDup names)); [|reflexivity].
  rewrite nj_loop_stop by lia.
  destruct (decide (length mtx = 2)); [lia|reflexivity].
Qed.

(** X6.  The loop of [Tree.nj] on an n-by-n matrix, n >= 2, with at least
    n root children ends after exactly [n - 2] joins, with two rows left
    and [n - 2] root children fewer. *)
Theorem nj_loop_joins (mtx : matrix) (ch : list (Node G)) (idx n : nat) :
  square n mtx -> 2 <= n -> n <= length ch ->
  exists mtx' ch',
    nj_loop n mtx ch idx = Some (Ok (mtx', ch', idx + (n - 2))) /\
    square 2 mtx' /\ length ch' + (n - 2) = length ch.
Proof.
  intros HD Hn Hch. pose proof (proj1 HD) as HL.
  destruct (nj_loop_runs n mtx ch idx) as (m' & c' & k' & Hrun & Hent & Hlen');
    [rewrite HL; assumption|lia|lia|].
  destruct (loop_entry_invariant n (length ch - n) mtx ch idx m' c' k' HD ltac:(lia) Hent)
    as (HS' & HC' & Hk).
  assert (Hlen2 : length m' = 2) by lia. rewrite Hlen2 in *.
  assert (Ek : k' = idx + (n - 2)) by lia. subst k'.
  exists m', c'. split; [exact Hrun|]. split; [exact HS'|lia].
Qed.

End MISMATCH.

(** Two names for the 3-by-3 matrix [far12]. *)
Lemma nj_too_few_names_witness :
  nj (G:=unit) [] far12 ["A"; "B"]%string = Some (Err IndexError).
Proof.
  apply (nj_too_few_names [] far12 ["A"; "B"]%string 3).
  - apply (bool_decide_unpack _). vm_compute. exact I.
  - apply square3.
  - lia.
  - simpl. lia.
Defined.

(** Five names for the 3-by-3 matrix [far12]: a root with four children. *)
Lemma nj_surplus_children_witness :
  exists (T : Tree) (s' : list (Node unit)),
    nj [] far12 abcde = Some (Ok (T, s')) /\ length (children (root T)) = 4.
Proof.
  destruct (nj_surplus_children (G:=unit) [] far12 abcde 3 2)
    as (T & s' & Hnj & Hc & Hl).
  - apply (bool_decide_unpack _). vm_compute. exact I.
  - apply square3.
  - lia.
  - reflexivity.
  - exists T, s'. split; [exact Hnj|]. rewrite Hc. exact Hl.
Defined.

(** A matrix of one row. *)
Lemma nj_needs_two_rows_witness :
  nj (G:=unit) [] [[0%Q]] ["A"]%string = Some (Err AssertionError).
Proof. apply nj_needs_two_rows. simpl. lia. Defined.

(** The loop on [five]: three joins. *)
Lemma nj_loop_joins_witness :
  exists mtx' (ch' : list (Node unit)),
    nj_loop 5 five (leaf <$> abcde) 0 = Some (Ok (mtx', ch', 3)) /\ length ch' = 2.
Proof.
  destruct (nj_loop_joins (G:=unit) five (leaf <$> abcde) 0 5)
    as (m' & c' & Hrun & _ & Hlen).
  - split; [reflexivity|repeat constructor].
  - lia.
  - simpl. lia.
  - exists m', c'. split; [exact Hrun|]. simpl in Hlen. lia.
Defined.

(** ** What a run keeps *)

Section KEPT.
Context {G : Type}.

(** X7.  On an n-by-n matrix, n >= 2, with distinct names and at least n
    root children to work on, the leaves of the tree that [Tree.nj]
    returns are the leaves found under the shared default list together
    with the given names, each as often as there: no join loses or
    repeats a leaf. *)
Theorem nj_leaves_kept (s : list (Node G)) (mtx : matrix) (names : list string)
    (n e : nat) :
  NoDup names -> square n mtx -> 2 <= n -> length s + length names = n + e ->
  exists (T : Tree) (s' : list (Node G)),
    nj s mtx names = Some (Ok (T, s')) /\
    name <$> leaves_of (root T) ≡ₚ leaf_names s ++ names.
Proof.
  intros Hnd HD Hn Hlen. pose proof (proj1 HD) as HL.
  assert (Hch : length (s ++ (leaf (G:=G) <$> names)) = n + e)
    by (rewrite length_app, length_fmap; assumption).
  destruct (nj_loop_runs (length mtx) mtx (s ++ (leaf <$> names)) 0)
    as (m' & c' & k' & Hrun & Hent & Hlen');
    [rewrite HL; assumption|lia|lia|].
  assert (Hlen2 : length m' = 2) by lia.
  destruct (loop_entry_invariant n e mtx _ 0 m' c' k' HD Hch Hent) as (HS' & HC' & _).
  rewrite Hlen2 in HS', HC'.
  destruct c' as [|c0 [|c1 rest]]; simpl in HC'; try lia.
  unfold nj. destruct (decide (NoDup names)); [|contradiction].
  rewrite Hrun. destruct (decide (length m' = 2)); [|contradiction].
  unfold index2.
  destruct (square_row 2 m' 0 HS' ltac:(lia)) as [Hr0 _].
  rewrite (index_Ok _ _ _ Hr0), bind_Ok.
  rewrite (index_Ok _ _ _ (square_entry 2 m' 0 1 HS' ltac:(lia) ltac:(lia))), bind_Ok.
  cbn. eexists _, _. split; [reflexivity|].
  cbn [Tree_init root]. rewrite leaf_names_node.
  rewrite decide_False by discriminate. rewrite app_nil_r.
  rewrite !leaf_names_cons, !leaf_names_set_dist, <- !leaf_names_cons.
  rewrite (loop_entry_leaves n e mtx _ 0 m' _ k' HD Hch Hent).
  unfold leaf_names at 1. rewrite bind_app. fold (leaf_names s).
  fold (leaf_names (leaf (G:=G) <$> names)). rewrite leaf_names_leaf. reflexivity.
Qed.

(** X8.  On a square matrix that is symmetric with a zero diagonal, the
    matrix is again square, symmetric and of zero diagonal each time the
    guard of the loop of [Tree.nj] is evaluated: a join keeps all
    three. *)
Theorem nj_matrix_stays_symmetric (n e : nat) (mtx0 : matrix) (ch0 : list (Node G))
    (idx0 : nat) mtx ch idx :
  square n mtx0 -> symmetric mtx0 -> zero_diagonal mtx0 -> length ch0 = n + e ->
  loop_entry mtx0 ch0 idx0 mtx ch idx ->
  square (length mtx) mtx /\ symmetric mtx /\ zero_diagonal mtx.
Proof.
  intros HD HSy HZ Hch Hent.
  destruct (loop_entry_invariant n e mtx0 ch0 idx0 mtx ch idx HD Hch Hent) as (HS' & _).
  destruct (loop_entry_symmetric n e mtx0 ch0 idx0 mtx ch idx HD HSy Hch Hent) as [H1 H2].
  auto.
Qed.

End KEPT.

(** Five names for the 3-by-3 matrix [far12]. *)
Lemma nj_leaves_kept_witness :
  exists (T : Tree) (s' : list (Node unit)),
    nj [] far12 abcde = Some (Ok (T, s')) /\
    name <$> leaves_of (root T) ≡ₚ abcde.
Proof.
  destruct (nj_leaves_kept (G:=unit) [] far12 abcde 3 2)
    as (T & s' & Hnj & Hl).
  - apply (bool_decide_unpack _). vm_compute. exact I.
  - apply square3.
  - lia.
  - reflexivity.
  - exists T, s'. split; [exact Hnj|exact Hl].
Defined.

Lemma five_zero_diagonal : zero_diagonal five.
Proof.
  intros [|[|[|[|[|i]]]]] Hi; first [reflexivity | simpl in Hi; lia].
Qed.

(** The matrix of a run on [five] after the first join. *)
Lemma nj_matrix_stays_symmetric_witness :
  exists mtx (ch : list (Node unit)) idx,
    loop_entry five (leaf <$> abcde) 0 mtx ch idx /\ length mtx = 4 /\
    square (length mtx) mtx /\ symmetric mtx /\ zero_diagonal mtx.
Proof.
  assert (Hent : exists mtx (ch : list (Node unit)) idx,
             loop_entry five (leaf <$> abcde) 0 mtx ch idx /\ length mtx = 4).
  { eexists _, _, _. split.
    - eapply entry_next; [constructor|simpl; lia|vm_compute; reflexivity].
    - reflexivity. }
  destruct Hent as (mtx & ch & idx & Hent & Hlen).
  exists mtx, ch, idx. split; [exact Hent|]. split; [exact Hlen|].
  apply (nj_matrix_stays_symmetric (G:=unit) 5 0 five (leaf <$> abcde) 0 mtx ch idx).
  - apply five_square.
  - apply five_symmetric.
  - apply five_zero_diagonal.
  - reflexivity.
  - exact Hent.
Defined.

(** ** [to_list] *)

Lemma to_list_square (n : nat) (D : matrix) :
  square n D -> to_list D = Ok (imap (fun k r => take (S k) r) D).
Proof.
  intros HD. unfold to_list. destruct (decide (length D = ncols D)) as [|N]; [reflexivity|].
  exfalso. apply N. destruct (decide (0 < n)).
  - rewrite (square_ncols n D HD) by assumption. apply HD.
  - destruct HD as [HL _]. destruct D; [reflexivity|simpl in HL; lia].
Qed.

Lemma to_list_row (n : nat) (D : matrix) (k : nat) :
  square n D -> k < n ->
  imap (fun k r => take (S k) r) D !! k = Some (take (S k) (row D k)).
Proof.
  intros HD Hk. rewrite list_lookup_imap.
  rewrite (proj1 (square_row n D k HD Hk)). reflexivity.
Qed.

(** X9.  On an n-by-n matrix [to_list] returns n rows; row number [k] has
    [k + 1] entries, the entries of row [k] of the matrix up to the
    diagonal. *)
Theorem to_list_lower_triangle (n : nat) (D : matrix) :
  square n D ->
  exists L, to_list D = Ok L /\ length L = n /\
    forall k, k < n ->
      exists r, L !! k = Some r /\ length r = S k /\
        forall j, j <= k -> r !! j = Some (mget D k j).
Proof.
  intros HD. eexists. split; [apply (to_list_square n D HD)|].
  split; [rewrite length_imap; apply HD|].
  intros k Hk. eexists. split; [apply (to_list_row n D k HD Hk)|].
  destruct (square_row n D k HD Hk) as [_ Hlen].
  split; [rewrite length_take; lia|].
  intros j Hj. rewrite lookup_take_lt by lia.
  apply (square_entry n D k j HD); lia.
Qed.

(** X10.  Two symmetric n-by-n matrices of which [to_list] returns the
    same list agree in every entry: the list keeps all that a symmetric
    matrix holds. *)
Theorem to_list_determines_symmetric (n : nat) (A B : matrix) :
  square n A -> square n B -> symmetric A -> symmetric B ->
  to_list A = to_list B ->
  forall i j, (mget A i j == mget B i j)%Q.
Proof.
  intros HA HB SA SB E.
  rewrite (to_list_square n A HA), (to_list_square n B HB) in E.
  injection E as E.
  assert (Low : forall i j, i < n -> j <= i -> mget A i j = mget B i j).
  { intros i j Hi Hj.
    pose proof (to_list_row n A i HA Hi) as RA.
    pose proof (to_list_row n B i HB Hi) as RB.
    rewrite E, RB in RA. injection RA as RA.
    assert (Hj' : take (S i) (row B i) !! j = take (S i) (row A i) !! j)
      by (rewrite RA; reflexivity).
    rewrite !lookup_take_lt in Hj' by lia.
    rewrite (square_entry n A i j HA), (square_entry n B i j HB) in Hj' by lia.
    injection Hj' as ->. reflexivity. }
  intros i j.
  destruct (decide (i < n)); [destruct (decide (j < n))|].
  - destruct (decide (j <= i)).
    + rewrite (Low i j) by assumption. reflexivity.
    + rewrite (SA i j), (SB i j), (Low j i) by lia. reflexivity.
  - rewrite (mget_out_of_range n A i j), (mget_out_of_range n B i j) by (assumption || lia).
    reflexivity.
  - rewrite (mget_out_of_range n A i j), (mget_out_of_range n B i j) by (assumption || lia).
    reflexivity.
Qed.

(** The lower triangle of [far12]. *)
Lemma to_list_lower_triangle_witness :
  exists L, to_list far12 = Ok L /\ length L = 3 /\
    forall k, k < 3 ->
      exists r, L !! k = Some r /\ length r = S k /\
        forall j, j <= k -> r !! j = Some (mget far12 k j).
Proof. apply (to_list_lower_triangle 3 far12). apply square3. Defined.

(** [far12] and a matrix that writes one entry above the diagonal as
    another fraction of the same value. *)
Lemma to_list_determines_symmetric_witness :
  (mget far12 0 1 == mget [[0; 2 # 2; 1]; [1; 0; 5]; [1; 5; 0]]%Q 0 1)%Q /\
  (mget far12 1 2 == mget [[0; 2 # 2; 1]; [1; 0; 5]; [1; 5; 0]]%Q 1 2)%Q.
Proof.
  assert (H : forall i j,
            (mget far12 i j == mget [[0; 2 # 2; 1]; [1; 0; 5]; [1; 5; 0]]%Q i j)%Q).
  { apply (to_list_determines_symmetric 3 far12 [[0; 2 # 2; 1]; [1; 0; 5]; [1; 5; 0]]%Q).
    - apply square3.
    - apply square3.
    - apply far12_symmetric.
    - intros [|[|[|i]]] [|[|[|j]]]; vm_compute; reflexivity.
    - reflexivity. }
  split; apply H.
Defined.

(** ** Newick output *)

Section NEWICK.
Context {G : Type}.
Variable fmt6 : Q -> string.

Abbreviation to_nwk' := (to_nwk (G:=G) fmt6).
Abbreviation nwk_children' := (nwk_children (G:=G) fmt6).

(** Every node of a list has a branch length. *)
Abbreviation all_set := (Forall (fun m : Node G => dist m <> None)).

Lemma to_nwk_node x d (cs : list (Node G)) p g (w : list string) :
  to_nwk' (mkNode x d cs p g) w =
  let finish (w : list string) : list string * result unit :=
    match d with
    | Some y => (w ++ [x; ":"%string; fmt6 y], Ok ())
    | None => (w ++ [x; ":"%string], Err TypeError)
    end in
  match cs with
  | [] => finish w
  | _ =>
      match nwk_children' 0 cs (w ++ ["("%string]) with
      | (w', Ok _) => finish (w' ++ [")"%string])
      | (w', Err e) => (w', Err e)
      end
  end.
Proof. destruct cs; reflexivity. Qed.

Lemma nwk_children_outcome (cs : list (Node G)) :
  Forall (fun c => forall w, nwk_outcome (postorder c) (to_nwk' c w)) cs ->
  forall i w, nwk_outcome (concat (postorder <$> cs)) (nwk_children' i cs w).
Proof.
  induction 1 as [|c cs Hc _ IH]; intros i w.
  - left. split; [constructor|reflexivity].
  - cbn [nwk_children fmap list_fmap concat].
    destruct (Hc (if decide (0 < i) then w ++ [","%string] else w)) as [[Ha E]|[Ha E]];
      destruct (to_nwk' c _) as [w' [[]|e]]; simpl in E; try discriminate.
    + destruct (IH (S i) w') as [[Hb E']|[Hb E']]; [left|right].
      * split; [apply Forall_app; auto|assumption].
      * split; [|assumption]. rewrite Forall_app. tauto.
    + injection E as ->. right. split; [|reflexivity]. rewrite Forall_app. tauto.
Qed.

Lemma to_nwk_outcome (n : Node G) (w : list string) :
  nwk_outcome (postorder n) (to_nwk' n w).
Proof.
  revert w. induction n as [x d cs p g IH] using Node_induction. intros w.
  rewrite to_nwk_node. cbn [postorder]. cbv zeta.
  assert (Hfin : forall w', all_set (concat (postorder <$> cs)) ->
            nwk_outcome (concat (postorder <$> cs) ++ [mkNode x d cs p g])
              match d with
              | Some y => (w' ++ [x; ":"%string; fmt6 y], Ok ())
              | None => (w' ++ [x; ":"%string], Err TypeError)
              end).
  { intros w' Hcs. destruct d as [y|]; [left|right].
    - split; [|reflexivity]. apply Forall_app. split; [assumption|].
      apply Forall_singleton. discriminate.
    - split; [|reflexivity]. rewrite Forall_app, Forall_singleton. simpl. tauto. }
  destruct cs as [|c cs']; [apply Hfin; constructor|].
  destruct (nwk_children_outcome (c :: cs') IH 0 (w ++ ["("%string])) as [[Ha E]|[Ha E]];
    destruct (nwk_children' 0 (c :: cs') _) as [w' [[]|e]]; simpl in E; try discriminate.
  - apply Hfin, Ha.
  - injection E as ->. right. split; [|reflexivity]. rewrite Forall_app. tauto.
Qed.

(** X11.  [Node.to_nwk] returns when every node of the tree under the node
    has a branch length, and only then; when it raises, it raises
    [TypeError], from formatting the [None] of a node without one. *)
Theorem to_nwk_needs_lengths (n : Node G) (w : list string) :
  ((to_nwk fmt6 n w).2 = Ok () <-> Forall (fun m => dist m <> None) (postorder n)) /\
  ((to_nwk fmt6 n w).2 = Ok () \/ (to_nwk fmt6 n w).2 = Err TypeError).
Proof.
  destruct (to_nwk_outcome n w) as [[Ha E]|[Ha E]]; rewrite E.
  - split; [tauto|left; reflexivity].
  - split; [|right; reflexivity]. split; [discriminate|contradiction].
Qed.

(** X12.  The tree that [Tree.nj] returns on an n-by-n matrix and n
    distinct names, n >= 2, when it finds the shared default list empty,
    can be written: [Tree.write_nwk] returns, and the last string it
    writes is [";"]. *)
Theorem nj_fresh_write_nwk (mtx : matrix) (names : list string) (n : nat)
    (w : list string) :
  NoDup names -> square n mtx -> length names = n -> 2 <= n ->
  exists (T : Tree) (s : list (Node G)) (w' : list string),
    nj [] mtx names = Some (Ok (T, s)) /\
    write_nwk fmt6 T w = (w' ++ [";"%string], Ok ()).
Proof.
  intros Hnd HD Hnames Hn.
  destruct (nj_fresh_nodes (G:=G) mtx names n Hnd HD Hnames Hn)
    as (T & s & Hnj & _ & _ & Hset).
  exists T, s. unfold write_nwk.
  destruct (to_nwk_outcome (root T) w) as [[_ E]|[Ha _]]; [|contradiction].
  destruct (to_nwk' (root T) w) as [w' [[]|e]]; simpl in E; [|discriminate].
  exists w'. split; [exact Hnj|reflexivity].
Qed.

(** The root children beyond the rows of the matrix are not touched by
    the loop. *)
Lemma drop_delete_le {A} (l : list A) (j k : nat) :
  j <= k -> drop k (delete j l) = drop (S k) l.
Proof.
  revert j k. induction l as [|x l IH]; intros j k Hjk.
  - destruct j; cbn [delete list_delete]; rewrite !drop_nil; reflexivity.
  - destruct j as [|j]; [reflexivity|].
    destruct k as [|k]; [lia|]. cbn [delete list_delete]. simpl. apply IH. lia.
Qed.

Lemma loop_entry_tail (n e : nat) (mtx0 : matrix) (ch0 : list (Node G)) (idx0 : nat)
    mtx ch idx :
  square n mtx0 -> length ch0 = n + e ->
  loop_entry mtx0 ch0 idx0 mtx ch idx ->
  drop (length mtx) ch = drop n ch0.
Proof.
  intros HD Hch Hent. induction Hent as [|m c k m2 c2 k2 HE IH Hgt HJ].
  - rewrite (proj1 HD). reflexivity.
  - destruct (loop_entry_invariant n e mtx0 ch0 idx0 m c k HD Hch HE) as (HS & HC & _).
    destruct (join_square (length m) m c k HS ltac:(lia) ltac:(lia))
      as (i & j & x & ci & cj & _ & Hij & Hj & _ & _ & EJ).
    rewrite EJ in HJ. injection HJ as <- <- <-.
    rewrite (proj1 (square_reduced (length m) m i j HS ltac:(lia) Hj)).
    rewrite drop_delete_le by lia.
    replace (S (length m - 1)) with (length m) by lia.
    rewrite drop_insert_lt by lia. exact IH.
Qed.

(** X13.  When [Tree.nj] is given more names than the n >= 2 rows of its
    square matrix, and finds the shared default list empty, it returns a
    tree that [Tree.write_nwk] cannot write: the leaves of the names in
    excess stay children of the root without a branch length, and the
    call raises [TypeError]. *)
Theorem nj_surplus_not_written (mtx : matrix) (names : list string) (n : nat)
    (w : list string) :
  NoDup names -> square n mtx -> 2 <= n -> n < length names ->
  exists (T : Tree) (s : list (Node G)),
    nj [] mtx names = Some (Ok (T, s)) /\
    (write_nwk fmt6 T w).2 = Err TypeError.
Proof.
  intros Hnd HD Hn Hlen. pose proof (proj1 HD) as HL.
  assert (Hch : length (leaf (G:=G) <$> names) = n + (length names - n))
    by (rewrite length_fmap; lia).
  destruct (nj_loop_runs (length mtx) mtx (leaf (G:=G) <$> names) 0)
    as (m' & c' & k' & Hrun & Hent & Hlen');
    [rewrite HL; assumption|lia|lia|].
  assert (Hlen2 : length m' = 2) by lia.
  destruct (loop_entry_invariant n _ mtx _ 0 m' c' k' HD Hch Hent) as (HS' & HC' & _).
  pose proof (loop_entry_tail n _ mtx _ 0 m' c' k' HD Hch Hent) as Htail.
  rewrite Hlen2 in HS', HC', Htail.
  destruct c' as [|c0 [|c1 rest]]; simpl in HC'; try lia.
  simpl in Htail. rewrite <- fmap_drop in Htail.
  destruct (drop n names) as [|x rest'] eqn:Hdrop.
  { apply (f_equal length) in Hdrop. rewrite length_drop in Hdrop. simpl in Hdrop. lia. }
  rewrite drop_0 in Htail. cbn [fmap list_fmap] in Htail. subst rest.
  unfold nj. simpl app. destruct (decide (NoDup names)); [|contradiction].
  rewrite Hrun. destruct (decide (length m' = 2)); [|contradiction].
  unfold index2.
  destruct (square_row 2 m' 0 HS' ltac:(lia)) as [Hr0 _].
  rewrite (index_Ok _ _ _ Hr0), bind_Ok.
  rewrite (index_Ok _ _ _ (square_entry 2 m' 0 1 HS' ltac:(lia) ltac:(lia))), bind_Ok.
  cbn. eexists _, _. split; [reflexivity|].
  unfold write_nwk.
  match goal with |- context [to_nwk fmt6 ?r w] =>
    destruct (to_nwk_outcome r w) as [[Ha _]|[_ E]];
      [|destruct (to_nwk fmt6 r w) as [w' [[]|e']]; simpl in E; [discriminate|exact E]]
  end.
  exfalso. cbn [Tree_init root postorder fmap list_fmap concat] in Ha.
  rewrite !Forall_app in Ha. destruct Ha as [(_ & _ & Ha & _) _].
  inversion Ha as [|? ? Hx _]. apply Hx. reflexivity.
Qed.

End NEWICK.

(** A tree of three nodes whose root has no branch length. *)
Lemma to_nwk_needs_lengths_witness :
  (to_nwk (G:=unit) (fun _ => "x"%string)
     (mkNode "r" None [mkNode "a" (Some 1%Q) [] "" None;
                       mkNode "b" (Some 2%Q) [] "" None] "" None) []).2
  = Err TypeError.
Proof.
  destruct (to_nwk_needs_lengths (G:=unit) (fun _ => "x"%string)
     (mkNode "r" None [mkNode "a" (Some 1%Q) [] "" None;
                       mkNode "b" (Some 2%Q) [] "" None] "" None) [])
    as [[H _] [E|E]]; [|exact E].
  exfalso. specialize (H E). cbn in H.
  inversion H as [|? ? _ Ha]. inversion Ha as [|? ? _ Hb].
  inversion Hb as [|? ? Hc _]. apply Hc. reflexivity.
Defined.

(** The tree of [five] written. *)
Lemma nj_fresh_write_nwk_witness :
  exists (T : Tree) (s : list (Node unit)) (w' : list string),
    nj [] five abcde = Some (Ok (T, s)) /\
    write_nwk (fun _ => "x"%string) T [] = (w' ++ [";"%string], Ok ()).
Proof.
  apply (nj_fresh_write_nwk (G:=unit) (fun _ => "x"%string) five abcde 5 []).
  - apply (bool_decide_unpack _). vm_compute. exact I.
  - apply five_square.
  - reflexivity.
  - lia.
Defined.

(** Five names for the 3-by-3 matrix [far12]. *)
Lemma nj_surplus_not_written_witness :
  exists (T : Tree) (s : list (Node unit)),
    nj [] far12 abcde = Some (Ok (T, s)) /\
    (write_nwk (fun _ => "x"%string) T []).2 = Err TypeError.
Proof.
  apply (nj_surplus_not_written (G:=unit) (fun _ => "x"%string) far12 abcde 3 []).
  - apply (bool_decide_unpack _). vm_compute. exact I.
  - apply square3.
  - lia.
  - simpl. lia.
Defined.

(** ** The order of a postorder walk *)

Section WALK.
Context {G : Type}.

Lemma concat_walk_split (cs : list (Node G)) (l1 l2 : list (Node G)) (m : Node G) :
  Forall (fun c => forall l1 l2, postorder c = l1 ++ m :: l2 ->
                     exists l0, l1 = l0 ++ below m) cs ->
  concat (postorder <$> cs) = l1 ++ m :: l2 ->
  exists l0, l1 = l0 ++ below m.
Proof.
  intros Hcs. revert l1. induction Hcs as [|c cs Hc _ IH]; intros l1 E.
  - destruct l1; discriminate.
  - cbn [fmap list_fmap concat] in E.
    apply app_eq_inv in E as [(k & E1 & E2)|(k & E1 & E2)].
    + destruct k as [|x k].
      * rewrite app_nil_r in E1. simpl in E2. symmetry in E2.
        destruct (IH [] E2) as (l0 & E0).
        exists (l1 ++ l0). rewrite <- app_assoc, <- E0, app_nil_r. reflexivity.
      * injection E2 as <- _. destruct (Hc l1 k E1) as (l0 & E0).
        exists l0. exact E0.
    + destruct (IH k E2) as (l0 & E0). exists (postorder c ++ l0).
      rewrite E1, E0, app_assoc. reflexivity.
Qed.

(** X14.  In the walk of [Node.postorder] every node comes right after
    the walk of the nodes under it: whatever stands at a place of the
    walk, the places before it end with all nodes under that node, so
    the loop of [align] finds the children of a node visited before the
    node. *)
Theorem postorder_children_first (n m : Node G) (l1 l2 : list (Node G)) :
  postorder n = l1 ++ m :: l2 -> exists l0, l1 = l0 ++ below m.
Proof.
  revert l1 l2. induction n as [x d cs p g IH] using Node_induction.
  intros l1 l2 E. cbn [postorder] in E.
  destruct (decide (l2 = [])) as [->|Hne].
  - apply app_inj_tail in E as [E <-]. exists []. rewrite <- E. reflexivity.
  - destruct (exists_last Hne) as (l2' & y & ->).
    change (l1 ++ m :: l2' ++ [y]) with (l1 ++ (m :: l2') ++ [y]) in E.
    rewrite app_assoc in E. apply app_inj_tail in E as [E _].
    apply (concat_walk_split cs l1 l2' m); [|exact E].
    eapply Forall_impl; [exact IH|]. intros c Hc. exact Hc.
Qed.

End WALK.

(** The inner node of a tree of five nodes: it comes right after its two
    leaves. *)
Lemma postorder_children_first_witness :
  exists l0 : list (Node unit),
    [mkNode "a" None [] "" None; mkNode "b" None [] "" None;
     mkNode "c" None [] "" None] =
    l0 ++ below (mkNode "y" None [mkNode "b" None [] "" None;
                                  mkNode "c" None [] "" None] "" None).
Proof.
  apply (postorder_children_first
    (mkNode "x" None [mkNode "a" None [] "" None;
                      mkNode "y" None [mkNode "b" None [] "" None;
                                       mkNode "c" None [] "" None] "" None] "" None)
    (mkNode "y" None [mkNode "b" None [] "" None;
                      mkNode "c" None [] "" None] "" None)
    _ [mkNode "x" None [mkNode "a" None [] "" None;
                      mkNode "y" None [mkNode "b" None [] "" None;
                                       mkNode "c" None [] "" None] "" None] "" None]).
  reflexivity.
Defined.

(** ** Attaching sequences *)

Section ATTACHED.
Context {G : Type}.

(** The dict of the leaves by name: its keys are the names of the leaves,
    and a name is kept with the place of a leaf of that name. *)
Lemma leafs_dict_names (L : list (Node G)) :
  let leafs := leafs_dict 0 L [] in
  (forall nm, is_Some (dict_get leafs nm) <-> nm ∈ name <$> L) /\
  (forall nm, nm ∈ name <$> L ->
     exists n, L !! position leafs nm = Some n /\ name n = nm).
Proof.
  destruct (leafs_dict_spec [] L []) as [Hpos Hdom];
    [intros nm p; discriminate|intros nm Hnm; inversion Hnm|].
  simpl in Hpos, Hdom. cbv zeta. split.
  - intros nm. split; [|apply Hdom].
    intros [p Hp]. apply Hpos in Hp. eapply list_elem_of_lookup_2, Hp.
  - intros nm Hnm. destruct (Hdom nm Hnm) as [p Hp]. apply Hpos in Hp as Hp'.
    unfold position. rewrite Hp. simpl.
    rewrite list_lookup_fmap in Hp'.
    destruct (L !! p) as [n|]; [|discriminate]. injection Hp' as Hp'. eauto.
Qed.

Lemma attach_items_seqs_by_leaf (leafs : list (string * nat))
    (W : list (string * string)) (acc : list (nat * string)) :
  attach_items leafs W acc = seqs_by_leaf leafs (seqs_items W) acc.
Proof.
  revert acc. induction W as [|[k v] W IH]; intros acc; [reflexivity|].
  cbn [attach_items seqs_items fmap list_fmap seqs_by_leaf fst snd].
  destruct (item leafs k) as [n|e]; [|reflexivity].
  rewrite !bind_Ok. apply IH.
Qed.

(** A key that is no name of the dict stops the comprehension with
    [KeyError]; without one it runs through. *)
Lemma attach_items_outcome (leafs : list (string * nat))
    (W : list (string * string)) (acc : list (nat * string)) :
  ((forall k, k ∈ W.*1 -> is_Some (dict_get leafs k)) /\
   exists sq, attach_items leafs W acc = Ok sq) \/
  ((exists k, k ∈ W.*1 /\ dict_get leafs k = None) /\
   attach_items leafs W acc = Err KeyError).
Proof.
  revert acc. induction W as [|[k v] W IH]; intros acc.
  - left. split; [intros k Hk; inversion Hk|]. eexists. reflexivity.
  - cbn [attach_items]. unfold item.
    destruct (dict_get leafs k) as [n|] eqn:Hk.
    + rewrite bind_Ok. destruct (IH (dict_set n v acc)) as [[Ha E]|[(k' & Hk' & N) E]].
      * left. split; [|exact E]. intros k' Hk'. cbn in Hk'.
        apply elem_of_cons in Hk' as [->|Hk']; [rewrite Hk; eauto|auto].
      * right. split; [|exact E]. exists k'. split; [|exact N]. cbn. right. exact Hk'.
    + right. split; [|reflexivity]. exists k. split; [cbn; left|exact Hk].
Qed.

Lemma get_leafs_cache_ok (T : @Tree G) :
  cache_ok T ->
  (get_leafs T).1 = leaves_of (root T) /\
  root (get_leafs T).2 = root T /\ seqs (get_leafs T).2 = seqs T /\
  leaves (get_leafs T).2 = Some (leaves_of (root T)).
Proof.
  unfold get_leafs. intros [E|E]; rewrite E; cbn; rewrite ?E; auto.
Qed.

(** X15.  [Tree.attach] returns when every key of the dict it is given is
    the name of a leaf of the tree, and only then; when it raises, it
    raises [KeyError]. *)
Theorem attach_key_error (T : @Tree G) (W : list (string * string)) :
  cache_ok T ->
  ((attach T W).2 = Ok () <->
   forall k, k ∈ W.*1 -> k ∈ name <$> leaves_of (root T)) /\
  ((attach T W).2 = Ok () \/ (attach T W).2 = Err KeyError).
Proof.
  intros Hc. destruct (get_leafs_cache_ok T Hc) as (EL & _).
  unfold attach. destruct (get_leafs T) as [L T1]. simpl in EL. subst L.
  destruct (leafs_dict_names (leaves_of (root T))) as [Hdom _]. cbv zeta in Hdom.
  destruct (attach_items_outcome (leafs_dict 0 (leaves_of (root T)) []) W [])
    as [[Ha (sq & E)]|[(k & Hk & N) E]]; rewrite E; cbn [snd].
  - split; [|left; reflexivity]. split; [|reflexivity].
    intros _ k Hk. apply Hdom, Ha, Hk.
  - split; [|right; reflexivity]. split; [discriminate|].
    intros Hall. apply Hall, Hdom in Hk. rewrite N in Hk. destruct Hk; discriminate.
Qed.

(** The tree that a call of [attach] leaves when all keys are names of
    leaves. *)
Lemma attach_ok (T : @Tree G) (W : list (string * string)) :
  cache_ok T -> NoDup W.*1 ->
  (forall k, k ∈ W.*1 -> k ∈ name <$> leaves_of (root T)) ->
  let L := leaves_of (root T) in
  let sq := by_position (leafs_dict 0 L []) W in
  attach T W = (mkTree (root T) (Some sq) (Some L), Ok ()) /\
  Forall (fun kv : nat * string => kv.1 < length L) sq /\
  seqs_by_name L sq [] = Ok W.
Proof.
  intros Hc Hnd Hkeys L sq.
  destruct (get_leafs_cache_ok T Hc) as (EL & ER & _ & EC).
  destruct (leafs_dict_names L) as [Hdom Hat]. cbv zeta in Hdom, Hat.
  assert (Hat' : forall k, k ∈ W.*1 ->
            exists n, L !! position (leafs_dict 0 L []) k = Some n /\ name n = k)
    by (intros k Hk; apply Hat, Hkeys, Hk).
  assert (Hinj : NoDup (position (leafs_dict 0 L []) <$> W.*1)).
  { apply NoDup_fmap_2_strong; [|assumption]. intros k1 k2 H1 H2 E.
    destruct (Hat' k1 H1) as (n1 & Hn1 & <-), (Hat' k2 H2) as (n2 & Hn2 & <-).
    rewrite E in Hn1. congruence. }
  split; [|split].
  - unfold attach. destruct (get_leafs T) as [L1 T1]. simpl in EL, ER, EC. subst L1.
    fold L. rewrite attach_items_seqs_by_leaf, seqs_by_leaf_ok.
    + rewrite ER, EC. reflexivity.
    + intros k Hk. apply Hdom, Hkeys, Hk.
    + exact Hinj.
  - unfold sq, by_position. apply Forall_fmap, Forall_forall. intros [k v] Hkv. cbn.
    destruct (Hat' k) as (n & Hn & _).
    + apply list_elem_of_fmap. exists (k, v). split; [reflexivity|assumption].
    + eapply lookup_lt_Some, Hn.
  - apply (seqs_by_name_back L (leafs_dict 0 L []) W [] Hat'). exact Hnd.
Qed.

(** X16.  When every key of the dict is the name of a leaf, [Tree.attach]
    leaves the root as it is, keys every sequence by a leaf of the tree,
    and the dict of sequences by leaf name that [Tree.write_json] builds
    from the tree is the dict that was attached, with its items in their
    order. *)
Theorem attach_then_names (T : @Tree G) (W : list (string * string)) :
  cache_ok T -> NoDup W.*1 ->
  (forall k, k ∈ W.*1 -> k ∈ name <$> leaves_of (root T)) ->
  exists (T' : Tree) (sq : list (nat * string)),
    attach T W = (T', Ok ()) /\ root T' = root T /\ seqs T' = Some sq /\
    Forall (fun kv : nat * string => kv.1 < length (leaves_of (root T'))) sq /\
    cache_ok T' /\ name_seqs T' = Ok W.
Proof.
  intros Hc Hnd Hkeys.
  destruct (attach_ok T W Hc Hnd Hkeys) as (E & Hlt & Hback). cbv zeta in *.
  eexists _, _. split; [exact E|]. cbn [root seqs].
  split; [reflexivity|]. split; [reflexivity|]. split; [exact Hlt|].
  split; [right; reflexivity|]. exact Hback.
Qed.

(** X17.  After a call of [Tree.nj] on an n-by-n matrix and n distinct
    names, n >= 2, that finds the shared default list empty, sequences
    can be attached under any of the names, and [Tree.write_json] then
    writes them under their names. *)
Theorem nj_fresh_attach (Graph_to_dict : G -> json) (mtx : matrix)
    (names : list string) (n : nat) (W : list (string * string)) :
  NoDup names -> square n mtx -> length names = n -> 2 <= n ->
  NoDup W.*1 -> (forall k, k ∈ W.*1 -> k ∈ names) ->
  exists (T T' : Tree) (s : list (Node G)),
    nj [] mtx names = Some (Ok (T, s)) /\
    attach T W = (T', Ok ()) /\
    write_json Graph_to_dict T' =
      Ok (JDict [("tree"%string, to_json Graph_to_dict (root T));
                 ("seqs"%string, JDict (seqs_items W))]).
Proof.
  intros Hnd HD Hnames Hn HW Hkeys.
  destruct (nj_fresh_leaves (G:=G) mtx names n Hnd HD Hnames Hn)
    as (T & s & Hnj & _ & Hleaves).
  destruct (nj_inv [] mtx names T s Hnj) as (_ & _ & _ & _ & _ & _ & _ & _ & _ & HT).
  assert (Hc : cache_ok T) by (left; rewrite HT; reflexivity).
  assert (Hk : forall k, k ∈ W.*1 -> k ∈ name <$> leaves_of (root T)).
  { intros k Hin. rewrite Hleaves. apply Hkeys, Hin. }
  destruct (attach_ok T W Hc HW Hk) as (E & _ & Hback). cbv zeta in *.
  eexists T, _, s. split; [exact Hnj|]. split; [exact E|].
  unfold write_json, name_seqs. cbn [root seqs]. rewrite Hback, bind_Ok. reflexivity.
Qed.

End ATTACHED.

(** A key that is the name of no leaf of [tree3]. *)
Lemma attach_key_error_witness :
  (attach (mkTree (root tree3) None None) [("nobody"%string, "ACGT"%string)]).2
  = Err KeyError.
Proof.
  destruct (attach_key_error (mkTree (root tree3) None None)
              [("nobody"%string, "ACGT"%string)]) as [[H _] [E|E]];
    [left; reflexivity| |exact E].
  exfalso. specialize (H E "nobody"%string ltac:(left)).
  vm_compute in H. repeat (apply elem_of_cons in H as [H|H]; [discriminate|]).
  inversion H.
Defined.

(** Two of the three leaves of [tree3] get a sequence. *)
Lemma attach_then_names_witness :
  exists (T' : Tree) (sq : list (nat * string)),
    attach (mkTree (root tree3) None None)
      [("C"%string, "GATTACA"%string); ("A"%string, "ACGT"%string)] = (T', Ok ()) /\
    name_seqs T' = Ok [("C"%string, "GATTACA"%string); ("A"%string, "ACGT"%string)].
Proof.
  destruct (attach_then_names (mkTree (root tree3) None None)
              [("C"%string, "GATTACA"%string); ("A"%string, "ACGT"%string)])
    as (T' & sq & E & _ & _ & _ & _ & Hn).
  - left. reflexivity.
  - apply (bool_decide_unpack _). vm_compute. exact I.
  - intros k Hk. vm_compute.
    apply elem_of_cons in Hk as [->|Hk]; [right; right; left|].
    apply elem_of_cons in Hk as [->|Hk]; [left|inversion Hk].
  - exists T', sq. split; [exact E|exact Hn].
Defined.

(** Sequences for two of the five names of a run on [five]. *)
Lemma nj_fresh_attach_witness :
  exists (T T' : Tree) (s : list (Node nat)),
    nj [] five abcde = Some (Ok (T, s)) /\
    attach T [("e"%string, "ACGT"%string); ("a"%string, "TT"%string)] = (T', Ok ()) /\
    write_json num_to_dict T' =
      Ok (JDict [("tree"%string, to_json num_to_dict (root T));
                 ("seqs"%string,
                  JDict (seqs_items [("e"%string, "ACGT"%string);
                                     ("a"%string, "TT"%string)]))]).
Proof.
  apply (nj_fresh_attach num_to_dict five abcde 5).
  - apply (bool_decide_unpack _). vm_compute. exact I.
  - apply five_square.
  - reflexivity.
  - lia.
  - apply (bool_decide_unpack _). vm_compute. exact I.
  - intros k Hk. unfold abcde.
    apply elem_of_cons in Hk as [->|Hk]; [do 4 right; left|].
    apply elem_of_cons in Hk as [->|Hk]; [left|inversion Hk].
Defined.

(** ** The loader on tables that do not fit their header *)

(** The loop of [parse] on lines that hold one number per column up to
    the diagonal and do not outnumber the rows that are left. *)
Lemma parse_lines_within (nrows : nat) (lines : list (string * list Q)) (li : nat)
    (M : matrix) (names : list string) (dels : list nat) :
  square nrows M -> li + length lines <= nrows ->
  (forall k tok vals, lines !! k = Some (tok, vals) -> length vals = S (li + k)) ->
  Forall (fun d => d < li) dels ->
  length names = length (filter (fun d => d ∉ dels) (seq 0 li)) ->
  exists M' dels',
    parse_lines nrows li lines M names dels =
      Ok (M', names ++ filter (fun y => y ∉ names) (first_occurrences (derived lines)),
          dels') /\
    square nrows M' /\ Forall (fun d => d < li + length lines) dels' /\
    length (names ++ filter (fun y => y ∉ names) (first_occurrences (derived lines)))
      = length (filter (fun d => d ∉ dels') (seq 0 (li + length lines))).
Proof.
  revert li M names dels.
  induction lines as [|[tok vals] rest IH]; intros li M names dels HM Hli Hvals Hdels Hcount.
  - simpl in *. exists M, dels. rewrite Nat.add_0_r, app_nil_r. auto.
  - simpl in Hli. cbn [parse_lines derived fmap list_fmap first_occurrences fst length].
    fold (derived rest).
    replace (li + S (length rest)) with (S li + length rest) by lia.
    assert (Hrest : forall k tok' vals', rest !! k = Some (tok', vals') ->
                      length vals' = S (S li + k)).
    { intros k tok' vals' Hk. rewrite (Hvals (S k) tok' vals' Hk). lia. }
    assert (Hseq : forall (P : nat -> Prop) `{!forall x, Decision (P x)},
              filter P (seq 0 (S li)) = filter P (seq 0 li) ++ filter P [li]).
    { intros P ?. rewrite seq_S, filter_app. reflexivity. }
    destruct (decide (derived_name tok ∈ names)) as [Hin|Hnin].
    + destruct (IH (S li) M names (dels ++ [li])) as (M' & dels' & E & HM' & HD' & HC');
        try assumption; [lia| | |].
      * apply Forall_app. split; [eapply Forall_impl; [exact Hdels|]; simpl; lia|].
        constructor; [lia|constructor].
      * rewrite Hcount, Hseq.
        rewrite (filter_singleton_False _ li []), app_nil_r
          by (rewrite elem_of_app, list_elem_of_singleton; tauto).
        f_equal. apply filter_ext_elem. intros x Hx.
        apply elem_of_seq in Hx. rewrite elem_of_app, list_elem_of_singleton.
        split; [intros H [H'|H']; [tauto|lia]|tauto].
      * exists M', dels'.
        rewrite filter_cons_False by tauto.
        rewrite list_filter_filter_l; [auto|].
        intros x Hx ->. contradiction.
    + destruct (decide (nrows <= li)); [lia|].
      rewrite (Hvals 0 tok vals eq_refl), Nat.add_0_r.
      destruct (decide (S li = S li)); [|contradiction].
      destruct (IH (S li) (<[li:=vals ++ drop (S li) (row M li)]> M)
                  (names ++ [derived_name tok]) dels)
        as (M' & dels' & E & HM' & HD' & HC').
      * destruct (square_row nrows M li HM ltac:(lia)) as [_ Hr].
        destruct HM as [HL HR]. split; [rewrite length_insert; assumption|].
        apply Forall_insert; [assumption|].
        rewrite length_app, length_drop, Hr, (Hvals 0 tok vals eq_refl). lia.
      * lia.
      * assumption.
      * eapply Forall_impl; [exact Hdels|]. simpl. lia.
      * rewrite length_app, Hcount, Hseq.
        rewrite (filter_singleton_True _ li []), length_app; [reflexivity|].
        intros Hd. rewrite Forall_forall in Hdels. apply Hdels in Hd. lia.
      * exists M', dels'.
        rewrite filter_cons_True by assumption.
        assert (EF : filter (fun y => y ∉ names ++ [derived_name tok])
                       (first_occurrences (derived rest))
                   = filter (fun y => y ∉ names)
                       (filter (fun y => y <> derived_name tok)
                          (first_occurrences (derived rest)))).
        { rewrite list_filter_filter. apply list_filter_iff. intros x.
          rewrite elem_of_app, list_elem_of_singleton. tauto. }
        rewrite EF, <- app_assoc in E, HC'. simpl in E, HC'. auto.
Qed.

(** The loop on a list of lines in two parts. *)
Lemma parse_lines_app (nrows : nat) (l1 l2 : list (string * list Q)) (li : nat)
    (M : matrix) (names : list string) (dels : list nat) :
  parse_lines nrows li (l1 ++ l2) M names dels =
  match parse_lines nrows li l1 M names dels with
  | Ok (M', names', dels') => parse_lines nrows (li + length l1) l2 M' names' dels'
  | Err e => Err e
  end.
Proof.
  revert li M names dels. induction l1 as [|[tok vals] l1 IH]; intros li M names dels.
  - simpl. rewrite Nat.add_0_r. reflexivity.
  - cbn [app parse_lines length]. replace (li + S (length l1)) with (S li + length l1) by lia.
    destruct (decide (derived_name tok ∈ names)); [apply IH|].
    destruct (decide (nrows <= li)); [reflexivity|].
    destruct (decide (length vals = S li)); [apply IH|].
    destruct vals as [|v [|v' vals]]; [reflexivity|apply IH|reflexivity].
Qed.

(** The loop on lines beyond the rows of the matrix: it raises, or it
    lists a line number that is no row. *)
Lemma parse_lines_beyond (nrows : nat) (lines : list (string * list Q)) (li : nat)
    (M : matrix) (names : list string) (dels : list nat) :
  nrows <= li -> lines <> [] \/ ~ Forall (fun d => d < nrows) dels ->
  parse_lines nrows li lines M names dels = Err IndexError \/
  exists dels', parse_lines nrows li lines M names dels = Ok (M, names, dels') /\
                ~ Forall (fun d => d < nrows) dels'.
Proof.
  revert li dels. induction lines as [|[tok vals] rest IH]; intros li dels Hli Hor.
  - right. exists dels. split; [reflexivity|]. destruct Hor as [H|H]; [contradiction|exact H].
  - cbn [parse_lines]. destruct (decide (derived_name tok ∈ names)).
    + apply IH; [lia|]. right. rewrite Forall_app, Forall_singleton. lia.
    + destruct (decide (nrows <= li)); [left; reflexivity|lia].
Qed.

(** X18.  A table that holds more lines than its header announces, each
    line number [k] with [k + 1] values, makes [parse] raise
    [IndexError]: a line beyond the rows of the matrix is either stored
    into a row that does not exist or listed for a deletion that does
    not find it. *)
Theorem parse_too_many_lines (nrows : nat) (lines : list (string * list Q)) :
  nrows < length lines ->
  (forall k tok vals, lines !! k = Some (tok, vals) -> length vals = S k) ->
  parse nrows lines = Err IndexError.
Proof.
  intros Hlen Hvals. unfold parse.
  rewrite <- (take_drop nrows lines), parse_lines_app.
  destruct (parse_lines_within nrows (take nrows lines) 0
              (replicate nrows (replicate nrows 0%Q)) [] [])
    as (M' & dels' & E & HM & HD & _).
  { apply square_zeros. }
  { rewrite length_take. lia. }
  { intros k tok vals Hk. apply lookup_take_Some in Hk as [Hk _].
    rewrite (Hvals k tok vals Hk). reflexivity. }
  { constructor. }
  { reflexivity. }
  rewrite E. simpl. rewrite length_take, Nat.min_l by lia.
  destruct (parse_lines_beyond nrows (drop nrows lines) nrows M'
              ([] ++ filter (fun y => y ∉ []) (first_occurrences (derived (take nrows lines))))
              dels') as [E2|(d2 & E2 & N)].
  { lia. }
  { left. intros E0. apply (f_equal length) in E0. rewrite length_drop in E0.
    simpl in E0. lia. }
  - simpl in E2. rewrite E2. reflexivity.
  - simpl in E2. rewrite E2. destruct (decide (Forall (fun d => d < nrows) d2)); [contradiction|].
    reflexivity.
Qed.

(** A header that says two over a table of three lines. *)
Lemma parse_too_many_lines_witness :
  parse 2 [("d/s1.fa"%string, [1%Q]); ("d/s2.fa"%string, [(1 # 2)%Q; 1%Q]);
           ("d/s3.fa"%string, [(1 # 4)%Q; (1 # 2)%Q; 1%Q])] = Err IndexError.
Proof.
  apply parse_too_many_lines.
  - simpl. lia.
  - intros [|[|[|k]]] tok vals H; try discriminate; injection H as <- <-; reflexivity.
Defined.

(** The rows that are left of [n] rows when the rows listed in [dels], all
    among the first [k], are deleted. *)
Lemma filter_all {A} (P : A -> Prop) `{!forall x, Decision (P x)} (l : list A) :
  Forall P l -> filter P l = l.
Proof.
  induction 1 as [|x l Hx _ IH]; [reflexivity|].
  rewrite filter_cons_True by assumption. rewrite IH. reflexivity.
Qed.

Lemma count_kept_rows (dels : list nat) (k n : nat) :
  k <= n -> Forall (fun d => d < k) dels ->
  length (filter (fun d => d ∉ dels) (seq 0 n)) =
  length (filter (fun d => d ∉ dels) (seq 0 k)) + (n - k).
Proof.
  intros Hk Hd. replace n with (k + (n - k)) at 1 by lia.
  rewrite seq_app, filter_app, length_app. f_equal. simpl.
  rewrite filter_all; [apply length_seq|].
  apply Forall_forall. intros x Hx Hin. apply elem_of_seq in Hx.
  rewrite Forall_forall in Hd. apply Hd in Hin. lia.
Qed.

(** X19.  A non-empty table that holds fewer lines than its header
    announces, each line number [k] with [k + 1] values, is read without
    complaint: [parse] returns the names of the lines with a matrix that
    has as many rows more than names as lines are missing.  [Tree.nj] on
    the two raises [IndexError] whenever the shared default list holds
    fewer nodes than lines are missing, an empty list included. *)
Theorem parse_header_too_large (nrows : nat) (lines : list (string * list Q)) :
  lines <> [] -> length lines < nrows ->
  (forall k tok vals, lines !! k = Some (tok, vals) -> length vals = S k) ->
  exists M names,
    parse nrows lines = Ok (M, names) /\
    names = first_occurrences (derived lines) /\
    square (length names + (nrows - length lines)) M /\
    forall (G : Type) (s : list (Node G)),
      length s < nrows - length lines ->
      nj s M names = Some (Err IndexError).
Proof.
  intros Hne Hlen Hvals.
  destruct (parse_lines_within nrows lines 0
              (replicate nrows (replicate nrows 0%Q)) [] [])
    as (loaded & dels & E & HM & HD & HC).
  { apply square_zeros. }
  { simpl. lia. }
  { intros k tok vals Hk. rewrite (Hvals k tok vals Hk). reflexivity. }
  { constructor. }
  { reflexivity. }
  simpl in E, HC, HD. rewrite filter_not_in_nil in E, HC.
  pose proof (square_drop_repeated nrows dels loaded HM) as HS.
  rewrite (count_kept_rows dels (length lines) nrows) in HS by (assumption || lia).
  rewrite <- HC in HS.
  destruct (symmetrize_symmetric _ _ HS) as (S1 & _).
  assert (Hpos : 0 < length (first_occurrences (derived lines))).
  { destruct lines as [|[tok vals] rest]; [contradiction|]. simpl. lia. }
  exists (symmetrize (drop_repeated dels loaded)), (first_occurrences (derived lines)).
  split; [|split; [reflexivity|split; [exact S1|]]].
  - unfold parse. rewrite E.
    destruct (decide (Forall (fun d => d < nrows) dels)) as [|N]; [reflexivity|].
    exfalso. apply N. eapply Forall_impl; [exact HD|]. simpl. lia.
  - intros G s Hs.
    eapply nj_short_of_children; [apply first_occurrences_NoDup|exact S1|lia|lia].
Qed.

(** X20.  The first line of a table that does not hold as many values as
    its line number asks for, nor a single one, makes [parse] raise
    [ValueError], when it is a line within the rows that the header
    announces and its identifier is new. *)
Theorem parse_wrong_row_length (nrows : nat) (good rest : list (string * list Q))
    (tok : string) (vals : list Q) :
  (forall k tok' vals', good !! k = Some (tok', vals') -> length vals' = S k) ->
  length good < nrows ->
  derived_name tok ∉ derived good ->
  length vals <> S (length good) -> length vals <> 1 ->
  parse nrows (good ++ (tok, vals) :: rest) = Err ValueError.
Proof.
  intros Hvals Hlen Hnew Hbad Hone. unfold parse. rewrite parse_lines_app.
  destruct (parse_lines_within nrows good 0
              (replicate nrows (replicate nrows 0%Q)) [] [])
    as (loaded & dels & E & HM & HD & HC).
  { apply square_zeros. }
  { simpl. lia. }
  { intros k tok' vals' Hk. rewrite (Hvals k tok' vals' Hk). reflexivity. }
  { constructor. }
  { reflexivity. }
  rewrite E. simpl. rewrite filter_not_in_nil.
  rewrite decide_False by (rewrite first_occurrences_elem; exact Hnew).
  rewrite decide_False by lia.
  rewrite decide_False by exact Hbad.
  destruct vals as [|v [|v' vals]]; [reflexivity|contradiction|reflexivity].
Qed.

Lemma parse_lines_spread (nrows : nat) (lines : list (string * list Q)) (li : nat)
    (M : matrix) (names : list string) (dels : list nat) :
  parse_lines nrows li (imap (fun k => spread (li + k)) lines) M names dels =
  parse_lines nrows li lines M names dels.
Proof.
  revert li M names dels.
  induction lines as [|[tok vals] rest IH]; intros li M names dels; [reflexivity|].
  rewrite imap_cons. rewrite Nat.add_0_r.
  assert (ER : imap ((fun k => spread (li + k)) ∘ S) rest
               = imap (fun k => spread (S li + k)) rest).
  { apply imap_ext. intros k x _. simpl. f_equal. lia. }
  rewrite ER.
  assert (E1 : (spread li (tok, vals)).1 = tok)
    by (unfold spread; simpl; destruct vals as [|v [|]]; reflexivity).
  destruct (spread li (tok, vals)) as [tok' vals'] eqn:ES. simpl in E1. subst tok'.
  cbn [parse_lines].
  destruct (decide (derived_name tok ∈ names)); [apply IH|].
  destruct (decide (nrows <= li)); [reflexivity|].
  unfold spread in ES. simpl in ES.
  destruct vals as [|v [|v' vals]]; injection ES as <-;
    [reflexivity| |rewrite IH; reflexivity].
  rewrite decide_True by (cbn [length]; rewrite length_replicate; reflexivity).
  rewrite IH. destruct (decide (length [v] = S li)) as [El|]; [|reflexivity].
  simpl in El. injection El as <-. reflexivity.
Qed.

(** X21.  A line that holds a single value is read as if it held that
    value once for every column up to the diagonal: [parse] returns the
    same on a table and on the table with every such line written
    out. *)
Theorem parse_single_value_repeated (nrows : nat) (lines : list (string * list Q)) :
  parse nrows (imap spread lines) = parse nrows lines.
Proof.
  unfold parse.
  rewrite <- (parse_lines_spread nrows lines 0). reflexivity.
Qed.

(** A header that says three over a table of two lines. *)
Lemma parse_header_too_large_witness :
  exists M,
    parse 3 [("d/s1.fa"%string, [1%Q]); ("d/s2.fa"%string, [(1 # 2)%Q; 1%Q])]
      = Ok (M, ["s1"; "s2"]%string) /\
    square 3 M /\
    nj (G:=unit) [] M ["s1"; "s2"]%string = Some (Err IndexError).
Proof.
  destruct (parse_header_too_large 3
              [("d/s1.fa"%string, [1%Q]); ("d/s2.fa"%string, [(1 # 2)%Q; 1%Q])])
    as (M & names & HP & HN & HS & HJ).
  - discriminate.
  - simpl. lia.
  - intros [|[|k]] tok vals H; try discriminate; injection H as <- <-; reflexivity.
  - assert (EN : names = ["s1"; "s2"]%string) by (rewrite HN; vm_compute; reflexivity).
    rewrite EN in *. exists M. split; [exact HP|]. split; [exact HS|].
    apply HJ. simpl. lia.
Defined.

(** A second line of three values. *)
Lemma parse_wrong_row_length_witness :
  parse 2 [("d/s1.fa"%string, [1%Q]); ("d/s2.fa"%string, [1%Q; 2%Q; 3%Q])]
  = Err ValueError.
Proof.
  apply (parse_wrong_row_length 2 [("d/s1.fa"%string, [1%Q])] []
           "d/s2.fa"%string [1%Q; 2%Q; 3%Q]).
  - intros [|k] tok vals H; try discriminate; injection H as <- <-; reflexivity.
  - simpl. lia.
  - vm_compute. intros H. apply elem_of_cons in H as [H|H]; [discriminate|inversion H].
  - simpl. lia.
  - simpl. lia.
Defined.

(** ** The identifier of a line *)

Lemma list_ascii_of_string_app (a b : string) :
  list_ascii_of_string (a +:+ b) = list_ascii_of_string a ++ list_ascii_of_string b.
Proof. induction a as [|c a IH]; [reflexivity|]. simpl. rewrite IH. reflexivity. Qed.

Lemma length_list_ascii_of_string (a : string) :
  length (list_ascii_of_string a) = String.length a.
Proof. induction a as [|c a IH]; [reflexivity|]. simpl. rewrite IH. reflexivity. Qed.

Lemma segment_no_slash (acc l : list ascii) :
  "/"%char ∉ l ->
  foldl (fun acc c => if decide (c = "/"%char) then [] else acc ++ [c]) acc l = acc ++ l.
Proof.
  revert acc. induction l as [|c l IH]; intros acc Hl; simpl.
  - rewrite app_nil_r. reflexivity.
  - rewrite not_elem_of_cons in Hl. destruct Hl as [Hc Hl].
    rewrite decide_False by congruence. rewrite IH by assumption.
    rewrite <- app_assoc. reflexivity.
Qed.

Lemma last_segment_after_slash (l1 l2 : list ascii) :
  "/"%char ∉ l2 -> last_segment (l1 ++ "/"%char :: l2) = l2.
Proof.
  intros Hl. unfold last_segment. rewrite foldl_app. simpl.
  apply (segment_no_slash [] l2 Hl).
Qed.

Lemma stem_of_segment (stem ext : string) :
  String.length ext = 3 ->
  string_of_list_ascii
    (take (length (list_ascii_of_string stem ++ list_ascii_of_string ext) - 3)
       (list_ascii_of_string stem ++ list_ascii_of_string ext)) = stem.
Proof.
  intros He. rewrite length_app, (length_list_ascii_of_string ext), He.
  replace (length (list_ascii_of_string stem) + 3 - 3)
    with (length (list_ascii_of_string stem)) by lia.
  rewrite take_app_length. apply string_of_list_ascii_of_string.
Qed.

(** X22.  The identifier that [parse] derives from the first field of a
    line is the file name without its directories and without its last
    three characters: for a stem and an extension of three characters,
    neither with a ['/'] in it, it is the stem, with or without a
    directory path before them. *)
Theorem derived_name_stem (stem ext : string) :
  "/"%char ∉ list_ascii_of_string stem -> "/"%char ∉ list_ascii_of_string ext ->
  String.length ext = 3 ->
  derived_name (stem +:+ ext) = stem /\
  forall dir : string, derived_name (dir +:+ "/" +:+ stem +:+ ext) = stem.
Proof.
  intros Hs He Hlen.
  assert (Hse : "/"%char ∉ list_ascii_of_string stem ++ list_ascii_of_string ext)
    by (rewrite elem_of_app; tauto).
  split.
  - unfold derived_name. rewrite list_ascii_of_string_app.
    unfold last_segment. rewrite (segment_no_slash [] _ Hse). simpl app.
    apply stem_of_segment, Hlen.
  - intros dir. unfold derived_name. rewrite !list_ascii_of_string_app.
    change (list_ascii_of_string "/") with ["/"%char]. simpl app.
    rewrite (last_segment_after_slash _ _ Hse).
    apply stem_of_segment, Hlen.
Qed.

Lemma derived_name_stem_witness :
  derived_name "s1.fa" = "s1"%string /\
  forall dir : string, derived_name (dir +:+ "/" +:+ "s1" +:+ ".fa") = "s1"%string.
Proof.
  apply (derived_name_stem "s1" ".fa").
  - vm_compute. intros H. repeat (apply elem_of_cons in H as [H|H]; [discriminate|]).
    inversion H.
  - vm_compute. intros H. repeat (apply elem_of_cons in H as [H|H]; [discriminate|]).
    inversion H.
  - reflexivity.
Defined.

(** ** [nodiag] *)

(** X23.  On an n-by-n matrix [nodiag] returns an n-by-n matrix with a
    zero diagonal and the same entries off the diagonal, and a second
    call changes no entry. *)
Theorem nodiag_clears_diagonal (n : nat) (M : matrix) :
  square n M ->
  square n (nodiag M) /\ zero_diagonal (nodiag M) /\
  (forall i j, i <> j -> (mget (nodiag M) i j == mget M i j)%Q) /\
  (forall i j, (mget (nodiag (nodiag M)) i j == mget (nodiag M) i j)%Q).
Proof.
  assert (Hone : forall M, square n M ->
            square n (nodiag M) /\ zero_diagonal (nodiag M) /\
            (forall i j, i <> j -> (mget (nodiag M) i j == mget M i j)%Q)).
  { clear M. intros M HM.
    destruct (entries_nodiag n M _ (entries_self n M HM)) as [HS HE].
    split; [exact HS|]. split.
    - intros i Hi. rewrite (proj1 HS) in Hi. rewrite (HE i i Hi Hi).
      rewrite decide_True by reflexivity. ring.
    - intros i j Hij. destruct (decide (i < n)); [destruct (decide (j < n))|].
      + rewrite (HE i j) by assumption. rewrite decide_False by assumption. ring.
      + rewrite (mget_out_of_range n _ i j HS), (mget_out_of_range n _ i j HM) by lia.
        reflexivity.
      + rewrite (mget_out_of_range n _ i j HS), (mget_out_of_range n _ i j HM) by lia.
        reflexivity. }
  intros HM. destruct (Hone M HM) as (HS & HZ & HO).
  split; [exact HS|]. split; [exact HZ|]. split; [exact HO|].
  destruct (Hone (nodiag M) HS) as (HS2 & HZ2 & HO2).
  intros i j. destruct (decide (i = j)) as [<-|Hne]; [|apply HO2, Hne].
  destruct (decide (i < n)).
  - transitivity 0%Q; [apply HZ2; rewrite (proj1 HS2); assumption|].
    symmetry. apply HZ. rewrite (proj1 HS). assumption.
  - rewrite (mget_out_of_range n _ i i HS2), (mget_out_of_range n _ i i HS) by lia.
    reflexivity.
Qed.

Lemma nodiag_clears_diagonal_witness :
  square 3 (nodiag [[7; 1; 1]; [1; 8; 5]; [1; 5; 9]]%Q) /\
  zero_diagonal (nodiag [[7; 1; 1]; [1; 8; 5]; [1; 5; 9]]%Q).
Proof.
  destruct (nodiag_clears_diagonal 3 [[7; 1; 1]; [1; 8; 5]; [1; 5; 9]]%Q)
    as (H1 & H2 & _); [apply square3|]. split; assumption.
Defined.

(** ** The check of a graph and the outcomes of [merge0] *)

Section OUTCOMES.
Context {G : Type}.
Variable fuse : G -> G -> G.
Variable union : G -> string -> string -> string -> G * bool.
Variable compress_ratio : G -> Q.
Variable members : G -> list string.
Variable extract : G -> string -> string.
Variable tmpdir : string.
Variable leaf_seqs : list (string * string).

Abbreviation merge0_ := (merge0 fuse union compress_ratio members extract tmpdir leaf_seqs).
Abbreviation selfmaps_ := (selfmaps union members extract tmpdir leaf_seqs).
Abbreviation check_ := (check members extract leaf_seqs).
Abbreviation pass_graph_ := (pass_graph union tmpdir).
Abbreviation pass_contin_ := (pass_contin union tmpdir).

Lemma differing_block_same (o : string) : differing_block o o = false.
Proof.
  unfold differing_block. apply not_true_iff_false. intros E.
  apply existsb_exists in E as (i & _ & E).
  rewrite String.eqb_refl in E. discriminate.
Qed.

Lemma nerror_outcome (ls : list (string * string)) (g : G) :
  (nerror members extract ls g = Err IndexError /\
   exists nm sq, (nm, sq) ∈ ls /\ overlong members extract g nm sq) \/
  (exists k, nerror members extract ls g = Ok k /\
     (forall nm sq, (nm, sq) ∈ ls -> ~ overlong members extract g nm sq) /\
     (k = 0 <->
      forall nm sq, (nm, sq) ∈ ls -> nm ∈ members g -> upper sq = extract g nm)).
Proof.
  induction ls as [|[nm sq] ls IH]; cbn [nerror].
  - right. exists 0. split; [reflexivity|]. split.
    + intros nm sq Hin. inversion Hin.
    + split; [|reflexivity]. intros _ nm sq Hin. inversion Hin.
  - assert (Hlater : forall nm' sq', (nm', sq') ∈ ls -> (nm', sq') ∈ (nm, sq) :: ls)
      by (intros; right; assumption).
    destruct (decide (nm ∈ members g)) as [Hin|Hout].
    + destruct (decide (upper sq = extract g nm)) as [Heq|Hne].
      * destruct IH as [[E (nm' & sq' & Hel & Hbad)]|(k & E & Hno & Hk)].
        -- left. split; [exact E|]. exists nm', sq'. auto.
        -- right. exists k. split; [exact E|]. split.
           ++ intros nm' sq' Hel. apply elem_of_cons in Hel as [[= -> ->]|Hel]; [|auto].
              intros (_ & Hd & _). rewrite <- Heq, differing_block_same in Hd.
              discriminate.
           ++ rewrite Hk. split.
              ** intros Hall nm' sq' Hel.
                 apply elem_of_cons in Hel as [[= -> ->]|Hel]; auto.
              ** intros Hall nm' sq' Hel. apply Hall. right. exact Hel.
      * destruct (differing_block (upper sq) (extract g nm)
                  && (String.length (upper sq) <? String.length (extract g nm)))
          eqn:Hover.
        -- left. split; [reflexivity|]. exists nm, sq. split; [left|].
           apply andb_true_iff in Hover as [Hd Hl]. apply Nat.ltb_lt in Hl.
           repeat split; assumption.
        -- destruct IH as [[E (nm' & sq' & Hel & Hbad)]|(k & E & Hno & Hk)].
           ++ left. rewrite E. split; [reflexivity|]. exists nm', sq'. auto.
           ++ right. exists (S k). rewrite E, bind_Ok. split; [reflexivity|]. split.
              ** intros nm' sq' Hel. apply elem_of_cons in Hel as [[= -> ->]|Hel]; [|auto].
                 intros (_ & Hd & Hl). apply Nat.ltb_lt in Hl.
                 rewrite Hd, Hl in Hover. discriminate.
              ** split; [discriminate|]. intros Hall. exfalso.
                 apply Hne, Hall; [left|exact Hin].
    + destruct IH as [[E (nm' & sq' & Hel & Hbad)]|(k & E & Hno & Hk)].
      * left. split; [exact E|]. exists nm', sq'. auto.
      * right. exists k. split; [exact E|]. split.
        -- intros nm' sq' Hel. apply elem_of_cons in Hel as [[= -> ->]|Hel]; [|auto].
           intros (Hin & _). contradiction.
        -- rewrite Hk. split.
           ++ intros Hall nm' sq' Hel.
              apply elem_of_cons in Hel as [[= -> ->]|Hel]; [contradiction|auto].
           ++ intros Hall nm' sq' Hel. apply Hall. right. exact Hel.
Qed.

Lemma check_outcomes (g : G) :
  check members extract leaf_seqs g = Ok () \/
  check members extract leaf_seqs g = Err IndexError \/
  check members extract leaf_seqs g = Err ValueError.
Proof.
  unfold check.
  destruct (nerror_outcome leaf_seqs g) as [[E _]|(k & E & _)]; rewrite E.
  - right. left. reflexivity.
  - rewrite bind_Ok. destruct (decide (k = 0)); [left|right; right]; reflexivity.
Qed.

(** X24.  With a sequence attached to every leaf, [check] returns when
    the graph gives back, for every leaf that is a member of the graph,
    the sequence of the leaf in upper case, and only then.  It raises
    [IndexError], from the debugging code of the mismatch, when for some
    such leaf the graph gives back a longer sequence of which a block of
    100 characters differs, and only then; in all other cases it raises
    [ValueError].  Leaves that are no members of the graph are not looked
    at. *)
Theorem check_reproduces (g : G) :
  (check members extract leaf_seqs g = Ok () <->
   forall nm sq, (nm, sq) ∈ leaf_seqs -> nm ∈ members g -> upper sq = extract g nm) /\
  (check members extract leaf_seqs g = Err IndexError <->
   exists nm sq, (nm, sq) ∈ leaf_seqs /\ nm ∈ members g /\
     differing_block (upper sq) (extract g nm) = true /\
     String.length (upper sq) < String.length (extract g nm)) /\
  (check members extract leaf_seqs g = Ok () \/
   check members extract leaf_seqs g = Err IndexError \/
   check members extract leaf_seqs g = Err ValueError).
Proof.
  unfold check.
  destruct (nerror_outcome leaf_seqs g) as [[E Hbad]|(k & E & Hno & Hk)]; rewrite E.
  - split; [|split].
    + split; [discriminate|]. intros Hall. exfalso.
      destruct Hbad as (nm & sq & Hel & Hin & Hd & _).
      rewrite (Hall nm sq Hel Hin), differing_block_same in Hd. discriminate.
    + split; [intros _; exact Hbad|reflexivity].
    + right. left. reflexivity.
  - rewrite bind_Ok. destruct (decide (k = 0)) as [->|Hk0].
    + split; [|split].
      * split; [intros _; apply Hk; reflexivity|reflexivity].
      * split; [discriminate|]. intros (nm & sq & Hel & Hbad).
        exfalso. apply (Hno nm sq Hel Hbad).
      * left. reflexivity.
    + split; [|split].
      * split; [discriminate|]. intros Hall. exfalso. apply Hk0, Hk, Hall.
      * split; [discriminate|]. intros (nm & sq & Hel & Hbad).
        exfalso. apply (Hno nm sq Hel Hbad).
      * right. right. reflexivity.
Qed.

Lemma check_raises (g : G) (e : exn) :
  check members extract leaf_seqs g = Err e -> e = IndexError \/ e = ValueError.
Proof.
  intros E. destruct (check_outcomes g) as [E'|[E'|E']];
    rewrite E' in E; [discriminate| |]; injection E as <-; auto.
Qed.

(** What the loop of [merge0] went through when it returns a graph. *)
Lemma selfmaps_inv (nname : string) (k i : nat) (g g' : G) :
  selfmaps_ nname k i g = Ok (Some g') ->
  exists t, t < k /\
    (forall u, u <= t -> check_ (pass_graph_ nname i g u) = Ok ()) /\
    (forall u, u < t -> pass_contin_ nname i g u = true) /\
    pass_contin_ nname i g t = false /\
    g' = pass_graph_ nname i g (S t).
Proof.
  revert i g. induction k as [|k IH]; intros i g; [discriminate|].
  rewrite selfmaps_S.
  destruct (check_ g) as [[]|e] eqn:Hc; [|discriminate]. rewrite bind_Ok.
  destruct (union g (iter_path tmpdir nname i) (iter_path tmpdir nname i)
              (iter_path tmpdir nname i)).2 eqn:Hu.
  - intros Hrun. destruct (IH _ _ Hrun) as (t & Ht & Hchk & Hcon & Hstop & ->).
    exists (S t). split; [lia|]. split; [|split; [|split]].
    + intros [|u] Hu'; [exact Hc|]. rewrite pass_graph_S. apply Hchk. lia.
    + intros [|u] Hu'; [rewrite pass_contin_0; exact Hu|].
      rewrite pass_contin_S. apply Hcon. lia.
    + rewrite pass_contin_S. exact Hstop.
    + rewrite (pass_graph_S _ _ nname i g (S t)). reflexivity.
  - intros [= <-]. exists 0. split; [lia|]. split; [|split; [|split]].
    + intros u Hu'. replace u with 0 by lia. exact Hc.
    + intros u Hu'. lia.
    + rewrite pass_contin_0. exact Hu.
    + reflexivity.
Qed.

(** X25.  [merge0] returns a graph in one case only: the candidate is not
    below the threshold, and among the [MAXSELFMAPS] passes there is a
    first one that reports no more work, every graph up to it having
    passed [check]; the graph returned is the one that this pass
    produces, which [merge0] itself does not check. *)
Theorem merge0_returns_graph (nname : string) (g0 g1 : G) (p0 p1 : string) (g : G) :
  let cand := candidate fuse union tmpdir nname g0 p0 g1 p1 in
  merge0 fuse union compress_ratio members extract tmpdir leaf_seqs nname g0 p0 g1 p1
    = Ok (Some g) <->
  Qltb (compress_ratio cand) (cutoff compress_ratio g0 g1) = false /\
  exists t, t < MAXSELFMAPS /\
    (forall u, u <= t ->
       check members extract leaf_seqs (pass_graph union tmpdir nname 0 cand u) = Ok ()) /\
    (forall u, u < t -> pass_contin union tmpdir nname 0 cand u = true) /\
    pass_contin union tmpdir nname 0 cand t = false /\
    g = pass_graph union tmpdir nname 0 cand (S t).
Proof.
  intros cand. split.
  - unfold merge0. fold cand.
    destruct (Qltb (compress_ratio cand) (cutoff compress_ratio g0 g1)); [discriminate|].
    intros Hrun. split; [reflexivity|]. apply selfmaps_inv, Hrun.
  - intros (Hgate & t & Ht & Hchk & Hcon & Hstop & ->).
    apply merge0_refines; assumption.
Qed.

(** The loop of [merge0] raises nothing but what a failed check
    raises. *)
Lemma selfmaps_error (nname : string) (k i : nat) (g : G) (e : exn) :
  selfmaps_ nname k i g = Err e ->
  exists t, t < k /\
    (forall u, u < t -> pass_contin_ nname i g u = true) /\
    check_ (pass_graph_ nname i g t) = Err e.
Proof.
  revert i g. induction k as [|k IH]; intros i g; [discriminate|].
  rewrite selfmaps_S.
  destruct (check_ g) as [[]|e'] eqn:Hc.
  - rewrite bind_Ok.
    destruct (union g (iter_path tmpdir nname i) (iter_path tmpdir nname i)
                (iter_path tmpdir nname i)).2 eqn:Hu; [|discriminate].
    intros Hrun. destruct (IH _ _ Hrun) as (t & Ht & Hcon & Hbad).
    exists (S t). split; [lia|]. split.
    + intros [|u] Hu'; [rewrite pass_contin_0; exact Hu|].
      rewrite pass_contin_S. apply Hcon. lia.
    + rewrite pass_graph_S. exact Hbad.
  - intros [= <-]. exists 0. split; [lia|]. split; [intros u Hu'; lia|exact Hc].
Qed.

(** X26.  [merge0] raises only what [check] raises, an [IndexError] or a
    [ValueError], and only when the candidate is not below the threshold
    and [check] raises on the graph that one of the [MAXSELFMAPS] passes
    starts from, all passes before that one having reported more work. *)
Theorem merge0_raises (nname : string) (g0 g1 : G) (p0 p1 : string) (e : exn) :
  let cand := candidate fuse union tmpdir nname g0 p0 g1 p1 in
  merge0 fuse union compress_ratio members extract tmpdir leaf_seqs nname g0 p0 g1 p1
    = Err e ->
  (e = IndexError \/ e = ValueError) /\
  Qltb (compress_ratio cand) (cutoff compress_ratio g0 g1) = false /\
  exists t, t < MAXSELFMAPS /\
    (forall u, u < t -> pass_contin union tmpdir nname 0 cand u = true) /\
    check members extract leaf_seqs (pass_graph union tmpdir nname 0 cand t) = Err e.
Proof.
  intros cand. unfold merge0. fold cand.
  destruct (Qltb (compress_ratio cand) (cutoff compress_ratio g0 g1)); [discriminate|].
  intros Hrun. destruct (selfmaps_error _ _ _ _ _ Hrun) as (t & Ht & Hcon & Hbad).
  split; [exact (check_raises _ _ Hbad)|]. split; [reflexivity|].
  exists t. auto.
Qed.

End OUTCOMES.

(** A collaborator whose second pass reports no more work: the graph of
    that pass is returned. *)
Lemma merge0_returns_graph_witness :
  exists t, t < MAXSELFMAPS /\
    pass_contin calm_union "tmp" "NODE_00000" 0
      (candidate Nat.add calm_union "tmp" "NODE_00000" 0 "tmp/A" 0 "tmp/B") t = false /\
    3 = pass_graph calm_union "tmp" "NODE_00000" 0
          (candidate Nat.add calm_union "tmp" "NODE_00000" 0 "tmp/A" 0 "tmp/B") (S t).
Proof.
  destruct (proj1 (merge0_returns_graph Nat.add calm_union growing_ratio no_members
                     no_extract "tmp" [] "NODE_00000" 0 0 "tmp/A" "tmp/B" 3))
    as (_ & t & Ht & _ & _ & Hstop & Hg).
  - vm_compute. reflexivity.
  - exists t. split; [exact Ht|]. split; [exact Hstop|exact Hg].
Defined.

(** A graph that has the leaf ["A"] as a member and gives back another
    sequence. *)
Lemma merge0_raises_witness :
  exists t, t < MAXSELFMAPS /\
    check (fun _ : nat => ["A"%string]) no_extract [("A"%string, "acgt"%string)]
      (pass_graph calm_union "tmp" "NODE_00000" 0
         (candidate Nat.add calm_union "tmp" "NODE_00000" 0 "tmp/A" 0 "tmp/B") t)
    = Err ValueError.
Proof.
  destruct (merge0_raises Nat.add calm_union growing_ratio (fun _ : nat => ["A"%string])
              no_extract "tmp" [("A"%string, "acgt"%string)]
              "NODE_00000" 0 0 "tmp/A" "tmp/B" ValueError)
    as (_ & _ & t & Ht & _ & Hbad).
  - vm_compute. reflexivity.
  - exists t. split; [exact Ht|exact Hbad].
Defined.

(** ** The distances after a join *)

Section UPDATE.
Context {G : Type}.

(** X27.  A join on an n-by-n matrix, n >= 3, with at least n root
    children returns the matrix without row and column [j] of the pair
    [(i, j)] it selects, in which the row and the column that stood at
    [i] hold [(D[i,k] + D[j,k] - D[i,j]) / 2] against every other row
    [k], the entry at [(i, i)] is 0, and all other entries are those of
    the matrix before. *)
Theorem join_update_rule (n : nat) (D : matrix) (ch : list (Node G)) (idx : nat) :
  square n D -> 3 <= n -> n <= length ch ->
  exists i j x D' ch',
    minpair (q D) = Ok (i, j, Fin x) /\ i < j /\ j < n /\
    join D ch idx = Ok (D', ch', S idx) /\
    square (n - 1) D' /\
    forall a b, a < n - 1 -> b < n - 1 ->
      mget D' a b =
      let dnew k := ((1 # 2) * (mget D i k + mget D j k - mget D i j))%Q in
      if decide (skip j a = i /\ skip j b = i) then 0%Q
      else if decide (skip j b = i) then dnew (skip j a)
      else if decide (skip j a = i) then dnew (skip j b)
      else mget D (skip j a) (skip j b).
Proof.
  intros HD Hn Hch.
  destruct (join_square n D ch idx HD Hn Hch)
    as (i & j & x & ci & cj & Hm & Hij & Hj & _ & _ & EJ).
  destruct (entries_reduced n D i j HD ltac:(lia) Hj) as [HS HE].
  exists i, j, x. eexists _, _. split; [exact Hm|]. split; [exact Hij|].
  split; [exact Hj|]. split; [exact EJ|]. split; [exact HS|].
  intros a b Ha Hb. rewrite (HE a b Ha Hb). reflexivity.
Qed.

Lemma entries_overwritten (n : nat) (D : matrix) (i j : nat) :
  square n D -> i < n -> j < n ->
  let dnew k := ((1 # 2) * (mget D i k + mget D j k - mget D i j))%Q in
  entries n (overwritten D i j)
    (fun a b => if decide (a = i /\ b = i) then 0%Q
                else if decide (b = i) then dnew a
                else if decide (a = i) then dnew b
                else mget D a b).
Proof.
  intros HD Hi Hj dnew. unfold overwritten.
  set (v := zip_with _ _ _).
  destruct (square_row n D i HD Hi) as [_ Li].
  destruct (square_row n D j HD Hj) as [_ Lj].
  assert (Lv : length v = n) by (unfold v; rewrite length_zip_with, Li, Lj; lia).
  assert (Hv : forall k, k < n -> qnth v k = dnew k).
  { intros k Hk. unfold qnth, v. rewrite lookup_zip_with.
    rewrite (square_entry n D i k HD Hi Hk), (square_entry n D j k HD Hj Hk).
    reflexivity. }
  eapply entries_ext.
  - apply entries_set_entry; [|assumption..].
    apply entries_set_col; [|assumption].
    apply entries_set_row; [|assumption..].
    apply entries_self. assumption.
  - intros a b Ha Hb. simpl.
    destruct (decide (a = i /\ b = i)); [reflexivity|].
    destruct (decide (b = i)); [apply Hv; assumption|].
    destruct (decide (a = i)); [apply Hv; assumption|reflexivity].
Qed.

(** X28.  [Tree.nj] writes into the array it is given.  After a call on
    an n-by-n array with a zero diagonal, n >= 3, distinct names and at
    least n root children to work on, the array of the caller is still
    n-by-n, but for the pair [(i, j)] of the first join it reads 0 at
    [(i, j)] and at [(j, i)], whatever the distance was; outside row and
    column [i] it is as before. *)
Theorem nj_overwrites_argument (s : list (Node G)) (mtx : matrix)
    (names : list string) (n : nat) :
  NoDup names -> square n mtx -> zero_diagonal mtx -> 3 <= n ->
  n <= length s + length names ->
  exists i j x,
    minpair (q mtx) = Ok (i, j, Fin x) /\ i < j /\ j < n /\
    square n (argument_after s mtx names) /\
    (mget (argument_after s mtx names) i j == 0)%Q /\
    (mget (argument_after s mtx names) j i == 0)%Q /\
    forall a b, a < n -> b < n -> a <> i -> b <> i ->
      mget (argument_after s mtx names) a b = mget mtx a b.
Proof.
  intros Hnd HD HZ Hn Hch. pose proof (proj1 HD) as HL.
  destruct (join_square n mtx (s ++ (leaf <$> names)) 0 HD Hn)
    as (i & j & x & ci & cj & Hm & Hij & Hj & _ & _ & EJ).
  { rewrite length_app, length_fmap. exact Hch. }
  assert (EA : argument_after s mtx names = overwritten mtx i j).
  { unfold argument_after. rewrite decide_True by assumption.
    rewrite decide_True by lia. rewrite Hm, EJ. reflexivity. }
  rewrite EA.
  destruct (entries_overwritten n mtx i j HD ltac:(lia) Hj) as [HS HE].
  exists i, j, x. split; [exact Hm|]. split; [exact Hij|]. split; [exact Hj|].
  split; [exact HS|].
  assert (Hjj : (mget mtx j j == 0)%Q) by (apply HZ; lia).
  split; [|split].
  - rewrite (HE i j) by lia.
    rewrite decide_False by lia. rewrite decide_False by lia.
    rewrite decide_True by reflexivity. rewrite Hjj. ring.
  - rewrite (HE j i) by lia.
    rewrite decide_False by lia. rewrite decide_True by reflexivity.
    rewrite Hjj. ring.
  - intros a b Ha Hb Hai Hbi. rewrite (HE a b Ha Hb).
    rewrite decide_False by tauto. rewrite decide_False by assumption.
    rewrite decide_False by assumption. reflexivity.
Qed.

End UPDATE.

(** The first join of a run on [five]: rows 0 and 1. *)
Lemma join_update_rule_witness :
  exists i j x D' (ch' : list (Node unit)),
    minpair (q five) = Ok (i, j, Fin x) /\ i < j /\ j < 5 /\
    join five (leaf <$> abcde) 0 = Ok (D', ch', 1) /\ square 4 D'.
Proof.
  destruct (join_update_rule (G:=unit) 5 five (leaf <$> abcde) 0)
    as (i & j & x & D' & ch' & Hm & Hij & Hj & EJ & HS & _).
  - apply five_square.
  - lia.
  - simpl. lia.
  - exists i, j, x, D', ch'. auto.
Defined.

(** The array [five] after a call: the distance 5 between its first two
    rows is gone. *)
Lemma nj_overwrites_argument_witness :
  exists i j x,
    minpair (q five) = Ok (i, j, Fin x) /\ i < j /\ j < 5 /\
    (mget (argument_after (G:=unit) [] five abcde) i j == 0)%Q.
Proof.
  destruct (nj_overwrites_argument (G:=unit) [] five abcde 5)
    as (i & j & x & Hm & Hij & Hj & _ & H0 & _).
  - apply (bool_decide_unpack _). vm_compute. exact I.
  - apply five_square.
  - apply five_zero_diagonal.
  - lia.
  - simpl. lia.
  - exists i, j, x. auto.
Defined.

(** ** The names of the internal nodes *)

Lemma pretty_N_go_first (x : N) (s : string) :
  (0 < x)%N -> exists c t, pretty_N_go x s = String c t /\ c <> "0"%char.
Proof.
  revert s. induction (N.lt_wf_0 x) as [x _ IH]. intros s Hx.
  rewrite pretty_N_go_step by assumption.
  destruct (decide (x < 10)%N) as [Hlt|Hge].
  - rewrite N.div_small by assumption. rewrite pretty_N_go_0.
    rewrite N.mod_small by assumption. eexists _, _. split; [reflexivity|].
    assert (x = 1 \/ x = 2 \/ x = 3 \/ x = 4 \/ x = 5 \/ x = 6
            \/ x = 7 \/ x = 8 \/ x = 9)%N as Hc by lia.
    repeat (destruct Hc as [->|Hc]; [discriminate|]). subst x. discriminate.
  - apply IH.
    + apply N.div_lt; lia.
    + apply N.div_str_pos. lia.
Qed.

Lemma pretty_nat_first (n : nat) :
  (n = 0 /\ pretty n = "0"%string) \/
  (0 < n /\ exists c t, pretty n = String c t /\ c <> "0"%char).
Proof.
  destruct n as [|n]; [left; split; reflexivity|]. right. split; [lia|].
  unfold pretty, pretty_nat, pretty, pretty_N.
  rewrite decide_False by lia. apply pretty_N_go_first. lia.
Qed.

Lemma zeros_prefix (ka kb : nat) (sa sb : string) :
  zeros ka +:+ sa = zeros kb +:+ sb -> ka <= kb -> sa = zeros (kb - ka) +:+ sb.
Proof.
  revert kb. induction ka as [|ka IH]; intros kb E Hle.
  - rewrite Nat.sub_0_r. exact E.
  - destruct kb as [|kb]; [lia|]. simpl in E. injection E as E.
    apply IH; [exact E|lia].
Qed.

Lemma padded_inj (a b ka kb : nat) :
  zeros ka +:+ pretty a = zeros kb +:+ pretty b -> ka <= kb -> a = b.
Proof.
  intros E Hle. apply zeros_prefix in E; [|exact Hle].
  destruct (decide (kb - ka = 0)) as [E0|Hd].
  - rewrite E0 in E. simpl in E. apply (inj pretty), E.
  - exfalso. destruct (kb - ka) as [|d]; [contradiction|]. simpl in E.
    destruct (pretty_nat_first a) as [[_ Ea]|[_ (c & t & Ea & Hc)]];
      rewrite Ea in E.
    + injection E as E. destruct d; simpl in E; [|discriminate].
      destruct (pretty_nat_first b) as [[_ Eb]|[_ (c & t & Eb & _)]];
        rewrite Eb in E; discriminate.
    + injection E as E _. contradiction.
Qed.

(** X29.  The counter of [join] names every internal node differently:
    two different numbers give two different names, also beyond the five
    digits that the format pads to. *)
Theorem node_name_distinct (a b : nat) : a <> b -> node_name a <> node_name b.
Proof.
  intros Hne E. apply Hne. unfold node_name in E. cbv zeta in E.
  simpl in E. injection E as E.
  destruct (decide (5 - String.length (pretty a) <= 5 - String.length (pretty b))).
  - eapply padded_inj; [exact E|assumption].
  - symmetry. eapply padded_inj; [symmetry; exact E|lia].
Qed.

Lemma node_name_distinct_witness : node_name 7 <> node_name 4321.
Proof. apply node_name_distinct. lia. Defined.

(** ** The number of leaves *)

Section LEAFS.
Context {G : Type}.

Lemma leaves_of_nonempty (n : Node G) : leaves_of n <> [].
Proof.
  induction n as [x d cs p g IH] using Node_induction.
  rewrite leaves_of_node. destruct cs as [|c cs]; [discriminate|].
  rewrite bind_cons. inversion IH as [|? ? Hc _]; subst.
  destruct (leaves_of c); [contradiction|discriminate].
Qed.

(** X30.  [Tree.num_leafs] returns the number of leaves under the root,
    which is at least one, leaves the root as it is and the cache filled
    with those leaves, for a tree whose cache is unset or up to date. *)
Theorem num_leafs_counts (T : @Tree G) :
  cache_ok T ->
  (num_leafs T).1 = length (leaves_of (root T)) /\ 1 <= (num_leafs T).1 /\
  root (num_leafs T).2 = root T /\
  leaves (num_leafs T).2 = Some (leaves_of (root T)).
Proof.
  intros Hc. destruct (get_leafs_cache_ok T Hc) as (EL & ER & _ & EC).
  unfold num_leafs. destruct (get_leafs T) as [L T1]. simpl in *. subst L.
  split; [reflexivity|]. split; [|split; assumption].
  pose proof (leaves_of_nonempty (root T)) as Hne.
  destruct (leaves_of (root T)); [contradiction|simpl; lia].
Qed.

End LEAFS.

Lemma num_leafs_counts_witness :
  (num_leafs (mkTree (root tree3) None None)).1 = 3.
Proof.
  destruct (num_leafs_counts (mkTree (root tree3) None None)) as (E & _).
  - left. reflexivity.
  - rewrite E. reflexivity.
Defined.

(** A leaf of a hundred characters that the graph gives back as a hundred
    and one others. *)
Lemma check_reproduces_witness :
  check (fun _ : nat => ["A"%string]) (fun _ _ => copies 101 "C")
    [("A"%string, copies 100 "a")] 0 = Err IndexError.
Proof.
  apply (check_reproduces (fun _ : nat => ["A"%string]) (fun _ _ => copies 101 "C")
           [("A"%string, copies 100 "a")] 0).
  exists "A"%string, (copies 100 "a"). split; [left|]. split; [left|].
  split; [vm_compute; reflexivity|]. vm_compute. lia.
Defined.

(** * The selection of the pair in machine arithmetic *)

Section MACHINE.
Context {F : Type} `{Machine.Arith F}.


(** ** [np.argmin] *)



(** ** What [q] computes *)





(** ** [minpair] on the computed criterion *)


End MACHINE.

